(** * map-tiles-downloader: a shallow embedding of [crawler.py]

    The development follows the layout of the program:
    - Python values, exceptions and the library functions the crawler
      calls ([str.format], [os.path.dirname], [urlparse], [Path.suffix]);
    - [Crawler.find_tile], the Web-Mercator projection;
    - the tile enumeration and task construction of [Crawler.crawl_box];
    - [Crawler.download_tile] over a small model of the file system and
      of the HTTP session;
    - the [asyncio] worker pool of [worker] and [crawl_box] as a step
      relation on an explicit scheduler state.

    Arithmetic on Python [float]s is idealised: a float is a real number.
    Rounding, infinities and NaN are outside the model; the exceptions
    Python raises on finite values (division by zero, [math.log] of a
    non-positive number, an [int] too large for a [float]) are modelled.
    The column index, which needs neither [math.sin] nor [math.log], is
    also given in binary64, to check the real-number model where rounding
    and overflow could matter. What is stated of the tiles that
    [find_tile] returns is stated away from the inputs at which rounding
    decides the outcome: the poles, where [math.sin] rounds to 1 or -1
    before the latitude reaches 90, the ends of the band of the square
    map near 85.0511 degrees, where the row is at an end of its range,
    and the levels near the largest exponent of a double. *)

From Stdlib Require Import Reals Machin Lra Lia ZArith Ascii Floats.
From stdpp Require Import gmap strings list pretty relations.

Local Open Scope Z_scope.

(** ** Python exceptions *)

(** The exception classes the program can meet. All of them derive from
    [Exception], which is what the [except Exception] clause of [worker]
    catches. *)
Inductive exc_kind : Type :=
  | Exception
  | ZeroDivisionError
  | ValueError
  | OverflowError
  | KeyError
  | IndexError
  | OSError
  | ClientError.

Record py_exc : Type := PyExc { exc_class : exc_kind; exc_msg : string }.

(** A computation that returns a value or raises. *)
Inductive result (A : Type) : Type :=
  | Ok (a : A)
  | Raise (e : py_exc).
Arguments Ok {A} a.
Arguments Raise {A} e.

#[global] Instance result_ret : MRet result := λ A a, Ok a.
#[global] Instance result_bind : MBind result := λ A B f m,
  match m with
  | Ok a => f a
  | Raise e => Raise e
  end.

Definition returns {A} (r : result A) : Prop := ∃ a, r = Ok a.
Definition raises {A} (r : result A) (k : exc_kind) : Prop :=
  ∃ msg, r = Raise (PyExc k msg).

#[global] Instance exc_kind_eq_dec : EqDecision exc_kind.
Proof. solve_decision. Defined.
#[global] Instance py_exc_eq_dec : EqDecision py_exc.
Proof. solve_decision. Defined.

(** ** Tiles *)

(** [@dataclass class Tile: x: int; y: int; z: int] *)
Record Tile : Type := mkTile { x : Z; y : Z; z : Z }.

#[global] Instance Tile_eq_dec : EqDecision Tile.
Proof. solve_decision. Defined.

(** ** Numbers *)

(** The result of [2 ** level]: an [int] for a non-negative exponent, a
    [float] otherwise. *)
Inductive py_num : Type :=
  | PyInt (n : Z)
  | PyFloat (r : R).

(** Conversion of an [int] operand to [float] in mixed arithmetic: CPython
    raises [OverflowError] when the integer rounds beyond the largest
    finite double. *)
Definition float_overflow_bound : Z := 2 ^ 1024 - 2 ^ 970.

Definition int_to_float (n : Z) : result R :=
  if decide (Z.abs n < float_overflow_bound) then Ok (IZR n)
  else Raise (PyExc OverflowError "int too large to convert to float").

(** [b ** e] on two [int]s. For a negative exponent CPython converts both
    operands to [float] first, which raises [OverflowError] for an
    exponent beyond the doubles, and refuses a zero base. *)
Definition py_pow (b e : Z) : result py_num :=
  if decide (0 ≤ e) then Ok (PyInt (b ^ e))
  else
    base ← int_to_float b;
    _ ← int_to_float e;
    if decide (b = 0) then
      Raise (PyExc ZeroDivisionError "0.0 cannot be raised to a negative power")
    else Ok (PyFloat (powerRZ base e)).

Definition to_float (n : py_num) : result R :=
  match n with
  | PyInt k => int_to_float k
  | PyFloat r => Ok r
  end.

(** [a / b] on floats. *)
Definition float_div (a b : R) : result R :=
  if Req_dec_T b 0 then Raise (PyExc ZeroDivisionError "float division by zero")
  else Ok (a / b)%R.

(** [math.log]. *)
Definition math_log (v : R) : result R :=
  if Rle_dec v 0 then Raise (PyExc ValueError "math domain error")
  else Ok (ln v).

(** [int(r)] on a finite float: truncation toward zero. *)
Definition py_int (r : R) : Z :=
  if Rle_dec 0 r then Int_part r else - Int_part (- r).

(** ** [Crawler.find_tile] *)

(** [self.tile_size = 256] *)
Definition tile_size : Z := 256.

Definition find_tile (latitude longitude : R) (level : Z) : result Tile :=
  let sin_latitude := sin (latitude * PI / 180) in
  scale ← py_pow 2 level ≫= to_float;
  let pixel_x := ((longitude + 180) / 360 * IZR tile_size * scale)%R in
  ratio ← float_div (1 + sin_latitude) (1 - sin_latitude);
  lg ← math_log ratio;
  scale' ← py_pow 2 level ≫= to_float;
  let pixel_y := ((0.5 - lg / (4 * PI)) * IZR tile_size * scale')%R in
  Ok {| x := py_int (pixel_x / IZR tile_size);
        y := py_int (pixel_y / IZR tile_size);
        z := level |}.

(** *** The column in binary64

    [int(f)] on a double: [None] stands for the [OverflowError] or
    [ValueError] that Python raises on an infinity or a NaN. *)
Definition b64_int (f : float) : option Z :=
  match Prim2SF f with
  | S754_zero _ => Some 0
  | S754_finite sign m e =>
      let magnitude := if decide (0 ≤ e) then Z.pos m * 2 ^ e
                       else Z.pos m `quot` 2 ^ (- e) in
      Some (if sign then - magnitude else magnitude)
  | S754_infinity _ | S754_nan => None
  end.

(** The [x] of [find_tile] as CPython computes it, for a level in
    [[0, 1024)], where the [int] [2 ** level] converts to the double
    [ldexp(1.0, level)] exactly. *)
Definition b64_column (longitude : float) (level : Z) : option Z :=
  let pixel_x := ((longitude + 180) / 360 * 256 * Z.ldexp 1 level)%float in
  b64_int (pixel_x / 256)%float.

(** The factor of [pixel_y] that depends on the latitude, as a function
    of [sin_latitude]. *)
Definition mercator (s : R) : R := (0.5 - ln ((1 + s) / (1 - s)) / (4 * PI))%R.

(** A latitude short of the pole whose sine is 0.9999 (about 89.19 degrees). *)
Definition near_pole_latitude : R := (asin (9999 / 10000) * 180 / PI)%R.

(** ** Strings *)

(** [str(n)] for an [int]. *)
Definition py_str (n : Z) : string := pretty n.

(** [sub in s] *)
Definition contains (s sub : string) : Prop :=
  ∃ pre post, s = pre +:+ sub +:+ post.

Fixpoint all_slashes (s : string) : bool :=
  match s with
  | "" => true
  | String c rest => bool_decide (c = "/"%char) && all_slashes rest
  end.

(** [s.rstrip('/')] *)
Fixpoint rstrip_slashes (s : string) : string :=
  match s with
  | "" => ""
  | String c rest =>
      let rest' := rstrip_slashes rest in
      if bool_decide (c = "/"%char) && bool_decide (rest' = "") then ""
      else String c rest'
  end.

(** Whether the last character of [s] is a slash. *)
Fixpoint ends_with_slash (s : string) : bool :=
  match s with
  | "" => false
  | String c "" => bool_decide (c = "/"%char)
  | String _ rest => ends_with_slash rest
  end.

(** [p[:i]] for [i = p.rfind('/') + 1]: the part of [p] up to and
    including its last slash, empty when [p] has none. *)
Fixpoint head_to_last_slash (p : string) : string :=
  match p with
  | "" => ""
  | String c rest =>
      match head_to_last_slash rest with
      | "" => if bool_decide (c = "/"%char) then "/" else ""
      | h => String c h
      end
  end.

(** [os.path.dirname] (posixpath). *)
Definition dirname (p : string) : string :=
  let head := head_to_last_slash p in
  if bool_decide (head ≠ "") && negb (all_slashes head)
  then rstrip_slashes head else head.

(** ** The library behaviours left abstract

    [str.format] is modelled below for plain replacement fields, a bare
    keyword or index between braces; what it does with a field that
    carries a conversion, a format specification or an attribute or index
    access is a parameter, which receives the text of the field. So are
    the path component that [urllib.parse.urlparse] extracts from a URL
    (it may raise [ValueError]) and the [suffix] of a [pathlib.Path]. *)
Class PythonLib : Type := {
  format_rich_field : string → Tile → result string;
  urlparse_path : string → result string;
  path_suffix : string → string
}.

Fixpoint has_char (c : ascii) (s : string) : bool :=
  match s with
  | "" => false
  | String d rest => bool_decide (c = d) || has_char c rest
  end.

Fixpoint all_digits (s : string) : bool :=
  match s with
  | "" => true
  | String d rest => bool_decide (is_Some (Ascii.is_nat d)) && all_digits rest
  end.

(** A text of ASCII characters only. A [string] holds the bytes of the
    UTF-8 encoding of a Python [str]; the bytes from 128 on belong to the
    characters outside ASCII. *)
Definition ascii_char (c : ascii) : bool :=
  match c with Ascii _ _ _ _ _ _ _ high => negb high end.

Fixpoint all_ascii (s : string) : bool :=
  match s with
  | "" => true
  | String c rest => ascii_char c && all_ascii rest
  end.

(** Where the scanner of [str.format] is: in literal text, in the name
    of a replacement field, between the brackets of an index in that
    name, at the conversion character after [!], past it, or in the
    format specification, [count] braces deep. The characters of the
    field read so far are kept last one first. *)
Inductive scan_state : Type :=
  | InText
  | InName (acc : string)
  | InIndex (acc : string)
  | InConversion (acc : string)
  | AfterConversion (acc : string)
  | InSpec (acc : string) (count : nat).

Section format.
Context `{PythonLib}.

(** A replacement field made of a name only, in
    [template.format(x=tile.x, y=tile.y, z=tile.z)]: an empty name or a
    number asks for a positional argument, of which there is none (an
    index too long for a machine integer is refused with [ValueError]
    instead; the model does not tell the two apart). A name with a
    character outside ASCII is left to the parameter: [str.format] reads
    the decimal digits of every script as a number. *)
Definition format_field (name : string) (tile : Tile) : result string :=
  if has_char "." name || has_char "[" name || negb (all_ascii name)
  then format_rich_field name tile
  else if all_digits name then
    Raise (PyExc IndexError "Replacement index out of range for positional args tuple")
  else if bool_decide (name = "x") then Ok (py_str (x tile))
  else if bool_decide (name = "y") then Ok (py_str (y tile))
  else if bool_decide (name = "z") then Ok (py_str (z tile))
  else Raise (PyExc KeyError name).

(** The scanner, after [MarkupIterator_next] and [parse_field] of
    CPython. *)
Fixpoint format_scan (tile : Tile) (st : scan_state) (s : string)
  : result string :=
  match st, s with
  | InText, "" => Ok ""
  | InText, String "{" (String "{" rest) =>
      r ← format_scan tile InText rest; Ok (String "{" r)
  | InText, String "}" (String "}" rest) =>
      r ← format_scan tile InText rest; Ok (String "}" r)
  | InText, String "{" "" =>
      Raise (PyExc ValueError "Single '{' encountered in format string")
  | InText, String "{" rest => format_scan tile (InName "") rest
  | InText, String "}" _ =>
      Raise (PyExc ValueError "Single '}' encountered in format string")
  | InText, String c rest =>
      r ← format_scan tile InText rest; Ok (String c r)
  | InName _, "" | InIndex _, "" =>
      Raise (PyExc ValueError "expected '}' before end of string")
  | InName _, String "{" _ =>
      Raise (PyExc ValueError "unexpected '{' in field name")
  | InName acc, String "}" rest =>
      v ← format_field (String.rev acc) tile;
      r ← format_scan tile InText rest;
      Ok (v +:+ r)
  | InName acc, String "[" rest => format_scan tile (InIndex (String "[" acc)) rest
  | InName acc, String ":" rest => format_scan tile (InSpec (String ":" acc) 1) rest
  | InName acc, String "!" rest => format_scan tile (InConversion (String "!" acc)) rest
  | InName acc, String c rest => format_scan tile (InName (String c acc)) rest
  | InIndex acc, String "]" rest => format_scan tile (InName (String "]" acc)) rest
  | InIndex acc, String c rest => format_scan tile (InIndex (String c acc)) rest
  | InConversion _, "" =>
      Raise (PyExc ValueError "end of string while looking for conversion specifier")
  | InConversion acc, String c rest =>
      format_scan tile (AfterConversion (String c acc)) rest
  | AfterConversion _, "" | InSpec _ _, "" =>
      Raise (PyExc ValueError "unmatched '{' in format spec")
  | AfterConversion acc, String "}" rest =>
      v ← format_rich_field (String.rev acc) tile;
      r ← format_scan tile InText rest;
      Ok (v +:+ r)
  | AfterConversion acc, String ":" rest =>
      format_scan tile (InSpec (String ":" acc) 1) rest
  | AfterConversion _, String _ _ =>
      Raise (PyExc ValueError "expected ':' after conversion specifier")
  | InSpec acc count, String "{" rest =>
      format_scan tile (InSpec (String "{" acc) (S count)) rest
  | InSpec acc (S (S count)), String "}" rest =>
      format_scan tile (InSpec (String "}" acc) (S count)) rest
  | InSpec acc _, String "}" rest =>
      v ← format_rich_field (String.rev acc) tile;
      r ← format_scan tile InText rest;
      Ok (v +:+ r)
  | InSpec acc count, String c rest =>
      format_scan tile (InSpec (String c acc) count) rest
  end.

(** [Crawler.replace_path_tile] *)
Definition replace_path_tile (path : string) (tile : Tile) : result string :=
  format_scan tile InText path.

End format.

(** ** The tile rectangle and its tasks *)

(** [range(a, b)] *)
Definition py_range (a b : Z) : list Z := seqZ a (b - a).

(** The tiles visited by the two nested loops of [crawl_box], in the
    order of the visit. *)
Definition box_tiles (bounding_box : Tile * Tile) : list Tile :=
  tx ← py_range (x bounding_box.1) (x bounding_box.2 + 1);
  ty ← py_range (y bounding_box.1) (y bounding_box.2 + 1);
  [ {| x := tx; y := ty; z := z bounding_box.1 |} ].

(** The arguments of one [self.download_tile(session, source, target)]
    coroutine, together with the tile it was made for. *)
Record Task : Type := mkTask {
  task_tile : Tile;
  task_source : string;
  task_target : string
}.

#[global] Instance Task_eq_dec : EqDecision Task.
Proof. solve_decision. Defined.

(** [self.path_template = "{z}/{x}/{y}"] *)
Definition path_template : string := "{z}/{x}/{y}".

(** The layout of the target tree: [{folder}/{z}/{x}/{y}{ext}]. *)
Definition layout (folder : string) (tile : Tile) (ext : string) : string :=
  folder +:+ "/" +:+ py_str (z tile) +:+ "/" +:+ py_str (x tile) +:+ "/" +:+
  py_str (y tile) +:+ ext.

Section crawl_box_tasks.
Context `{PythonLib}.

(** The extension of a run: the suffix of the path of the URL template. *)
Definition template_extension (url : string) : string :=
  match urlparse_path url with
  | Ok path => path_suffix path
  | Raise _ => ""
  end.

(** The body of the inner loop of [crawl_box], up to the [queue.put]. *)
Definition tile_task (url folder : string) (tile : Tile) : result Task :=
  source ← replace_path_tile url tile;
  path ← urlparse_path url;
  inner ← replace_path_tile path_template tile;
  Ok {| task_tile := tile;
        task_source := source;
        task_target := folder +:+ "/" +:+ inner +:+ path_suffix path |}.

(** The loops of [crawl_box]: every task is appended to the queue; an
    exception leaves the loops at once. *)
Fixpoint enqueue_tiles (url folder : string) (tiles : list Tile)
    (queue : list Task) : result (list Task) :=
  match tiles with
  | [] => Ok queue
  | tile :: tiles =>
      task ← tile_task url folder tile;
      enqueue_tiles url folder tiles (queue ++ [task])
  end.

Definition crawl_box_tasks (bounding_box : Tile * Tile) (url folder : string)
  : result (list Task) :=
  enqueue_tiles url folder (box_tiles bounding_box) [].

End crawl_box_tasks.

(** ** [Crawler.crawl] *)

(** [class CrawlerArgs(argparse.Namespace)] *)
Record CrawlerArgs : Type := mkCrawlerArgs {
  top_latitude : R;
  top_longitude : R;
  bottom_latitude : R;
  bottom_longitude : R;
  level : Z;
  url : string;
  target_folder : string;
  parallel_tasks : Z
}.

Section crawl.
Context `{PythonLib}.

(** [crawl] up to the end of the loops of [crawl_box]: the two corner
    tiles, then one task for every tile between them. *)
Definition crawl_tasks (args : CrawlerArgs) : result (list Task) :=
  top_left_tile ←
    find_tile (top_latitude args) (top_longitude args) (level args);
  bottom_right_tile ←
    find_tile (bottom_latitude args) (bottom_longitude args) (level args);
  crawl_box_tasks (top_left_tile, bottom_right_tile) (url args)
    (target_folder args).

End crawl.

(** ** The file system and the HTTP session *)

(** Directories and regular files, by path; the root always exists. Paths
    are compared as strings, so that the model is a view of the disk
    through its normalised paths ([normal_path] below): two spellings of
    one path, such as [out//0] and [out/0], are two keys here and one
    file on disk, and what depends on the identity of a file is stated
    for normalised paths only. Links and file systems that ignore case
    are outside the model. *)
Record filesystem : Type := mkFs {
  fs_dirs : gset string;
  fs_files : gmap string (list Byte.byte)
}.

Definition is_root (p : string) : bool :=
  bool_decide (p ≠ "") && all_slashes p.

Definition is_dir (fs : filesystem) (p : string) : Prop :=
  is_root p ∨ p ∈ fs_dirs fs.

#[global] Instance is_dir_dec fs p : Decision (is_dir fs p).
Proof. unfold is_dir. apply _. Defined.

(** The path and its ancestors below the root, nearest first. *)
Fixpoint ancestors_go (fuel : nat) (p : string) : list string :=
  match fuel with
  | O => []
  | S fuel =>
      if bool_decide (p = "") || is_root p then []
      else p :: ancestors_go fuel (dirname p)
  end.

Definition ancestors (p : string) : list string :=
  ancestors_go (String.length p) p.

(** [os.makedirs(name, exist_ok=True)]: the directory and its missing
    ancestors are created; a regular file in the way makes it raise. The
    exception is an [OSError]; its message stands for the text that
    [str(e)] gives, which carries the error number and the path and is
    not modelled. *)
Definition makedirs (name : string) (fs : filesystem) : result filesystem :=
  if bool_decide (name = "") then
    Raise (PyExc OSError "No such file or directory")
  else if bool_decide (Exists (λ a, a ∈ dom (fs_files fs)) (ancestors name)) then
    Raise (PyExc OSError "File exists")
  else
    Ok {| fs_dirs := fs_dirs fs ∪ list_to_set (ancestors name);
          fs_files := fs_files fs |}.

(** The components of a path, the texts between its slashes. *)
Fixpoint split_slash (p : string) : list string :=
  match p with
  | "" => [""]
  | String c rest =>
      if bool_decide (c = "/"%char) then "" :: split_slash rest
      else
        match split_slash rest with
        | component :: components => String c component :: components
        | [] => [String c ""]
        end
  end.

(** A normalised path, relative to the working directory: no component
    is empty, [.] or [..], so that the path neither starts nor ends with
    a slash and holds no doubled slash. Two such paths name one file only
    if they are equal. *)
Definition normal_path (p : string) : bool :=
  forallb (λ component,
             negb (bool_decide (component = "" ∨ component = "." ∨
                                component = "..")))
          (split_slash p).

(** Opening [target] with mode ['wb']: the file is created or truncated.
    A path that names a directory is refused, and a path with a trailing
    slash names one. As for [makedirs], the messages stand for the text
    of the [OSError]. *)
Definition open_wb (target : string) (fs : filesystem) : result filesystem :=
  if bool_decide (target = "") then
    Raise (PyExc OSError "No such file or directory")
  else if bool_decide (is_dir fs target ∨ ends_with_slash target = true) then
    Raise (PyExc OSError "Is a directory")
  else if bool_decide (dirname target = "" ∨ is_dir fs (dirname target)) then
    Ok {| fs_dirs := fs_dirs fs; fs_files := <[target := []]> (fs_files fs) |}
  else
    Raise (PyExc OSError "No such file or directory").

(** [f.write(data)] on the file just opened. *)
Definition write_file (target : string) (data : list Byte.byte)
    (fs : filesystem) : filesystem :=
  {| fs_dirs := fs_dirs fs; fs_files := <[target := data]> (fs_files fs) |}.

(** What [resp.read()] gives. *)
Inductive read_outcome : Type :=
  | ReadOk (body : list Byte.byte)
  | ReadFails (e : py_exc).

(** What [session.get(url)] gives: a network-level error or a response
    with its status. *)
Inductive http_outcome : Type :=
  | ConnectFails (e : py_exc)
  | Response (status : Z) (read : read_outcome).

Definition ClientSession : Type := string → http_outcome.

Inductive log_level : Type := DEBUG | INFO | ERROR.

#[global] Instance log_level_eq_dec : EqDecision log_level.
Proof. solve_decision. Defined.

(** Everything outside the interpreter that the crawler touches. *)
Record world : Type := mkWorld {
  w_fs : filesystem;
  w_requests : list string;   (* the GET requests issued so far *)
  w_log : list (log_level * string)
}.

Definition logging (level : log_level) (msg : string) (w : world) : world :=
  {| w_fs := w_fs w; w_requests := w_requests w;
     w_log := w_log w ++ [(level, msg)] |}.

Definition set_fs (fs : filesystem) (w : world) : world :=
  {| w_fs := fs; w_requests := w_requests w; w_log := w_log w |}.

Definition issue_get (url : string) (w : world) : world :=
  {| w_fs := w_fs w; w_requests := w_requests w ++ [url]; w_log := w_log w |}.

(** ** [Crawler.download_tile] *)

(** The points at which the coroutine is resumed: at its start, when the
    response arrives, and when the body has been read (the target file is
    open by then). The awaits that the source has between these points
    and after the last one (the opening of the file, the write, the exits
    of the two [async with] blocks) are merged into the activation that
    follows them: the model tells when a request is out, a file open and
    a coroutine over, not how often a coroutine is resumed, nor what
    another coroutine may do between the last write of one and its end.
    What is stated of the runs below does not rest on either. *)
Inductive dl_phase : Type :=
  | PhStart
  | PhResponse
  | PhBody (read : read_outcome).

(** One activation of the coroutine ends suspended at the next [await]
    or finished, by [return] or by an exception. *)
Inductive activation : Type :=
  | Suspended (next : dl_phase)
  | Finished (r : result unit).

Definition download_step (session : ClientSession) (source target : string)
    (phase : dl_phase) (w : world) : world * activation :=
  match phase with
  | PhStart =>
      let w := logging DEBUG ("Downloading " +:+ source +:+ " to " +:+ target) w in
      match makedirs (dirname target) (w_fs w) with
      | Raise e => (w, Finished (Raise e))
      | Ok fs => (issue_get source (set_fs fs w), Suspended PhResponse)
      end
  | PhResponse =>
      match session source with
      | ConnectFails e => (w, Finished (Raise e))
      | Response status read =>
          if bool_decide (status = 200) then
            match open_wb target (w_fs w) with
            | Raise e => (w, Finished (Raise e))
            | Ok fs => (set_fs fs w, Suspended (PhBody read))
            end
          else
            (w, Finished (Raise (PyExc Exception
                  (source +:+ " returned status " +:+ py_str status))))
      end
  | PhBody read =>
      match read with
      | ReadFails e => (w, Finished (Raise e))
      | ReadOk body =>
          let w := set_fs (write_file target body (w_fs w)) w in
          (logging INFO ("Downloaded " +:+ source +:+ " to " +:+ target) w,
           Finished (Ok ()))
      end
  end.

(** The body of [download_tile] read from top to bottom, as it runs when
    nothing else is scheduled in between. *)
Definition download_tile (session : ClientSession) (source target : string)
    (w : world) : world * result unit :=
  let w := logging DEBUG ("Downloading " +:+ source +:+ " to " +:+ target) w in
  let dirname := dirname target in
  match makedirs dirname (w_fs w) with
  | Raise e => (w, Raise e)
  | Ok fs =>
      let w := issue_get source (set_fs fs w) in
      match session source with
      | ConnectFails e => (w, Raise e)
      | Response status read =>
          if bool_decide (status = 200) then
            match open_wb target (w_fs w) with
            | Raise e => (w, Raise e)
            | Ok fs =>
                let w := set_fs fs w in
                match read with
                | ReadFails e => (w, Raise e)
                | ReadOk body =>
                    let w := set_fs (write_file target body (w_fs w)) w in
                    (logging INFO ("Downloaded " +:+ source +:+ " to " +:+ target) w,
                     Ok ())
                end
            end
          else
            (w, Raise (PyExc Exception
                  (source +:+ " returned status " +:+ py_str status)))
      end
  end.

(** The coroutine resumed until it finishes, at most [fuel] times. *)
Fixpoint run_coroutine (fuel : nat) (session : ClientSession)
    (source target : string) (phase : dl_phase) (w : world)
  : option (world * result unit) :=
  match fuel with
  | O => None
  | S fuel =>
      match download_step session source target phase w with
      | (w', Finished r) => Some (w', r)
      | (w', Suspended next) => run_coroutine fuel session source target next w'
      end
  end.

(** ** The worker pool of [crawl_box] *)

(** A worker is at [await queue.get()], inside [await task_coro], gone
    with an exception that left its loop, or cancelled. *)
Inductive worker_state : Type :=
  | WIdle
  | WRunning (task : Task) (phase : dl_phase)
  | WCrashed (e : py_exc)
  | WCancelled.

(** [crawl_box] has filled the queue and made the progress bar, waits in
    [queue.join()], or has returned. *)
Inductive main_state : Type :=
  | MEnqueued
  | MJoin
  | MReturned.

#[global] Instance main_state_eq_dec : EqDecision main_state.
Proof. solve_decision. Defined.

Record pool : Type := mkPool {
  p_world : world;
  p_queue : list Task;            (* the items of the [asyncio.Queue], oldest first *)
  p_unfinished : nat;             (* [Queue._unfinished_tasks] *)
  p_workers : list worker_state;  (* the tasks made by [asyncio.create_task] *)
  p_main : main_state;
  p_total : nat;                  (* [progress.total] *)
  p_n : nat;                      (* [progress.n] *)
  p_done : list (Task * result unit)
    (* history: the coroutines that returned or raised, oldest first *)
}.

(** The state in which [crawl_box] leaves its loops: every task is in
    the queue, [progress] has been created with [total=queue.qsize()],
    and no worker exists yet. *)
Definition crawl_box_pool (w : world) (tasks : list Task) : pool :=
  {| p_world := w; p_queue := tasks; p_unfinished := length tasks;
     p_workers := []; p_main := MEnqueued;
     p_total := length tasks; p_n := 0; p_done := [] |}.

(** [if progress:] is tqdm's [__bool__]: [total > 0] when a total is set. *)
Definition progress_truthy (p : pool) : bool := bool_decide (0 < p_total p)%nat.

(** The [except] and [finally] clauses of [worker], run when the awaited
    coroutine has finished with [r]. *)
Definition worker_finish (i : nat) (task : Task) (r : result unit)
    (w : world) (p : pool) : pool :=
  let w :=
    match r with
    | Ok _ => w
    | Raise e => logging ERROR ("Error in task: " +:+ exc_msg e) w
    end in
  match p_unfinished p with
  | O =>
      (* [queue.task_done()] raises out of the [finally] clause *)
      {| p_world := w; p_queue := p_queue p; p_unfinished := O;
         p_workers :=
           <[i := WCrashed (PyExc ValueError "task_done() called too many times")]>
             (p_workers p);
         p_main := p_main p; p_total := p_total p; p_n := p_n p;
         p_done := p_done p ++ [(task, r)] |}
  | S unfinished =>
      {| p_world := w; p_queue := p_queue p; p_unfinished := unfinished;
         p_workers := <[i := WIdle]> (p_workers p);
         p_main := p_main p; p_total := p_total p;
         p_n := if progress_truthy p then S (p_n p) else p_n p;
         p_done := p_done p ++ [(task, r)] |}
  end.

(** [worker_task.cancel()]: a worker that is still waiting is cancelled,
    one that has already ended is left as it is. *)
Definition cancel (ws : worker_state) : worker_state :=
  match ws with
  | WCrashed e => WCrashed e
  | _ => WCancelled
  end.

(** What the event loop can do next. Taking a coroutine off the queue
    and resuming it are two turns here, where in the real loop a worker
    that takes a coroutine runs it to its first [await] at once and a
    worker whose coroutine has finished goes on to the next one. *)
Inductive action : Type :=
  | ASpawn            (* [crawl_box] creates the workers and reaches [queue.join()] *)
  | AGet (i : nat)    (* worker [i] takes the next coroutine off the queue *)
  | ARun (i : nat)    (* the coroutine awaited by worker [i] is resumed *)
  | AJoin.            (* [queue.join()] returns; the workers are cancelled *)

Definition pool_step (session : ClientSession) (num_workers : Z)
    (a : action) (p : pool) : option pool :=
  match a with
  | ASpawn =>
      match p_main p with
      | MEnqueued =>
          Some {| p_world := p_world p; p_queue := p_queue p;
                  p_unfinished := p_unfinished p;
                  p_workers := replicate (Z.to_nat num_workers) WIdle;
                  p_main := MJoin;
                  p_total := p_total p; p_n := p_n p; p_done := p_done p |}
      | _ => None
      end
  | AGet i =>
      match p_main p, p_workers p !! i, p_queue p with
      | MJoin, Some WIdle, task_coro :: queue =>
          Some {| p_world := p_world p; p_queue := queue;
                  p_unfinished := p_unfinished p;
                  p_workers := <[i := WRunning task_coro PhStart]> (p_workers p);
                  p_main := p_main p;
                  p_total := p_total p; p_n := p_n p; p_done := p_done p |}
      | _, _, _ => None
      end
  | ARun i =>
      match p_main p, p_workers p !! i with
      | MJoin, Some (WRunning task phase) =>
          match download_step session (task_source task) (task_target task)
                  phase (p_world p) with
          | (w, Suspended next) =>
              Some {| p_world := w; p_queue := p_queue p;
                      p_unfinished := p_unfinished p;
                      p_workers := <[i := WRunning task next]> (p_workers p);
                      p_main := p_main p;
                      p_total := p_total p; p_n := p_n p; p_done := p_done p |}
          | (w, Finished r) => Some (worker_finish i task r w p)
          end
      | _, _ => None
      end
  | AJoin =>
      match p_main p, p_unfinished p with
      | MJoin, O =>
          Some {| p_world := p_world p; p_queue := p_queue p;
                  p_unfinished := O;
                  p_workers := cancel <$> p_workers p;
                  p_main := MReturned;
                  p_total := p_total p; p_n := p_n p; p_done := p_done p |}
      | _, _ => None
      end
  end.

(** One turn of the event loop. *)
Definition step (session : ClientSession) (num_workers : Z) (p p' : pool) : Prop :=
  ∃ a, pool_step session num_workers a p = Some p'.

(** The states [crawl_box] can be in, from the end of its loops on. *)
Definition reachable (session : ClientSession) (num_workers : Z)
    (w : world) (tasks : list Task) (p : pool) : Prop :=
  rtc (step session num_workers) (crawl_box_pool w tasks) p.

(** The state after a schedule; an action that is not enabled is skipped. *)
Definition run_schedule (session : ClientSession) (num_workers : Z)
    (acts : list action) (p : pool) : pool :=
  foldl (λ p a, default p (pool_step session num_workers a p)) p acts.

(** The coroutines the workers are awaiting. *)
Definition worker_task (ws : worker_state) : option Task :=
  match ws with WRunning task _ => Some task | _ => None end.

Definition running (p : pool) : list Task := omap worker_task (p_workers p).

(** The workers that hold an HTTP connection (the request has been
    issued and the response not yet released) and those that hold the
    target file open. *)
Definition holds_connection (ws : worker_state) : bool :=
  match ws with
  | WRunning _ PhResponse | WRunning _ (PhBody _) => true
  | _ => false
  end.

Definition holds_file (ws : worker_state) : bool :=
  match ws with
  | WRunning _ (PhBody _) => true
  | _ => false
  end.

Definition open_connections (p : pool) : nat :=
  length (filter (λ ws, holds_connection ws = true) (p_workers p)).

Definition open_files (p : pool) : nat :=
  length (filter (λ ws, holds_file ws = true) (p_workers p)).

(** The number of tasks in flight: out of the queue and not finished. *)
Definition in_flight (tasks : list Task) (p : pool) : nat :=
  (length tasks - length (p_queue p) - length (p_done p))%nat.

(** ** The invariant of the pool and a measure of the work left *)

Definition crashed (ws : worker_state) : Prop :=
  match ws with WCrashed _ => True | _ => False end.

(** What holds of every state of a run over [tasks]. *)
Record pool_inv (num_workers : Z) (tasks : list Task) (p : pool) : Prop := {
  inv_tasks : tasks ≡ₚ (p_done p).*1 ++ running p ++ p_queue p;
  inv_unfinished : p_unfinished p = (length (running p) + length (p_queue p))%nat;
  inv_total : p_total p = length tasks;
  inv_n : p_n p = length (p_done p);
  inv_workers :
    length (p_workers p) =
      match p_main p with MEnqueued => O | _ => Z.to_nat num_workers end;
  inv_not_crashed : Forall (λ ws, ¬ crashed ws) (p_workers p);
  inv_alive :
    p_main p = MJoin → Forall (λ ws, ¬ crashed ws ∧ ws ≠ WCancelled) (p_workers p);
  inv_fifo : ∃ started, tasks = started ++ p_queue p;
  inv_enqueued : p_main p = MEnqueued → p_queue p = tasks ∧ p_done p = [];
  inv_returned : p_main p = MReturned → running p = [] ∧ p_queue p = []
}.

Definition phase_rank (phase : dl_phase) : nat :=
  match phase with PhStart => 3 | PhResponse => 2 | PhBody _ => 1 end.

Definition worker_rank (ws : worker_state) : nat :=
  match ws with WRunning _ phase => phase_rank phase | _ => 0 end.

Definition main_rank (m : main_state) : nat :=
  match m with MEnqueued => 2 | MJoin => 1 | MReturned => 0 end.

(** A bound on the number of turns left. *)
Definition pool_measure (p : pool) : nat :=
  main_rank (p_main p) + 4 * length (p_queue p)
  + sum_list (worker_rank <$> p_workers p).

(** ** What the properties of the templates and of the runs speak of *)

(** The characters that end or change the name of a replacement field
    for the scanner of [str.format]. *)
Definition scanner_char (c : ascii) : bool :=
  bool_decide (c = "{"%char) || bool_decide (c = "}"%char) ||
  bool_decide (c = "["%char) || bool_decide (c = ":"%char) ||
  bool_decide (c = "!"%char).

Fixpoint plain_name (s : string) : bool :=
  match s with
  | "" => true
  | String c rest => negb (scanner_char c) && plain_name rest
  end.






(** The tasks of the workers whose request has been issued. *)
Definition requested (ws : worker_state) : option Task :=
  match ws with
  | WRunning task PhResponse | WRunning task (PhBody _) => Some task
  | _ => None
  end.

(** What a run keeps true of its requests. *)
Definition requests_inv (w : world) (p : pool) : Prop :=
  ∃ issued answered,
    w_requests (p_world p) = w_requests w ++ (task_source <$> issued) ∧
    issued ≡ₚ answered ++ omap requested (p_workers p) ∧
    answered ⊆+ (p_done p).*1.

(** One turn of the loop of [worker] with nothing scheduled in between:
    the coroutine is awaited to its end and its exception, if any, is
    logged. *)
Definition await_task (session : ClientSession) (task : Task) (w : world)
  : world * result unit :=
  let '(w', r) := download_tile session (task_source task) (task_target task) w in
  (match r with
   | Ok _ => w'
   | Raise e => logging ERROR ("Error in task: " +:+ exc_msg e) w'
   end, r).

(** The tasks awaited one after the other, with their results. *)
Fixpoint run_in_order (session : ClientSession) (tasks : list Task) (w : world)
  : world * list (Task * result unit) :=
  match tasks with
  | [] => (w, [])
  | task :: tasks =>
      let '(w1, r) := await_task session task w in
      let '(w2, results) := run_in_order session tasks w1 in
      (w2, (task, r) :: results)
  end.

(** What a run with one worker keeps true. *)
Definition in_order_inv (session : ClientSession) (w : world)
    (tasks : list Task) (p : pool) : Prop :=
  ∃ w0, run_in_order session (p_done p).*1 w = (w0, p_done p) ∧
    match p_workers p with
    | [WRunning task phase] =>
        tasks = (p_done p).*1 ++ task :: p_queue p ∧
        run_coroutine (phase_rank phase) session (task_source task)
          (task_target task) phase (p_world p) =
        Some (download_tile session (task_source task) (task_target task) w0)
    | _ => tasks = (p_done p).*1 ++ p_queue p ∧ p_world p = w0
    end.

(** The states of a run of [crawl] that has found its corner tiles and
    filled the queue: those of [crawl_box] over that queue, with
    [args.parallel_tasks] workers. *)
Definition crawl_reachable `{PythonLib} (session : ClientSession)
    (args : CrawlerArgs) (w : world) (p : pool) : Prop :=
  ∃ tasks, crawl_tasks args = Ok tasks ∧
           reachable session (parallel_tasks args) w tasks p.

(** ** A concrete library for running examples

    A stand-in for [PythonLib], meant for URL templates of the form
    [scheme://host/path?query#fragment] without parameters: the path
    starts at the first slash after the host and stops before the first
    [?] or [#], and the suffix is the text from the last dot of the last
    path component on, provided that dot is neither its first nor its
    last character. *)

Fixpoint after_scheme (s : string) : option string :=
  match s with
  | "" => None
  | String ":" (String "/" (String "/" rest)) => Some rest
  | String _ rest => after_scheme rest
  end.

Fixpoint from_first_slash (s : string) : string :=
  match s with
  | "" => ""
  | String c rest => if bool_decide (c = "/"%char) then s else from_first_slash rest
  end.

Fixpoint before_query (s : string) : string :=
  match s with
  | "" => ""
  | String c rest =>
      if bool_decide (c = "?"%char) || bool_decide (c = "#"%char) then ""
      else String c (before_query rest)
  end.

Fixpoint last_component (p : string) : string :=
  match p with
  | "" => ""
  | String c rest =>
      if has_char "/" rest then last_component rest
      else if bool_decide (c = "/"%char) then rest else p
  end.

Fixpoint from_last_dot (s : string) : string :=
  match s with
  | "" => ""
  | String c rest =>
      match from_last_dot rest with
      | "" => if bool_decide (c = "."%char) then s else ""
      | t => t
      end
  end.

Definition example_suffix (p : string) : string :=
  match last_component p with
  | "" => ""
  | String _ rest =>
      let t := from_last_dot rest in
      if bool_decide (t = ".") then "" else t
  end.

Definition example_lib : PythonLib :=
  {| format_rich_field := λ _ _,
       Raise (PyExc ValueError "Invalid format specifier");
     urlparse_path := λ url,
       Ok (before_query
             match after_scheme url with
             | Some rest => from_first_slash rest
             | None => url
             end);
     path_suffix := example_suffix |}.

(** A world with an empty disk, a server that knows one tile only, and
    the two tasks of the rectangle from tile (0, 0) to tile (0, 1) at
    zoom 1. *)
Definition empty_world : world :=
  {| w_fs := {| fs_dirs := ∅; fs_files := ∅ |}; w_requests := []; w_log := [] |}.

Definition not_found : ClientSession := λ _, Response 404 (ReadOk []).

(** A server whose answer breaks off, and a network that is down. *)
Definition broken_body : ClientSession := λ _,
  Response 200 (ReadFails (PyExc ClientError "Response payload is not completed")).

Definition no_network : ClientSession := λ _,
  ConnectFails (PyExc ClientError "Cannot connect to host").

Definition example_session : ClientSession := λ url,
  if bool_decide (url = "https://example/1/0/0.png")
  then Response 200 (ReadOk (String.list_byte_of_string "PNGDATA"))
  else Response 404 (ReadOk []).

Definition example_tasks : list Task :=
  [ {| task_tile := mkTile 0 0 1;
       task_source := "https://example/1/0/0.png";
       task_target := "out/1/0/0.png" |};
    {| task_tile := mkTile 0 1 1;
       task_source := "https://example/1/0/1.png";
       task_target := "out/1/0/1.png" |} ].

(** A crawl along the equator from the west edge of the map to its east
    edge, at level 0. *)
Definition example_args : CrawlerArgs :=
  {| top_latitude := 0; top_longitude := -180;
     bottom_latitude := 0; bottom_longitude := 180;
     level := 0; url := "https://example/{z}/{x}/{y}.png";
     target_folder := "out"; parallel_tasks := 2 |}.

Definition example_crawl : list Task :=
  [ {| task_tile := mkTile 0 0 0;
       task_source := "https://example/0/0/0.png";
       task_target := "out/0/0/0.png" |};
    {| task_tile := mkTile 1 0 0;
       task_source := "https://example/0/1/0.png";
       task_target := "out/0/1/0.png" |} ].

Definition example_pool : pool := crawl_box_pool empty_world example_tasks.

(** A run of the example to its end: the first tile is written, the
    second fails with status 404. *)
Definition example_schedule : list action :=
  [ASpawn; AGet 0%nat; AGet 1%nat; ARun 0%nat; ARun 1%nat; ARun 1%nat;
   ARun 0%nat; ARun 0%nat; AJoin].

(** * Properties of the projection *)

Lemma py_int_of_nonneg (r : R) : (0 <= r)%R → py_int r = Int_part r.
Proof. intros H. unfold py_int. destruct (Rle_dec 0 r); [done|contradiction]. Qed.

Lemma Int_part_bounds (r : R) : (IZR (Int_part r) <= r < IZR (Int_part r) + 1)%R.
Proof. destruct (base_Int_part r). lra. Qed.

Lemma py_int_lower (r : R) : (-1 < r)%R → 0 ≤ py_int r.
Proof.
  intros H. unfold py_int. destruct (Rle_dec 0 r) as [Hr|Hr].
  - pose proof (Int_part_bounds r) as [_ Hb].
    assert (IZR (-1) < IZR (Int_part r))%R as Hlt%lt_IZR by lra.
    lia.
  - pose proof (Int_part_bounds (- r)) as [Hb _].
    assert (IZR (Int_part (- r)) < IZR 1)%R as Hlt%lt_IZR by lra. lia.
Qed.

Lemma py_int_upper_lt (r : R) (n : Z) : 0 < n → (r < IZR n)%R → py_int r < n.
Proof.
  intros Hn H. unfold py_int. destruct (Rle_dec 0 r) as [Hr|Hr].
  - pose proof (Int_part_bounds r) as [Hb _].
    apply lt_IZR. lra.
  - pose proof (Int_part_bounds (- r)) as [_ Hb].
    assert (IZR (-1) < IZR (Int_part (- r)))%R as Hlt%lt_IZR by lra. lia.
Qed.

Lemma py_int_IZR (n : Z) : py_int (IZR n) = n.
Proof.
  unfold py_int. destruct (Rle_dec 0 (IZR n)) as [Hr|Hr].
  - symmetry. apply Int_part_spec. lra.
  - rewrite <- opp_IZR. rewrite <- (Int_part_spec (IZR (- n)) (- n)); [lia|lra].
Qed.

Lemma py_int_mono (r s : R) : (r <= s)%R → py_int r ≤ py_int s.
Proof.
  intros H. unfold py_int.
  destruct (Rle_dec 0 r) as [Hr|Hr], (Rle_dec 0 s) as [Hs|Hs]; try lra.
  - pose proof (Int_part_bounds r) as [Hb _]. pose proof (Int_part_bounds s) as [_ Hb'].
    assert (IZR (Int_part r) < IZR (Int_part s + 1))%R as Hlt%lt_IZR by (rewrite plus_IZR; lra). lia.
  - pose proof (Int_part_bounds (-r)) as [_ Hb]. pose proof (Int_part_bounds s) as [_ Hb'].
    assert (IZR (-1) < IZR (Int_part (- r)))%R as Hlt%lt_IZR by lra.
    assert (IZR (-1) < IZR (Int_part s))%R as Hlt'%lt_IZR by lra. lia.
  - pose proof (Int_part_bounds (-r)) as [_ Hb]. pose proof (Int_part_bounds (-s)) as [Hb' _].
    assert (IZR (Int_part (- s)) < IZR (Int_part (- r) + 1))%R as Hlt%lt_IZR by (rewrite plus_IZR; lra). lia.
Qed.

Lemma pow2_below_overflow (level : Z) :
  0 ≤ level < 1024 → Z.abs (2 ^ level) < float_overflow_bound.
Proof.
  intros [H0 H1]. rewrite Z.abs_eq by (apply Z.pow_nonneg; lia).
  apply Z.le_lt_trans with (2 ^ 1023).
  - apply Z.pow_le_mono_r; lia.
  - unfold float_overflow_bound. vm_compute. reflexivity.
Qed.

Lemma to_float_pow2 (level : Z) :
  0 ≤ level < 1024 → py_pow 2 level ≫= to_float = Ok (IZR (2 ^ level)).
Proof.
  intros H. unfold py_pow. destruct (decide (0 ≤ level)); [|lia].
  simpl. unfold int_to_float.
  destruct (decide (Z.abs (2 ^ level) < float_overflow_bound)) as [|Hn]; [done|].
  exfalso. apply Hn. by apply pow2_below_overflow.
Qed.

Lemma to_float_pow2_overflow (level : Z) :
  1024 ≤ level → raises (py_pow 2 level ≫= to_float) OverflowError.
Proof.
  intros H. unfold py_pow. destruct (decide (0 ≤ level)); [|lia].
  simpl. unfold int_to_float.
  destruct (decide (Z.abs (2 ^ level) < float_overflow_bound)) as [Hn|Hn]; [|by eexists].
  exfalso. rewrite Z.abs_eq in Hn by (apply Z.pow_nonneg; lia).
  assert (2 ^ 1024 ≤ 2 ^ level) by (apply Z.pow_le_mono_r; lia).
  unfold float_overflow_bound in Hn.
  assert (0 < 2 ^ 970) by (apply Z.pow_pos_nonneg; lia). lia.
Qed.

Lemma powerRZ_2_nonneg (level : Z) : 0 ≤ level → powerRZ 2 level = IZR (2 ^ level).
Proof.
  intros H. rewrite <- (Z2Nat.id level) at 1 by done.
  rewrite <- pow_powerRZ, pow_IZR. by rewrite Z2Nat.id.
Qed.

Lemma float_overflow_bound_large : 2 ^ 1023 < float_overflow_bound.
Proof. vm_compute. reflexivity. Qed.

Lemma to_float_pow2_any (level : Z) :
  - float_overflow_bound < level < 1024 →
  py_pow 2 level ≫= to_float = Ok (powerRZ 2 level).
Proof.
  intros H. destruct (decide (0 ≤ level)) as [H0|H0].
  - rewrite to_float_pow2, powerRZ_2_nonneg by lia. done.
  - pose proof float_overflow_bound_large as Hb.
    assert (0 < 2 ^ 1023) by (by apply Z.pow_pos_nonneg).
    unfold py_pow, int_to_float. destruct (decide (0 ≤ level)); [done|].
    rewrite (decide_True (P := Z.abs 2 < float_overflow_bound)) by lia.
    rewrite (decide_True (P := Z.abs level < float_overflow_bound)) by lia.
    done.
Qed.

(** An exponent below the doubles: [2 ** level] raises. *)
Lemma to_float_pow2_underflow (level : Z) :
  level ≤ - float_overflow_bound → raises (py_pow 2 level ≫= to_float) OverflowError.
Proof.
  intros H. pose proof float_overflow_bound_large as Hb.
  assert (0 < 2 ^ 1023) by (by apply Z.pow_pos_nonneg).
  unfold py_pow, int_to_float. destruct (decide (0 ≤ level)); [lia|].
  rewrite (decide_True (P := Z.abs 2 < float_overflow_bound)) by lia.
  rewrite (decide_False (P := Z.abs level < float_overflow_bound)) by lia.
  by eexists.
Qed.

(** The levels from -1024 on are far within the exponents that convert. *)
Lemma level_above_underflow (level : Z) :
  -1024 ≤ level → - float_overflow_bound < level.
Proof.
  pose proof float_overflow_bound_large.
  assert (1024 < 2 ^ 1023) by (vm_compute; reflexivity). lia.
Qed.

Ltac level_ok := split; [apply level_above_underflow; lia|lia].

Lemma find_tile_regular (latitude longitude : R) (level : Z) :
  - float_overflow_bound < level < 1024 →
  (-1 < sin (latitude * PI / 180) < 1)%R →
  find_tile latitude longitude level =
    Ok {| x := py_int ((longitude + 180) / 360 * powerRZ 2 level);
          y := py_int (mercator (sin (latitude * PI / 180)) * powerRZ 2 level);
          z := level |}.
Proof.
  intros Hl Hs. unfold find_tile. rewrite to_float_pow2_any by done. simpl.
  unfold float_div. destruct (Req_dec_T _ 0) as [E|_]; [lra|]. simpl.
  unfold math_log. destruct (Rle_dec _ 0) as [E|_].
  { exfalso. apply (Rlt_irrefl 0). eapply Rlt_le_trans; [|exact E].
    apply Rdiv_lt_0_compat; lra. }
  simpl. do 2 f_equal; unfold tile_size, mercator; f_equal; field.
  apply PI_neq0.
Qed.

Lemma sin_latitude_interior (latitude : R) :
  (-90 < latitude < 90)%R → (-1 < sin (latitude * PI / 180) < 1)%R.
Proof.
  intros [Hlo Hhi]. pose proof PI_RGT_0 as Hpi.
  assert (- (PI / 2) < latitude * PI / 180 < PI / 2)%R as [Ha Hb].
  { split.
    - replace (- (PI / 2))%R with ((-90) * PI / 180)%R by field. nra.
    - replace (PI / 2)%R with (90 * PI / 180)%R by field. nra. }
  split.
  - replace (-1)%R with (sin (- (PI / 2))) by (rewrite sin_neg, sin_PI2; lra).
    apply sin_increasing_1; lra.
  - rewrite <- sin_PI2. apply sin_increasing_1; lra.
Qed.

Lemma sin_latitude_north_pole : sin (90 * PI / 180) = 1%R.
Proof. replace (90 * PI / 180)%R with (PI / 2)%R by field. apply sin_PI2. Qed.

Lemma sin_latitude_south_pole : sin (-90 * PI / 180) = (-1)%R.
Proof.
  replace (-90 * PI / 180)%R with (- (PI / 2))%R by field.
  rewrite sin_neg, sin_PI2. lra.
Qed.

Lemma find_tile_north_pole (longitude : R) (level : Z) :
  - float_overflow_bound < level < 1024 →
  find_tile 90 longitude level =
    Raise (PyExc ZeroDivisionError "float division by zero").
Proof.
  intros Hl. unfold find_tile. rewrite to_float_pow2_any by done. simpl.
  rewrite sin_latitude_north_pole. unfold float_div.
  destruct (Req_dec_T _ 0) as [_|E]; [done|]. exfalso. apply E. lra.
Qed.

Lemma find_tile_south_pole (longitude : R) (level : Z) :
  - float_overflow_bound < level < 1024 →
  find_tile (-90) longitude level =
    Raise (PyExc ValueError "math domain error").
Proof.
  intros Hl. unfold find_tile. rewrite to_float_pow2_any by done. simpl.
  rewrite sin_latitude_south_pole. unfold float_div.
  destruct (Req_dec_T _ 0) as [E|_]; [lra|]. simpl.
  unfold math_log. destruct (Rle_dec _ 0) as [_|E]; [done|].
  exfalso. apply E. replace (1 + -1)%R with 0%R by lra. unfold Rdiv. lra.
Qed.

Lemma find_tile_level_overflow (latitude longitude : R) (level : Z) :
  1024 ≤ level → raises (find_tile latitude longitude level) OverflowError.
Proof.
  intros Hl. unfold find_tile.
  destruct (to_float_pow2_overflow level Hl) as [msg ->]. by eexists.
Qed.

Lemma find_tile_level_underflow (latitude longitude : R) (level : Z) :
  level ≤ - float_overflow_bound →
  raises (find_tile latitude longitude level) OverflowError.
Proof.
  intros Hl. unfold find_tile.
  destruct (to_float_pow2_underflow level Hl) as [msg ->]. by eexists.
Qed.

Lemma mercator_unit_interval (s : R) :
  (-1 < s < 1)%R →
  (exp (- (2 * PI)) < (1 + s) / (1 - s) <= exp (2 * PI))%R →
  (0 <= mercator s < 1)%R.
Proof.
  intros Hs [Hlo Hhi]. pose proof PI_RGT_0 as Hpi.
  assert (0 < (1 + s) / (1 - s))%R as Hpos by (apply Rdiv_lt_0_compat; lra).
  assert (- (2 * PI) < ln ((1 + s) / (1 - s)))%R as Hl1.
  { rewrite <- (ln_exp (- (2 * PI))). apply ln_increasing; [apply exp_pos|done]. }
  assert (ln ((1 + s) / (1 - s)) <= 2 * PI)%R as Hl2.
  { destruct Hhi as [Hhi|Hhi].
    - left. rewrite <- (ln_exp (2 * PI)). by apply ln_increasing.
    - right. rewrite Hhi. apply ln_exp. }
  unfold mercator. set (L := ln _) in *.
  assert (0 < / (4 * PI))%R as Hinv by (apply Rinv_0_lt_compat; lra).
  assert (L / (4 * PI) <= 1 / 2)%R.
  { replace (1 / 2)%R with (2 * PI * / (4 * PI))%R by (field; lra).
    unfold Rdiv. apply Rmult_le_compat_r; lra. }
  assert (- (1 / 2) < L / (4 * PI))%R.
  { replace (- (1 / 2))%R with (- (2 * PI) * / (4 * PI))%R by (field; lra).
    unfold Rdiv. apply Rmult_lt_compat_r; lra. }
  lra.
Qed.

Lemma find_tile_x_range (longitude : R) (level : Z) :
  0 ≤ level → (-180 <= longitude <= 180)%R →
  let px := py_int ((longitude + 180) / 360 * powerRZ 2 level) in
  0 ≤ px ≤ 2 ^ level ∧
  ((longitude < 180)%R → px < 2 ^ level) ∧
  (longitude = 180%R → px = 2 ^ level).
Proof.
  intros Hl [Hlo Hhi] px. subst px. rewrite powerRZ_2_nonneg by done.
  assert (0 < 2 ^ level) as Hpos by (apply Z.pow_pos_nonneg; lia).
  assert (0 < IZR (2 ^ level))%R as HposR by (by apply IZR_lt).
  split_and!.
  - apply py_int_lower. nra.
  - rewrite <- (py_int_IZR (2 ^ level)) at 2. apply py_int_mono. nra.
  - intros Hlt. apply py_int_upper_lt; [done|]. nra.
  - intros ->. rewrite <- (py_int_IZR (2 ^ level)) at 2. f_equal. field.
Qed.


(** ** The latitudes up to 85 degrees

    The square map ends where the Mercator ratio reaches [exp (2 PI)],
    at about 85.0511 degrees. Up to 85 degrees the ratio stays below 526,
    short of that bound by two per cent. *)

Lemma PI_lower_bound : (314 / 100 < PI)%R.
Proof.
  pose proof (PI_2_3_7_ineq 1) as [Hlo _].
  unfold PI_2_3_7_tg, tg_alt, Ratan_seq in Hlo. simpl in Hlo. lra.
Qed.

Lemma exp_square_lower (c y : R) :
  (0 <= c)%R → (c <= exp y)%R → (c * c <= exp (y + y))%R.
Proof.
  intros Hc Hy. rewrite exp_plus. apply Rmult_le_compat; lra.
Qed.
Lemma exp_628_bound : (526 < exp (628 / 100))%R.
Proof.
  assert (102557 / 102400 <= exp (157 / 102400))%R as H0.
  { left. pose proof (exp_ineq1 (157 / 102400)). lra. }
  assert (1003068756961 / 1000000000000 <= exp (157 / 51200))%R as H1.
  { replace (157 / 51200)%R with (157 / 102400 + 157 / 102400)%R by lra.
    eapply Rle_trans; [|apply (exp_square_lower (102557 / 102400)); [lra|exact H0]]. lra. }
  clear H0.
  assert (1006146931191 / 1000000000000 <= exp (157 / 25600))%R as H2.
  { replace (157 / 25600)%R with (157 / 51200 + 157 / 51200)%R by lra.
    eapply Rle_trans; [|apply (exp_square_lower (1003068756961 / 1000000000000)); [lra|exact H1]]. lra. }
  clear H1.
  assert (202466329429 / 200000000000 <= exp (157 / 12800))%R as H3.
  { replace (157 / 12800)%R with (157 / 25600 + 157 / 25600)%R by lra.
    eapply Rle_trans; [|apply (exp_square_lower (1006146931191 / 1000000000000)); [lra|exact H2]]. lra. }
  clear H2.
  assert (1024815363811 / 1000000000000 <= exp (157 / 6400))%R as H4.
  { replace (157 / 6400)%R with (157 / 12800 + 157 / 12800)%R by lra.
    eapply Rle_trans; [|apply (exp_square_lower (202466329429 / 200000000000)); [lra|exact H3]]. lra. }
  clear H3.
  assert (1050246529903 / 1000000000000 <= exp (157 / 3200))%R as H5.
  { replace (157 / 3200)%R with (157 / 6400 + 157 / 6400)%R by lra.
    eapply Rle_trans; [|apply (exp_square_lower (1024815363811 / 1000000000000)); [lra|exact H4]]. lra. }
  clear H4.
  assert (1103017773573 / 1000000000000 <= exp (157 / 1600))%R as H6.
  { replace (157 / 1600)%R with (157 / 3200 + 157 / 3200)%R by lra.
    eapply Rle_trans; [|apply (exp_square_lower (1050246529903 / 1000000000000)); [lra|exact H5]]. lra. }
  clear H5.
  assert (1216648208817 / 1000000000000 <= exp (157 / 800))%R as H7.
  { replace (157 / 800)%R with (157 / 1600 + 157 / 1600)%R by lra.
    eapply Rle_trans; [|apply (exp_square_lower (1103017773573 / 1000000000000)); [lra|exact H6]]. lra. }
  clear H6.
  assert (1480232864017 / 1000000000000 <= exp (157 / 400))%R as H8.
  { replace (157 / 400)%R with (157 / 800 + 157 / 800)%R by lra.
    eapply Rle_trans; [|apply (exp_square_lower (1216648208817 / 1000000000000)); [lra|exact H7]]. lra. }
  clear H7.
  assert (438217866343 / 200000000000 <= exp (157 / 200))%R as H9.
  { replace (157 / 200)%R with (157 / 400 + 157 / 400)%R by lra.
    eapply Rle_trans; [|apply (exp_square_lower (1480232864017 / 1000000000000)); [lra|exact H8]]. lra. }
  clear H8.
  assert (960174491911 / 200000000000 <= exp (157 / 100))%R as H10.
  { replace (157 / 100)%R with (157 / 200 + 157 / 200)%R by lra.
    eapply Rle_trans; [|apply (exp_square_lower (438217866343 / 200000000000)); [lra|exact H9]]. lra. }
  clear H9.
  assert (23048376372913 / 1000000000000 <= exp (157 / 50))%R as H11.
  { replace (157 / 50)%R with (157 / 100 + 157 / 100)%R by lra.
    eapply Rle_trans; [|apply (exp_square_lower (960174491911 / 200000000000)); [lra|exact H10]]. lra. }
  clear H10.
  assert (265613826713727 / 500000000000 <= exp (157 / 25))%R as H12.
  { replace (157 / 25)%R with (157 / 50 + 157 / 50)%R by lra.
    eapply Rle_trans; [|apply (exp_square_lower (23048376372913 / 1000000000000)); [lra|exact H11]]. lra. }
  clear H11.
  replace (628 / 100)%R with (157 / 25)%R by lra. lra.
Qed.

(** [1 - cos (PI / 36)], five degrees, from below. *)
Lemma cos_5_degrees : (cos (PI / 36) <= 1 - 3797 / 1000000)%R.
Proof.
  pose proof PI_lower_bound as Hlo. pose proof PI_4 as Hhi.
  destruct (cos_bound (PI / 36) 0) as [_ Hub]; [lra|lra|].
  unfold cos_approx, cos_term in Hub. simpl in Hub.
  set (a := (PI / 36)%R) in *.
  assert (314 / 3600 < a <= 4 / 36)%R as [Ha1 Ha2] by (unfold a; lra).
  assert ((314 / 3600) * (314 / 3600) <= a * a)%R by (apply Rmult_le_compat; lra).
  assert (a * a <= (4 / 36) * (4 / 36))%R by (apply Rmult_le_compat; lra).
  assert (0 <= a * a)%R by nra.
  assert ((a * a) * (a * a) <= (4 / 36) * (4 / 36) * ((4 / 36) * (4 / 36)))%R
    by (apply Rmult_le_compat; lra).
  lra.
Qed.

(** Up to 85 degrees either side of the equator the Mercator ratio stays
    within the band that the square map covers. *)
Lemma mercator_band_85 (latitude : R) :
  (-85 <= latitude <= 85)%R →
  (let s := sin (latitude * PI / 180) in
   exp (- (2 * PI)) < (1 + s) / (1 - s) <= exp (2 * PI))%R.
Proof.
  intros [Hlo Hhi]. pose proof PI_RGT_0 as Hpi. pose proof cos_5_degrees as Hcos.
  pose proof PI_lower_bound as Hpi314. cbv zeta.
  set (s := sin (latitude * PI / 180)).
  assert (s <= cos (PI / 36))%R as Hs1.
  { rewrite <- sin_shift. unfold s. apply sin_incr_1; nra. }
  assert (- cos (PI / 36) <= s)%R as Hs2.
  { rewrite <- sin_shift, <- sin_neg. unfold s. apply sin_incr_1; nra. }
  assert (526 < exp (2 * PI))%R as Hexp.
  { eapply Rlt_le_trans; [apply exp_628_bound|]. left. apply exp_increasing. lra. }
  assert (0 < 1 - s)%R as Hpos by lra.
  assert (0 < / (1 - s))%R as Hinv by (by apply Rinv_0_lt_compat).
  split.
  - rewrite exp_Ropp.
    apply Rlt_le_trans with (/ 526)%R.
    + apply Rinv_lt_contravar; [|done]. pose proof (exp_pos (2 * PI)). nra.
    + assert ((1 + s) / (1 - s) - / 526 = (527 * s + 525) / 526 * / (1 - s))%R as Heq
        by (field; lra).
      assert (0 <= (527 * s + 525) / 526 * / (1 - s))%R
        by (apply Rmult_le_pos; lra).
      lra.
  - left. apply Rle_lt_trans with 526%R; [|done].
    assert (526 - (1 + s) / (1 - s) = (525 - 527 * s) * / (1 - s))%R as Heq
      by (field; lra).
    assert (0 <= (525 - 527 * s) * / (1 - s))%R by (apply Rmult_le_pos; lra).
    lra.
Qed.


Lemma find_tile_equator (longitude : R) (level : Z) :
  - float_overflow_bound < level < 1024 →
  find_tile 0 longitude level =
    Ok {| x := py_int ((longitude + 180) / 360 * powerRZ 2 level);
          y := py_int (/ 2 * powerRZ 2 level);
          z := level |}.
Proof.
  intros Hl. rewrite find_tile_regular; [|done|].
  - replace (0 * PI / 180)%R with 0%R by (unfold Rdiv; lra). rewrite sin_0.
    unfold mercator. replace ((1 + 0) / (1 - 0))%R with 1%R by field.
    rewrite ln_1. replace (0.5 - 0 / (4 * PI))%R with (/ 2)%R; [done|].
    unfold Rdiv. rewrite Rmult_0_l. lra.
  - apply sin_latitude_interior. lra.
Qed.

Lemma py_int_half : py_int (/ 2 * powerRZ 2 0) = 0.
Proof.
  simpl. rewrite py_int_of_nonneg by lra. symmetry. apply Int_part_spec. lra.
Qed.

Lemma find_tile_origin : find_tile 0 0 0 = Ok {| x := 0; y := 0; z := 0 |}.
Proof.
  rewrite find_tile_equator by level_ok. rewrite py_int_half. do 2 f_equal.
  simpl. rewrite py_int_of_nonneg by lra. symmetry. apply Int_part_spec. lra.
Qed.

Lemma find_tile_antimeridian : find_tile 0 180 0 = Ok {| x := 1; y := 0; z := 0 |}.
Proof.
  rewrite find_tile_equator by level_ok. rewrite py_int_half. do 2 f_equal.
  rewrite <- (py_int_IZR 1). f_equal. simpl. lra.
Qed.



(** The same in binary64, where every operation of the column is exact
    at longitude 180. *)
Lemma b64_column_antimeridian :
  b64_column 180 0 = Some 1 ∧ b64_column 180 10 = Some (2 ^ 10).
Proof. split; vm_compute; reflexivity. Qed.

(** In binary64 the sum [longitude + 180] rounds to 360 already for the
    double just below 180, so that the column reaches [2 ^ level] there
    too, where the real-number model gives [2 ^ level - 1]. *)
Lemma b64_column_below_antimeridian :
  (next_down 180 <? 180)%float = true ∧
  b64_column (next_down 180) 0 = Some 1.
Proof. split; vm_compute; reflexivity. Qed.

(** From level 1016 on the product [pixel_x] is an infinity at longitude
    180 and [int()] raises; below, it is finite. *)
Lemma b64_column_overflow :
  b64_column 180 1016 = None ∧ b64_column 180 1015 = Some (2 ^ 1015).
Proof. split; vm_compute; reflexivity. Qed.

Lemma b64_column_origin : b64_column 0 0 = Some 0 ∧ b64_column (-180) 5 = Some 0.
Proof. split; vm_compute; reflexivity. Qed.

Lemma near_pole_latitude_valid : (-90 < near_pole_latitude < 90)%R.
Proof.
  unfold near_pole_latitude. pose proof PI_RGT_0 as Hpi.
  destruct (asin_bound_lt (9999 / 10000)) as [Ha Hb]; [lra|].
  assert (0 < / PI)%R as Hinv by (by apply Rinv_0_lt_compat).
  split.
  - replace (-90)%R with (- (PI / 2) * 180 / PI)%R by (field; lra).
    unfold Rdiv. apply Rmult_lt_compat_r; [done|]. lra.
  - replace 90%R with (PI / 2 * 180 / PI)%R by (field; lra).
    unfold Rdiv. apply Rmult_lt_compat_r; [done|]. lra.
Qed.

Lemma near_pole_sin : sin (near_pole_latitude * PI / 180) = (9999 / 10000)%R.
Proof.
  unfold near_pole_latitude.
  replace (asin (9999 / 10000) * 180 / PI * PI / 180)%R
    with (asin (9999 / 10000)) by (field; apply PI_neq0).
  apply sin_asin. lra.
Qed.

Lemma exp_9_bound : (exp 9 < 19999)%R.
Proof.
  pose proof exp_le_3 as H3. pose proof (exp_pos 1) as H0.
  assert (exp 3 <= 27)%R as H27.
  { replace 3%R with (1 + 1 + 1)%R by lra. rewrite !exp_plus. nra. }
  pose proof (exp_pos 3) as H03.
  replace 9%R with (3 + 3 + 3)%R by lra. rewrite !exp_plus.
  assert (exp 3 * exp 3 <= 729)%R by nra.
  assert (0 < exp 3 * exp 3)%R by nra. nra.
Qed.

Lemma near_pole_mercator : (mercator (9999 / 10000) * powerRZ 2 4 <= -1)%R.
Proof.
  pose proof PI_RGT_0 as Hpi. pose proof PI_4 as Hpi4.
  assert (9 < ln ((1 + 9999 / 10000) / (1 - 9999 / 10000)))%R as HL.
  { rewrite <- (ln_exp 9) at 1. apply ln_increasing; [apply exp_pos|].
    replace ((1 + 9999 / 10000) / (1 - 9999 / 10000))%R with 19999%R by field.
    apply exp_9_bound. }
  unfold mercator. set (L := ln _) in *.
  assert (9 / 16 <= L / (4 * PI))%R as Hq.
  { assert (0 < / (4 * PI))%R as Hinv by (apply Rinv_0_lt_compat; lra).
    assert (/ 16 <= / (4 * PI))%R by (apply Rinv_le_contravar; lra).
    unfold Rdiv. nra. }
  simpl. lra.
Qed.

(** Short of the pole the row index leaves the range: no clamping. *)
Lemma find_tile_near_pole_row_negative :
  ∃ t, find_tile near_pole_latitude 0 4 = Ok t ∧ y t < 0.
Proof.
  eexists. split.
  - apply find_tile_regular; [level_ok|]. rewrite near_pole_sin. lra.
  - simpl. rewrite near_pole_sin.
    apply Z.le_lt_trans with (py_int (IZR (-1))); [|rewrite py_int_IZR; lia].
    apply py_int_mono, near_pole_mercator.
Qed.

Lemma find_tile_beyond_south_pole :
  raises (find_tile 270 0 0) ValueError.
Proof.
  unfold find_tile. rewrite to_float_pow2_any by level_ok. simpl.
  replace (270 * PI / 180)%R with (3 * (PI / 2))%R by field.
  rewrite sin_3PI2. unfold float_div.
  destruct (Req_dec_T _ 0) as [E|_]; [lra|]. simpl.
  unfold math_log. destruct (Rle_dec _ 0) as [_|E]; [by eexists|].
  exfalso. apply E. replace (1 + -1)%R with 0%R by lra. unfold Rdiv. lra.
Qed.

(** C2, as the code has it: at latitude 90 [find_tile] raises
    [ZeroDivisionError] and at latitude -90 it raises [ValueError] (the
    domain error of [math.log]), for every longitude and every level that
    [2 ** level] accepts, which is one below 1024 and above the negative
    exponents too large for a double; no tile is returned. For a
    latitude in [[-89, 89]], a longitude in [[-180, 180]] and such a
    level below 1014, it returns a tile: up to 89 degrees the sine is
    away from 1 and -1 by more than the rounding of [math.sin], and up
    to level 1014 the pixel products stay within the range of a
    double. *)
Theorem find_tile_pole_raises (longitude : R) (level : Z) :
  - float_overflow_bound < level < 1024 →
  raises (find_tile 90 longitude level) ZeroDivisionError ∧
  raises (find_tile (-90) longitude level) ValueError ∧
  ∀ latitude,
    (-89 <= latitude <= 89)%R →
    (-180 <= longitude <= 180)%R → level < 1014 →
    returns (find_tile latitude longitude level).
Proof.
  intros Hl. split; [|split].
  - eexists. by apply find_tile_north_pole.
  - eexists. by apply find_tile_south_pole.
  - intros latitude Hlat _ _. eexists. apply find_tile_regular; [done|].
    apply sin_latitude_interior. lra.
Qed.

Lemma find_tile_pole_raises_witness :
  raises (find_tile 90 0 0) ZeroDivisionError ∧
  raises (find_tile (-90) 0 0) ValueError ∧
  returns (find_tile 0 0 0).
Proof.
  destruct (find_tile_pole_raises 0 0) as (H1 & H2 & H3); [level_ok|].
  split; [exact H1|]. split; [exact H2|].
  apply H3; [lra|lra|lia].
Defined.

(** At the pole the division raises: no tile, no infinity, no NaN. *)
Lemma find_tile_north_pole_crashes :
  raises (find_tile 90 0 0) ZeroDivisionError ∧ ¬ returns (find_tile 90 0 0).
Proof.
  rewrite find_tile_north_pole by level_ok. split; [by eexists|].
  intros [t Ht]. discriminate Ht.
Qed.

(** * The tile rectangle *)

Lemma length_py_range (a b : Z) : length (py_range a b) = Z.to_nat (b - a).
Proof. unfold py_range. by rewrite length_seqZ. Qed.

Lemma elem_of_py_range (a b i : Z) : i ∈ py_range a b ↔ a ≤ i < b.
Proof. unfold py_range. rewrite elem_of_seqZ. lia. Qed.

Lemma NoDup_py_range (a b : Z) : NoDup (py_range a b).
Proof. apply NoDup_seqZ. Qed.

Lemma elem_of_box_tiles (bb : Tile * Tile) (t : Tile) :
  t ∈ box_tiles bb ↔
    x bb.1 ≤ x t ≤ x bb.2 ∧ y bb.1 ≤ y t ≤ y bb.2 ∧ z t = z bb.1.
Proof.
  unfold box_tiles. rewrite list_elem_of_bind. split.
  - intros (tx & Hy & Hx). apply list_elem_of_bind in Hy as (ty & Ht & Hy).
    apply list_elem_of_singleton in Ht as ->. simpl.
    apply elem_of_py_range in Hx, Hy. lia.
  - intros (Hx & Hy & Hz). exists (x t). split; [|apply elem_of_py_range; lia].
    apply list_elem_of_bind. exists (y t). split; [|apply elem_of_py_range; lia].
    apply list_elem_of_singleton. destruct t; simpl in *. by subst.
Qed.

Lemma length_row (ys : list Z) (tx tz : Z) :
  length (ys ≫= λ ty, [ {| x := tx; y := ty; z := tz |} ]) = length ys.
Proof. induction ys as [|ty ys IH]; [done|]. rewrite bind_cons. simpl. by rewrite IH. Qed.

Lemma length_box_tiles (bb : Tile * Tile) :
  length (box_tiles bb) =
    (Z.to_nat (x bb.2 + 1 - x bb.1) * Z.to_nat (y bb.2 + 1 - y bb.1))%nat.
Proof.
  unfold box_tiles. rewrite <- (length_py_range (x bb.1)).
  generalize (py_range (x bb.1) (x bb.2 + 1)) as xs.
  induction xs as [|tx xs IH]; [done|].
  rewrite bind_cons, length_app, IH, length_row, length_py_range. done.
Qed.

Lemma NoDup_box_tiles (bb : Tile * Tile) : NoDup (box_tiles bb).
Proof.
  unfold box_tiles. apply NoDup_bind; [| |apply NoDup_py_range].
  - intros tx1 tx2 t _ _ H1 H2.
    apply list_elem_of_bind in H1 as (ty1 & ->%list_elem_of_singleton & _).
    apply list_elem_of_bind in H2 as (ty2 & [=]%list_elem_of_singleton & _). done.
  - intros tx _. apply NoDup_bind; [| |apply NoDup_py_range].
    + intros ty1 ty2 t _ _ ->%list_elem_of_singleton [=]%list_elem_of_singleton. done.
    + intros ty _. apply NoDup_singleton.
Qed.

Lemma box_tiles_empty (corner1 corner2 : Tile) :
  x corner2 < x corner1 ∨ y corner2 < y corner1 →
  box_tiles (corner1, corner2) = [].
Proof.
  intros Hlt. apply length_zero_iff_nil. rewrite length_box_tiles. simpl.
  destruct Hlt; [rewrite (Z2Nat.nonpos (x corner2 + 1 - x corner1))
                |rewrite (Z2Nat.nonpos (y corner2 + 1 - y corner1))]; lia.
Qed.

(** C3, as the code has it: the loops of [crawl_box] visit no tile twice;
    for corners in order, [x1 <= x2] and [y1 <= y2], they visit exactly
    [(|x2 - x1| + 1) * (|y2 - y1| + 1)] tiles, and identical corners give
    that one tile; for corners out of order, [x1 > x2] or [y1 > y2], they
    visit no tile at all. *)
Theorem box_tiles_count (corner1 corner2 : Tile) :
  NoDup (box_tiles (corner1, corner2)) ∧
  (x corner1 ≤ x corner2 → y corner1 ≤ y corner2 →
   Z.of_nat (length (box_tiles (corner1, corner2))) =
     (Z.abs (x corner2 - x corner1) + 1) * (Z.abs (y corner2 - y corner1) + 1)) ∧
  (corner1 = corner2 → box_tiles (corner1, corner2) = [corner1]) ∧
  (x corner2 < x corner1 ∨ y corner2 < y corner1 →
   box_tiles (corner1, corner2) = []).
Proof.
  split; [apply NoDup_box_tiles|]. split; [|split].
  - intros Hx Hy. rewrite length_box_tiles. simpl. lia.
  - intros <-. unfold box_tiles, py_range. simpl.
    replace (x corner1 + 1 - x corner1) with 1 by lia.
    replace (y corner1 + 1 - y corner1) with 1 by lia.
    destruct corner1; reflexivity.
  - apply box_tiles_empty.
Qed.

Lemma box_tiles_count_witness :
  Z.of_nat (length (box_tiles (mkTile 2 3 4, mkTile 4 4 4))) =
    (Z.abs (4 - 2) + 1) * (Z.abs (4 - 3) + 1) ∧
  box_tiles (mkTile 7 7 4, mkTile 7 7 4) = [mkTile 7 7 4] ∧
  box_tiles (mkTile 4 3 4, mkTile 2 4 4) = [].
Proof.
  split; [|split].
  - apply (box_tiles_count (mkTile 2 3 4) (mkTile 4 4 4)); simpl; lia.
  - apply (box_tiles_count (mkTile 7 7 4) (mkTile 7 7 4)). reflexivity.
  - apply (box_tiles_count (mkTile 4 3 4) (mkTile 2 4 4)). simpl. lia.
Defined.

Example box_tiles_order :
  box_tiles (mkTile 2 3 4, mkTile 3 4 4) =
    [mkTile 2 3 4; mkTile 2 4 4; mkTile 3 3 4; mkTile 3 4 4].
Proof. reflexivity. Qed.

(** Corners given the other way round: the loops do not run, where the
    formula counts two tiles. *)
Lemma box_tiles_reversed_corners_empty :
  box_tiles (mkTile 1 0 0, mkTile 0 0 0) = [] ∧
  Z.of_nat (length (box_tiles (mkTile 1 0 0, mkTile 0 0 0))) ≠
    (Z.abs (0 - 1) + 1) * (Z.abs (0 - 0) + 1).
Proof. split; [reflexivity|]. vm_compute. discriminate. Qed.

(** * Tasks and target paths *)

Lemma string_app_nil_r (s : string) : s +:+ "" = s.
Proof.
  induction s as [|c s IH]; [done|].
  change (String c (s +:+ "") = String c s). by rewrite IH.
Qed.

Lemma string_app_assoc (s1 s2 s3 : string) : (s1 +:+ s2) +:+ s3 = s1 +:+ s2 +:+ s3.
Proof.
  induction s1 as [|c s1 IH]; [done|].
  change (String c ((s1 +:+ s2) +:+ s3) = String c (s1 +:+ s2 +:+ s3)).
  by rewrite IH.
Qed.

Section tasks.
Context `{PythonLib}.

Lemma replace_path_template (tile : Tile) :
  replace_path_tile path_template tile =
    Ok (py_str (z tile) +:+ "/" +:+ py_str (x tile) +:+ "/" +:+ py_str (y tile)).
Proof.
  unfold replace_path_tile, path_template. cbn.
  change (format_field "z" tile) with (Ok (A:=string) (py_str (z tile))).
  change (format_field "x" tile) with (Ok (A:=string) (py_str (x tile))).
  change (format_field "y" tile) with (Ok (A:=string) (py_str (y tile))).
  cbn. by rewrite string_app_nil_r.
Qed.

Lemma tile_task_inv (url folder : string) (tile : Tile) (task : Task) :
  tile_task url folder tile = Ok task →
  task_tile task = tile ∧
  replace_path_tile url tile = Ok (task_source task) ∧
  task_target task = layout folder tile (template_extension url).
Proof.
  unfold tile_task, template_extension. rewrite replace_path_template.
  destruct (replace_path_tile url tile) as [source|e]; [|done]. cbn.
  destruct (urlparse_path url) as [path|e]; [|done]. cbn.
  intros [= <-]. cbn. split_and!; [done..|].
  unfold layout. by rewrite !string_app_assoc.
Qed.

Lemma enqueue_tiles_inv (url folder : string) (tiles : list Tile)
    (queue queue' : list Task) :
  enqueue_tiles url folder tiles queue = Ok queue' →
  ∃ tasks, queue' = queue ++ tasks ∧
           Forall2 (λ tile task, tile_task url folder tile = Ok task) tiles tasks.
Proof.
  revert queue. induction tiles as [|tile tiles IH]; intros queue; cbn.
  - intros [= <-]. exists []. by rewrite app_nil_r.
  - destruct (tile_task url folder tile) as [task|e] eqn:Htask; [|done]. cbn.
    intros (tasks & -> & Hall)%IH. exists (task :: tasks).
    rewrite <- app_assoc. split; [done|]. by constructor.
Qed.

Lemma crawl_box_tasks_inv (bb : Tile * Tile) (url folder : string)
    (queue : list Task) :
  crawl_box_tasks bb url folder = Ok queue →
  Forall2 (λ tile task, tile_task url folder tile = Ok task) (box_tiles bb) queue.
Proof. intros (tasks & -> & Hall)%enqueue_tiles_inv. done. Qed.

Lemma crawl_box_tasks_tiles (bb : Tile * Tile) (url folder : string)
    (queue : list Task) :
  crawl_box_tasks bb url folder = Ok queue →
  task_tile <$> queue = box_tiles bb.
Proof.
  intros Hall%crawl_box_tasks_inv.
  induction Hall as [|tile task tiles tasks Htask _ IH]; [done|].
  cbn. f_equal; [|done]. by apply tile_task_inv in Htask as (-> & _).
Qed.

(** C5: every task that [crawl_box] puts in its queue was made for a tile
    of the rectangle, and its target path is
    [{folder}/{z}/{x}/{y}{ext}], with the decimal indices of that tile and
    with [ext] the suffix of the path of the URL template, one and the
    same for all the tiles of the run. *)
Theorem crawl_box_target_layout (bb : Tile * Tile) (url folder : string)
    (queue : list Task) (task : Task) :
  crawl_box_tasks bb url folder = Ok queue →
  task ∈ queue →
  task_tile task ∈ box_tiles bb ∧
  task_target task =
    folder +:+ "/" +:+ py_str (z (task_tile task)) +:+ "/" +:+
    py_str (x (task_tile task)) +:+ "/" +:+ py_str (y (task_tile task)) +:+
    template_extension url.
Proof.
  intros Hq Hin. pose proof (crawl_box_tasks_inv _ _ _ _ Hq) as Hall.
  apply list_elem_of_lookup in Hin as (i & Hi).
  destruct (Forall2_lookup_r _ _ _ _ _ Hall Hi) as (tile & Htile & Htask).
  apply tile_task_inv in Htask as (Ht & _ & Htarget). rewrite Ht. split.
  - apply list_elem_of_lookup. eauto.
  - exact Htarget.
Qed.

End tasks.

Lemma crawl_box_target_layout_witness :
  let task := {| task_tile := mkTile 0 0 0;
                 task_source := "https://example/0/0/0.png";
                 task_target := "out/0/0/0.png" |} in
  task_tile task ∈ box_tiles (mkTile 0 0 0, mkTile 0 0 0) ∧
  task_target task =
    "out" +:+ "/" +:+ py_str 0 +:+ "/" +:+ py_str 0 +:+ "/" +:+ py_str 0 +:+
    @template_extension example_lib "https://example/{z}/{x}/{y}.png".
Proof.
  apply (@crawl_box_target_layout example_lib (mkTile 0 0 0, mkTile 0 0 0)
           "https://example/{z}/{x}/{y}.png" "out"
           [ {| task_tile := mkTile 0 0 0;
                task_source := "https://example/0/0/0.png";
                task_target := "out/0/0/0.png" |} ]).
  - vm_compute. reflexivity.
  - apply list_elem_of_singleton. reflexivity.
Defined.

(** A placeholder other than [x], [y] and [z] makes [crawl_box] raise at
    its first tile; doubled braces are literal braces. *)
Example crawl_box_tasks_unknown_placeholder :
  @crawl_box_tasks example_lib (mkTile 0 0 0, mkTile 0 0 0)
    "https://example/{zoom}/{x}/{y}.png" "out" =
  Raise (PyExc KeyError "zoom").
Proof. vm_compute. reflexivity. Qed.

Example replace_path_tile_braces :
  @replace_path_tile example_lib "{{{z}}}/{x}-{y}" (mkTile 5 (-7) 3) = Ok "{3}/5--7".
Proof. vm_compute. reflexivity. Qed.

Example crawl_box_tasks_example :
  @crawl_box_tasks example_lib (mkTile 1 2 3, mkTile 2 2 3)
    "https://tiles.example.org/map/{z}/{x}/{y}.png" "cache" =
  Ok [ mkTask (mkTile 1 2 3) "https://tiles.example.org/map/3/1/2.png" "cache/3/1/2.png";
       mkTask (mkTile 2 2 3) "https://tiles.example.org/map/3/2/2.png" "cache/3/2/2.png" ].
Proof. vm_compute. reflexivity. Qed.

(** * Paths *)

Lemma length_rstrip_slashes (s : string) :
  (String.length (rstrip_slashes s) ≤ String.length s)%nat.
Proof.
  induction s as [|c s IH]; [done|]. cbn.
  destruct (bool_decide (c = "/"%char) && bool_decide (rstrip_slashes s = ""));
    cbn; lia.
Qed.

Lemma length_head_to_last_slash (p : string) :
  (String.length (head_to_last_slash p) ≤ String.length p)%nat.
Proof.
  induction p as [|c p IH]; [done|]. cbn.
  destruct (head_to_last_slash p) as [|d h]; [case_bool_decide|]; cbn in *; lia.
Qed.

Lemma head_to_last_slash_ends (p : string) :
  head_to_last_slash p ≠ "" → ends_with_slash (head_to_last_slash p) = true.
Proof.
  induction p as [|c p IH]; [done|]. cbn.
  destruct (head_to_last_slash p) as [|d h] eqn:Hh.
  - case_bool_decide; [|done]. intros _. cbn. by apply bool_decide_eq_true_2.
  - intros _. cbn. apply IH. done.
Qed.

Lemma rstrip_slashes_shorter (s : string) :
  ends_with_slash s = true →
  (String.length (rstrip_slashes s) < String.length s)%nat.
Proof.
  induction s as [|c s IH]; [done|]. cbn. destruct s as [|d s].
  - intros ->%bool_decide_eq_true. vm_compute. lia.
  - intros Hs. specialize (IH Hs).
    destruct (bool_decide (c = "/"%char) && bool_decide (rstrip_slashes (String d s) = ""));
      cbn in *; lia.
Qed.

Lemma length_dirname (p : string) :
  (String.length (dirname p) ≤ String.length p)%nat.
Proof.
  unfold dirname. pose proof (length_head_to_last_slash p).
  pose proof (length_rstrip_slashes (head_to_last_slash p)).
  destruct (_ && _); lia.
Qed.

Lemma length_dirname_strict (p : string) :
  dirname p ≠ "" → is_root (dirname p) = false →
  (String.length (dirname p) < String.length p)%nat.
Proof.
  unfold dirname, is_root. pose proof (length_head_to_last_slash p).
  destruct (bool_decide (head_to_last_slash p ≠ "")) eqn:Hne; cbn.
  - destruct (all_slashes (head_to_last_slash p)) eqn:Hall; cbn.
    + rewrite Hne, Hall. done.
    + intros _ _. apply bool_decide_eq_true in Hne.
      pose proof (rstrip_slashes_shorter _ (head_to_last_slash_ends p Hne)). lia.
  - apply bool_decide_eq_false in Hne. intros Hd. exfalso. apply Hd.
    by destruct (decide (head_to_last_slash p = "")).
Qed.

Lemma ancestors_go_length (fuel : nat) (p a : string) :
  a ∈ ancestors_go fuel p → (String.length a ≤ String.length p)%nat.
Proof.
  revert p. induction fuel as [|fuel IH]; intros p; cbn; [by intros ?%elem_of_nil|].
  destruct (_ || _); [by intros ?%elem_of_nil|].
  intros [->|Hin]%elem_of_cons; [done|].
  apply IH in Hin. pose proof (length_dirname p). lia.
Qed.

Lemma target_not_ancestor (target : string) :
  target ∉ ancestors (dirname target).
Proof.
  intros Hin. unfold ancestors in Hin.
  pose proof (ancestors_go_length _ _ _ Hin) as Hlen.
  destruct (String.length (dirname target)) as [|n] eqn:Hn; cbn in Hin;
    [by apply elem_of_nil in Hin|].
  destruct (bool_decide (dirname target = "")) eqn:He; cbn in Hin;
    [by apply elem_of_nil in Hin|].
  destruct (is_root (dirname target)) eqn:Hroot; [by apply elem_of_nil in Hin|].
  apply bool_decide_eq_false in He.
  pose proof (length_dirname_strict target He Hroot). lia.
Qed.

(** * [download_tile] *)

Lemma makedirs_files (name : string) (fs fs' : filesystem) :
  makedirs name fs = Ok fs' → fs_files fs' = fs_files fs.
Proof. unfold makedirs. repeat case_bool_decide; [done..|]. by intros [= <-]. Qed.

Lemma makedirs_dirs (name : string) (fs fs' : filesystem) :
  makedirs name fs = Ok fs' →
  fs_dirs fs' = fs_dirs fs ∪ list_to_set (ancestors name).
Proof. unfold makedirs. repeat case_bool_decide; [done..|]. by intros [= <-]. Qed.

Lemma makedirs_not_target (target : string) (fs fs' : filesystem) :
  makedirs (dirname target) fs = Ok fs' →
  target ∈ fs_dirs fs' → target ∈ fs_dirs fs.
Proof.
  intros Hmk. rewrite (makedirs_dirs _ _ _ Hmk).
  intros [Hin|Hin%elem_of_list_to_set]%elem_of_union; [done|].
  by apply target_not_ancestor in Hin.
Qed.

Lemma ancestors_head (name : string) :
  name ≠ "" → is_root name = false → name ∈ ancestors name.
Proof.
  intros Hne Hroot. unfold ancestors. destruct name as [|c name]; [done|].
  cbn [String.length ancestors_go]. rewrite Hroot.
  rewrite bool_decide_eq_false_2 by done. cbn. apply list_elem_of_here.
Qed.

Lemma makedirs_is_dir (name : string) (fs fs' : filesystem) :
  makedirs name fs = Ok fs' → is_dir fs' name.
Proof.
  intros Hmk. unfold is_dir. destruct (is_root name) eqn:Hroot; [by left|right].
  rewrite (makedirs_dirs _ _ _ Hmk). apply elem_of_union_r, elem_of_list_to_set.
  apply ancestors_head; [|done]. intros ->. unfold makedirs in Hmk.
  by rewrite bool_decide_eq_true_2 in Hmk.
Qed.

(** The coroutine, resumed three times at most, is the body run in one go. *)
Lemma run_coroutine_download_tile (session : ClientSession)
    (source target : string) (w : world) :
  run_coroutine 3 session source target PhStart w =
    Some (download_tile session source target w).
Proof.
  unfold download_tile. cbn.
  destruct (makedirs _ _) as [fs|e]; [|done]. cbn.
  destruct (session source) as [e|status read]; [done|].
  case_bool_decide; [|done].
  destruct (open_wb _ _) as [fs'|e]; [|done]. cbn.
  destruct read; done.
Qed.

Lemma download_tile_status_message (session : ClientSession)
    (source target : string) (w : world) (status : Z) (read : read_outcome)
    (fs : filesystem) :
  makedirs (dirname target) (w_fs w) = Ok fs →
  session source = Response status read → status ≠ 200 →
  (download_tile session source target w).2 =
    Raise (PyExc Exception (source +:+ " returned status " +:+ py_str status)).
Proof.
  intros Hmk Hresp Hstatus. unfold download_tile. cbn. rewrite Hmk, Hresp.
  by rewrite bool_decide_eq_false_2.
Qed.

Lemma download_tile_files_without_200 (session : ClientSession)
    (source target : string) (w : world) (status : Z) (read : read_outcome) :
  session source = Response status read → status ≠ 200 →
  fs_files (w_fs (download_tile session source target w).1) = fs_files (w_fs w).
Proof.
  intros Hresp Hstatus. unfold download_tile. cbn.
  destruct (makedirs _ _) as [fs|e] eqn:Hmk; [|done].
  rewrite Hresp, bool_decide_eq_false_2 by done. cbn. by eapply makedirs_files.
Qed.

(** C4: a fetch answered with a status other than 200 makes
    [download_tile] raise [Exception] with the message
    ["{source} returned status {status}"], which holds both the source URL
    and the status code; the files on disk are left as they were, and
    nothing is created at the target path. *)
Theorem download_tile_bad_status (session : ClientSession)
    (source target : string) (w w' : world) (r : result unit)
    (status : Z) (read : read_outcome) :
  session source = Response status read → status ≠ 200 →
  download_tile session source target w = (w', r) →
  w_requests w' = w_requests w ++ [source] →
  r = Raise (PyExc Exception (source +:+ " returned status " +:+ py_str status)) ∧
  contains (source +:+ " returned status " +:+ py_str status) source ∧
  contains (source +:+ " returned status " +:+ py_str status) (py_str status) ∧
  fs_files (w_fs w') = fs_files (w_fs w) ∧
  (target ∈ fs_dirs (w_fs w') → target ∈ fs_dirs (w_fs w)).
Proof.
  intros Hresp Hstatus. unfold download_tile. cbn.
  destruct (makedirs _ _) as [fs|e] eqn:Hmk.
  - rewrite Hresp, bool_decide_eq_false_2 by done. intros [= <- <-] _. cbn.
    split; [done|]. split; [|split; [|split]].
    + exists "", (" returned status " +:+ py_str status). done.
    + exists (source +:+ " returned status "), "".
      by rewrite string_app_nil_r, string_app_assoc.
    + by eapply makedirs_files.
    + by eapply makedirs_not_target.
  - intros [= <- <-] Hreq. exfalso. apply (f_equal length) in Hreq.
    rewrite length_app in Hreq. simpl in Hreq. lia.
Qed.

Lemma download_tile_bad_status_witness :
  let res := download_tile not_found "https://example/0/0/0.png" "out/0/0/0.png"
               empty_world in
  res.2 = Raise (PyExc Exception
            ("https://example/0/0/0.png" +:+ " returned status " +:+ py_str 404)) ∧
  contains ("https://example/0/0/0.png" +:+ " returned status " +:+ py_str 404)
    "https://example/0/0/0.png" ∧
  contains ("https://example/0/0/0.png" +:+ " returned status " +:+ py_str 404)
    (py_str 404) ∧
  fs_files (w_fs res.1) = fs_files (w_fs empty_world) ∧
  ("out/0/0/0.png" ∈ fs_dirs (w_fs res.1) →
   "out/0/0/0.png" ∈ fs_dirs (w_fs empty_world)).
Proof.
  apply (download_tile_bad_status not_found "https://example/0/0/0.png"
           "out/0/0/0.png" empty_world _ _ 404 (ReadOk [])).
  - reflexivity.
  - lia.
  - apply surjective_pairing.
  - vm_compute. reflexivity.
Defined.

Example download_tile_404 :
  (download_tile not_found "https://example/0/0/0.png" "out/0/0/0.png" empty_world).2 =
    Raise (PyExc Exception "https://example/0/0/0.png returned status 404").
Proof. vm_compute. reflexivity. Qed.

(** C9: [download_tile] makes the directories before it issues the
    request. When [os.makedirs] raises, the exception leaves
    [download_tile] and no request is issued; when the request has been
    issued, the directory of the target and its ancestors exist when
    [download_tile] ends, whatever its outcome, a network error or a
    status other than 200 included, and no directory that existed
    before is lost. *)
Theorem download_tile_creates_parents (session : ClientSession)
    (source target : string) (w w' : world) (r : result unit) :
  download_tile session source target w = (w', r) →
  (∀ e, makedirs (dirname target) (w_fs w) = Raise e →
        r = Raise e ∧ w_requests w' = w_requests w) ∧
  (w_requests w' = w_requests w ++ [source] →
   is_dir (w_fs w') (dirname target) ∧
   (∀ d, d ∈ ancestors (dirname target) → d ∈ fs_dirs (w_fs w')) ∧
   fs_dirs (w_fs w) ⊆ fs_dirs (w_fs w')).
Proof.
  unfold download_tile. cbn.
  destruct (makedirs _ _) as [fs|e] eqn:Hmk.
  - intros Hrun. split; [done|]. intros _.
    assert (fs_dirs (w_fs w') = fs_dirs fs) as Hdirs.
    { destruct (session source) as [e|status read]; [by injection Hrun as <- <-|].
      case_bool_decide; [|by injection Hrun as <- <-].
      cbn in Hrun. destruct (open_wb target fs) as [fs'|e] eqn:Hopen;
        [|by injection Hrun as <- <-].
      assert (fs_dirs fs' = fs_dirs fs) as Hfs'.
      { unfold open_wb in Hopen. repeat case_bool_decide; try done.
        by injection Hopen as <-. }
      destruct read; injection Hrun as <- <-; done. }
    pose proof (makedirs_is_dir _ _ _ Hmk) as Hdir.
    unfold is_dir in *. rewrite Hdirs. split; [exact Hdir|].
    rewrite (makedirs_dirs _ _ _ Hmk). split.
    + intros d Hd. apply elem_of_union_r. by apply elem_of_list_to_set.
    + apply union_subseteq_l.
  - intros [= <- <-]. split; [by intros e' [= <-]|].
    intros Hreq. exfalso. apply (f_equal length) in Hreq.
    rewrite length_app in Hreq. simpl in Hreq. lia.
Qed.

Lemma download_tile_creates_parents_witness :
  let res := download_tile not_found "https://example/0/0/0.png" "out/0/0/0.png" empty_world in
  (∃ e, res.2 = Raise e) ∧
  is_dir (w_fs res.1) "out/0/0" ∧
  ("out" ∈ fs_dirs (w_fs res.1)) ∧
  fs_files (w_fs res.1) !! "out/0/0/0.png" = None.
Proof.
  destruct (download_tile_creates_parents not_found "https://example/0/0/0.png"
              "out/0/0/0.png" empty_world _ _ (surjective_pairing _)) as [_ Hdirs].
  destruct Hdirs as (Hdir & Hanc & _); [vm_compute; reflexivity|].
  split; [eexists; vm_compute; reflexivity|]. split; [exact Hdir|]. split.
  - apply Hanc. vm_compute. do 2 right. left.
  - vm_compute. reflexivity.
Defined.

(** In the coroutine the request is issued by the first activation, after
    the directories have been made; no later activation issues one. *)
Lemma download_step_request_order (session : ClientSession)
    (source target : string) (phase : dl_phase) (w w1 : world) (act : activation) :
  download_step session source target phase w = (w1, act) →
  w_requests w1 ≠ w_requests w →
  phase = PhStart ∧ act = Suspended PhResponse ∧
  w_requests w1 = w_requests w ++ [source] ∧
  is_dir (w_fs w1) (dirname target).
Proof.
  destruct phase as [| |read]; cbn.
  - destruct (makedirs _ _) as [fs|e] eqn:Hmk; intros [= <- <-] Hreq; [|done].
    split; [done|]. split; [done|]. split; [done|]. cbn.
    by eapply makedirs_is_dir.
  - destruct (session source) as [e|status rd]; [by intros [= <- <-]|].
    case_bool_decide; [|by intros [= <- <-]].
    destruct (open_wb _ _); by intros [= <- <-].
  - destruct read; by intros [= <- <-].
Qed.

(** A response with status 200 whose body can be read ends in the target
    file holding exactly that body. *)
Lemma download_tile_success (session : ClientSession)
    (source target : string) (w : world) (body : list Byte.byte)
    (fs fs' : filesystem) :
  makedirs (dirname target) (w_fs w) = Ok fs →
  session source = Response 200 (ReadOk body) →
  open_wb target fs = Ok fs' →
  (download_tile session source target w).2 = Ok () ∧
  fs_files (w_fs (download_tile session source target w).1) !! target = Some body.
Proof.
  intros Hmk Hresp Hopen. unfold download_tile. cbn.
  rewrite Hmk, Hresp. cbn. rewrite Hopen. cbn.
  split; [done|]. apply lookup_insert_eq.
Qed.

(** The file is opened, and so truncated, before the body is read: when
    the read fails, an empty file stays behind. *)
Lemma download_tile_read_failure (session : ClientSession)
    (source target : string) (w : world) (e : py_exc) (fs fs' : filesystem) :
  makedirs (dirname target) (w_fs w) = Ok fs →
  session source = Response 200 (ReadFails e) →
  open_wb target fs = Ok fs' →
  (download_tile session source target w).2 = Raise e ∧
  fs_files (w_fs (download_tile session source target w).1) !! target = Some [].
Proof.
  intros Hmk Hresp Hopen. unfold download_tile. cbn.
  rewrite Hmk, Hresp. cbn. rewrite Hopen. cbn. split; [done|].
  unfold open_wb in Hopen. repeat case_bool_decide; try done.
  injection Hopen as <-. cbn. apply lookup_insert_eq.
Qed.

(** * The worker pool *)

Lemma running_eq p : running p = omap worker_task (p_workers p).
Proof. done. Qed.

Section running.
Implicit Types (ws : list worker_state) (i : nat).

Lemma omap_insert_split ws i old new :
  ws !! i = Some old →
  omap worker_task ws =
    omap worker_task (take i ws) ++ option_list (worker_task old)
      ++ omap worker_task (drop (S i) ws) ∧
  omap worker_task (<[i := new]> ws) =
    omap worker_task (take i ws) ++ option_list (worker_task new)
      ++ omap worker_task (drop (S i) ws).
Proof.
  intros Hi. split.
  - rewrite <- (take_drop_middle ws i old Hi) at 1.
    rewrite omap_app. f_equal. cbn. by destruct (worker_task old).
  - rewrite insert_take_drop by (by eapply lookup_lt_Some).
    rewrite omap_app. f_equal. cbn. by destruct (worker_task new).
Qed.

Lemma running_start ws i task phase :
  ws !! i = Some WIdle →
  omap worker_task (<[i := WRunning task phase]> ws) ≡ₚ task :: omap worker_task ws.
Proof.
  intros Hi. destruct (omap_insert_split ws i WIdle (WRunning task phase) Hi) as [-> ->].
  cbn. by rewrite Permutation_middle.
Qed.

Lemma running_resume ws i task phase next :
  ws !! i = Some (WRunning task phase) →
  omap worker_task (<[i := WRunning task next]> ws) = omap worker_task ws.
Proof.
  intros Hi.
  by destruct (omap_insert_split ws i (WRunning task phase) (WRunning task next) Hi)
    as [-> ->].
Qed.

Lemma running_finish ws i task phase new :
  ws !! i = Some (WRunning task phase) → worker_task new = None →
  omap worker_task ws ≡ₚ task :: omap worker_task (<[i := new]> ws).
Proof.
  intros Hi Hnew.
  destruct (omap_insert_split ws i (WRunning task phase) new Hi) as [-> ->].
  rewrite Hnew. cbn. by rewrite Permutation_middle.
Qed.

Lemma running_cancel ws : omap worker_task (cancel <$> ws) = [].
Proof.
  induction ws as [|w ws IH]; [done|]. cbn. rewrite IH. by destruct w.
Qed.

Lemma running_replicate_idle (n : nat) : omap worker_task (replicate n WIdle) = [].
Proof. induction n as [|n IH]; [done|]. cbn. by rewrite IH. Qed.

Lemma length_running ws : (length (omap worker_task ws) ≤ length ws)%nat.
Proof.
  induction ws as [|w ws IH]; [done|]. cbn. destruct (worker_task w); cbn; lia.
Qed.

End running.

Lemma pool_inv_init num_workers w tasks : pool_inv num_workers tasks (crawl_box_pool w tasks).
Proof. split; cbn; try done. by exists []. Qed.

Lemma pool_inv_step session num_workers tasks a p p' :
  pool_inv num_workers tasks p →
  pool_step session num_workers a p = Some p' →
  pool_inv num_workers tasks p'.
Proof.
  intros [Htasks Hunf Htot Hn Hws Hcr Hal [started Hfifo] Henq Hret] Hstep.
  rewrite running_eq in *.
  destruct a as [|i|i|]; cbn in Hstep.
  - (* the workers are created *)
    destruct (p_main p) eqn:Hmain; [|done..]. injection Hstep as <-.
    destruct Henq as [Hq Hd]; [done|].
    apply length_zero_iff_nil in Hws. rewrite Hws in *. cbn in *.
    split; rewrite ?running_eq; cbn [p_done p_queue p_workers p_unfinished
      p_total p_n p_main]; rewrite ?running_replicate_idle.
    + done.
    + done.
    + done.
    + done.
    + by rewrite length_replicate.
    + apply Forall_replicate. by intros [].
    + intros _. apply Forall_replicate. split; [by intros []|done].
    + by exists started.
    + done.
    + done.
  - (* a worker takes a coroutine *)
    destruct (p_main p) eqn:Hmain; [done| |done].
    destruct (p_workers p !! i) as [[| | |]|] eqn:Hi; try done.
    destruct (p_queue p) as [|task queue] eqn:Hq; [done|]. injection Hstep as <-.
    split; rewrite ?running_eq; cbn [p_done p_queue p_workers p_unfinished
      p_total p_n p_main]; rewrite ?Hmain.
    + rewrite running_start by done. rewrite Htasks.
      by rewrite <- Permutation_middle.
    + rewrite running_start by done. rewrite Hunf. cbn. lia.
    + done.
    + done.
    + by rewrite length_insert.
    + apply Forall_insert; [done|]. by intros [].
    + intros _. apply Forall_insert; [by apply Hal|]. split; [by intros []|done].
    + exists (started ++ [task]). by rewrite <- app_assoc.
    + done.
    + done.
  - (* a coroutine is resumed *)
    destruct (p_main p) eqn:Hmain; [done| |done].
    destruct (p_workers p !! i) as [[|task phase| |]|] eqn:Hi; try done.
    destruct (download_step _ _ _ _ _) as [w [next|r]]; injection Hstep as <-.
    + split; rewrite ?running_eq; cbn [p_done p_queue p_workers p_unfinished
        p_total p_n p_main]; rewrite ?Hmain, ?(running_resume _ _ _ _ _ Hi).
      * done.
      * done.
      * done.
      * done.
      * by rewrite length_insert.
      * apply Forall_insert; [done|]. by intros [].
      * intros _. apply Forall_insert; [by apply Hal|]. split; [by intros []|done].
      * by exists started.
      * done.
      * done.
    + pose proof (running_finish _ _ _ _ WIdle Hi eq_refl) as Hperm.
      assert (p_unfinished p =
              S (length (omap worker_task (<[i:=WIdle]> (p_workers p)))
                 + length (p_queue p))) as Hunf'.
      { rewrite Hunf, Hperm. done. }
      unfold worker_finish. rewrite Hunf'.
      assert (progress_truthy p = true) as ->.
      { unfold progress_truthy. apply bool_decide_eq_true_2.
        rewrite Htot, Htasks, Hperm, !length_app. cbn. lia. }
      split; rewrite ?running_eq; cbn [p_done p_queue p_workers p_unfinished
        p_total p_n p_main]; rewrite ?Hmain.
      * rewrite Htasks, Hperm, fmap_app. cbn.
        rewrite <- !app_assoc. cbn. by rewrite <- Permutation_middle.
      * done.
      * done.
      * rewrite length_app, Hn. cbn. lia.
      * by rewrite length_insert.
      * apply Forall_insert; [done|]. by intros [].
      * intros _. apply Forall_insert; [by apply Hal|]. split; [by intros []|done].
      * by exists started.
      * done.
      * done.
  - (* [queue.join()] returns *)
    destruct (p_main p) eqn:Hmain; [done| |done].
    destruct (p_unfinished p) eqn:Hu; [|done]. injection Hstep as <-.
    assert (omap worker_task (p_workers p) = [] ∧ p_queue p = []) as [Hr Hq].
    { split; apply length_zero_iff_nil; lia. }
    split; rewrite ?running_eq; cbn [p_done p_queue p_workers p_unfinished
      p_total p_n p_main]; rewrite ?running_cancel.
    + by rewrite Htasks, Hr.
    + by rewrite Hq.
    + done.
    + done.
    + by rewrite length_fmap.
    + apply Forall_fmap. eapply Forall_impl; [exact Hcr|]. by intros [].
    + done.
    + exists started. by rewrite Hfifo, Hq.
    + done.
    + done.
Qed.

Lemma reachable_inv session num_workers w tasks p :
  reachable session num_workers w tasks p → pool_inv num_workers tasks p.
Proof.
  intros Hreach. unfold reachable in Hreach.
  eapply (rtc_ind_r (pool_inv num_workers tasks)); [|clear p Hreach|exact Hreach].
  - apply pool_inv_init.
  - intros p p' _ [a Hstep] IH. by eapply pool_inv_step.
Qed.

Lemma returned_pool_all_done num_workers tasks p :
  pool_inv num_workers tasks p → p_main p = MReturned →
  (p_done p).*1 ≡ₚ tasks ∧ running p = [] ∧ p_queue p = [].
Proof.
  intros Hinv Hmain. destruct (inv_returned _ _ _ Hinv Hmain) as [Hrun Hq].
  pose proof (inv_tasks _ _ _ Hinv) as Htasks.
  rewrite Hrun, Hq, app_nil_r in Htasks. done.
Qed.

Lemma run_schedule_rtc session num_workers acts p :
  rtc (step session num_workers) p (run_schedule session num_workers acts p).
Proof.
  revert p. induction acts as [|a acts IH]; intros p; [done|]. cbn.
  destruct (pool_step session num_workers a p) as [p'|] eqn:Hstep; cbn; [|done].
  eapply rtc_l; [by exists a|]. apply IH.
Qed.

Lemma run_schedule_reachable session num_workers w tasks acts :
  reachable session num_workers w tasks
    (run_schedule session num_workers acts (crawl_box_pool w tasks)).
Proof. apply run_schedule_rtc. Qed.

Lemma inv_lengths num_workers tasks p :
  pool_inv num_workers tasks p →
  length tasks = (length (p_done p) + length (running p) + length (p_queue p))%nat.
Proof.
  intros Hinv. rewrite (inv_tasks _ _ _ Hinv), !length_app, length_fmap. lia.
Qed.

Lemma length_filter_running (P : worker_state → bool) (ws : list worker_state) :
  (∀ w, P w = true → is_Some (worker_task w)) →
  (length (filter (λ w, P w = true) ws) ≤ length (omap worker_task ws))%nat.
Proof.
  intros HP. induction ws as [|w ws IH]; [done|].
  rewrite filter_cons. cbn. destruct (decide (P w = true)) as [Hw|Hw].
  - destruct (HP w Hw) as [task ->]. cbn. lia.
  - destruct (worker_task w); cbn; lia.
Qed.

(** C8: in every state of a run with a pool of [num_workers] workers, the
    tasks in flight (taken off the queue and not yet finished) are the
    coroutines the workers are awaiting, one per worker at most, so at
    most [num_workers] of them, whatever the number of tasks; the open
    HTTP connections and the open files are bounded by the same number. *)
Theorem in_flight_bounded session num_workers w tasks p :
  0 ≤ num_workers →
  reachable session num_workers w tasks p →
  in_flight tasks p = length (running p) ∧
  (length (running p) ≤ length (p_workers p))%nat ∧
  Z.of_nat (in_flight tasks p) ≤ num_workers ∧
  Z.of_nat (open_connections p) ≤ num_workers ∧
  Z.of_nat (open_files p) ≤ num_workers.
Proof.
  intros Hn Hinv%reachable_inv. pose proof (inv_lengths _ _ _ Hinv) as Hlen.
  pose proof (length_running (p_workers p)) as Hrun. rewrite <- running_eq in Hrun.
  pose proof (inv_workers _ _ _ Hinv) as Hws.
  assert (open_connections p ≤ length (running p))%nat as Hconn.
  { apply length_filter_running. intros [|task [| |read]| |]; by eauto. }
  assert (open_files p ≤ length (running p))%nat as Hfile.
  { apply length_filter_running. intros [|task [| |read]| |]; by eauto. }
  unfold in_flight. split; [lia|]. split; [done|]. destruct (p_main p); lia.
Qed.

Lemma in_flight_bounded_witness :
  let p := run_schedule example_session 1 [ASpawn; AGet 0%nat; ARun 0%nat]
             example_pool in
  in_flight example_tasks p = length (running p) ∧
  (length (running p) ≤ length (p_workers p))%nat ∧
  Z.of_nat (in_flight example_tasks p) ≤ 1 ∧
  Z.of_nat (open_connections p) ≤ 1 ∧
  Z.of_nat (open_files p) ≤ 1.
Proof.
  apply (in_flight_bounded example_session 1 empty_world example_tasks);
    [lia|apply run_schedule_reachable].
Defined.

(** One worker, two tasks: one task is in flight and one waits. *)
Example in_flight_one_worker :
  let p := run_schedule example_session 1 [ASpawn; AGet 0%nat; ARun 0%nat]
             example_pool in
  in_flight example_tasks p = 1%nat ∧ open_connections p = 1%nat ∧
  length (p_queue p) = 1%nat.
Proof. vm_compute. done. Qed.

(** C7: in every state in which [crawl_box] has returned, every task of
    the queue has finished, by returning or by raising: the finished
    coroutines are the tasks, each one once, none is being awaited by a
    worker and none is left in the queue. *)
Theorem crawl_box_returns_after_all_tasks session num_workers w tasks p :
  reachable session num_workers w tasks p →
  p_main p = MReturned →
  (p_done p).*1 ≡ₚ tasks ∧
  (∀ task, task ∈ tasks → ∃ r, (task, r) ∈ p_done p) ∧
  running p = [] ∧ p_queue p = [] ∧ in_flight tasks p = 0%nat.
Proof.
  intros Hinv%reachable_inv Hmain.
  destruct (inv_returned _ _ _ Hinv Hmain) as [Hrun Hq].
  pose proof (inv_tasks _ _ _ Hinv) as Htasks.
  rewrite Hrun, Hq, app_nil_r in Htasks.
  split; [done|]. split; [|split; [done|split; [done|]]].
  - intros task Hin. rewrite Htasks in Hin.
    apply list_elem_of_fmap in Hin as ([task' r] & -> & Hin). by exists r.
  - unfold in_flight. rewrite Hq, Htasks, length_fmap. cbn. lia.
Qed.

Lemma crawl_box_returns_after_all_tasks_witness :
  let p := run_schedule example_session 2 example_schedule example_pool in
  (p_done p).*1 ≡ₚ example_tasks ∧
  (∀ task, task ∈ example_tasks → ∃ r, (task, r) ∈ p_done p) ∧
  running p = [] ∧ p_queue p = [] ∧ in_flight example_tasks p = 0%nat.
Proof.
  apply (crawl_box_returns_after_all_tasks example_session 2 empty_world
           example_tasks).
  - apply run_schedule_reachable.
  - vm_compute. reflexivity.
Defined.

Example example_run_outcome :
  let p := run_schedule example_session 2 example_schedule example_pool in
  p_main p = MReturned ∧ p_n p = 2%nat ∧
  (p_done p).*2 =
    [Raise (PyExc Exception "https://example/1/0/1.png returned status 404");
     Ok ()] ∧
  fs_files (w_fs (p_world p)) !! "out/1/0/0.png" =
    Some (String.list_byte_of_string "PNGDATA") ∧
  fs_files (w_fs (p_world p)) !! "out/1/0/1.png" = None.
Proof. vm_compute. done. Qed.

(** C6: a task that raises ends no one but itself. In every state of a
    run no worker has left its loop, and the progress counter equals the
    number of finished coroutines; no turn of the event loop lowers it;
    the turn in which a coroutine finishes, by returning or by raising,
    raises it by exactly one, records that one task as finished, puts the
    worker back at [queue.get()] and touches neither the other workers,
    nor [crawl_box], nor the queue; and at the return of [crawl_box] the
    counter is the number of tasks, each task counted once. *)
Theorem worker_counts_each_task_once session num_workers w tasks p :
  reachable session num_workers w tasks p →
  p_n p = length (p_done p) ∧
  Forall (λ ws, ¬ crashed ws) (p_workers p) ∧
  (p_main p = MReturned → p_n p = length tasks ∧ (p_done p).*1 ≡ₚ tasks) ∧
  (∀ a p', pool_step session num_workers a p = Some p' →
     (p_n p ≤ p_n p')%nat ∧
     ∀ i task phase w' r,
       a = ARun i →
       p_workers p !! i = Some (WRunning task phase) →
       download_step session (task_source task) (task_target task) phase
         (p_world p) = (w', Finished r) →
       p_n p' = S (p_n p) ∧
       p_done p' = p_done p ++ [(task, r)] ∧
       p_workers p' = <[i := WIdle]> (p_workers p) ∧
       p_main p' = p_main p ∧ p_queue p' = p_queue p).
Proof.
  intros Hreach. pose proof (reachable_inv _ _ _ _ _ Hreach) as Hinv.
  split; [apply (inv_n _ _ _ Hinv)|]. split; [apply (inv_not_crashed _ _ _ Hinv)|].
  split.
  { intros Hmain.
    destruct (returned_pool_all_done num_workers tasks p Hinv Hmain)
      as [Hperm _].
    split; [|done]. by rewrite (inv_n _ _ _ Hinv), <- Hperm, length_fmap. }
  intros a p' Hstep.
  pose proof (pool_inv_step _ _ _ _ _ _ Hinv Hstep) as Hinv'.
  split.
  - rewrite (inv_n _ _ _ Hinv), (inv_n _ _ _ Hinv').
    destruct a as [|i|i|]; cbn in Hstep.
    + destruct (p_main p); [|done..]. by injection Hstep as <-.
    + destruct (p_main p), (p_workers p !! i) as [[| | |]|], (p_queue p);
        try done; by injection Hstep as <-.
    + destruct (p_main p), (p_workers p !! i) as [[|task phase| |]|]; try done.
      destruct (download_step _ _ _ _ _) as [w1 [next|r]]; injection Hstep as <-;
        [done|].
      unfold worker_finish. destruct (p_unfinished p); cbn; rewrite length_app; lia.
    + destruct (p_main p), (p_unfinished p); try done; by injection Hstep as <-.
  - intros i task phase w' r -> Hi Hdl. cbn in Hstep. rewrite Hi, Hdl in Hstep.
    destruct (p_main p) eqn:Hmain; [done| |done]. injection Hstep as <-.
    pose proof (running_finish _ _ _ _ WIdle Hi eq_refl) as Hperm.
    pose proof (inv_unfinished _ _ _ Hinv) as Hunf.
    rewrite running_eq, Hperm in Hunf. cbn in Hunf.
    unfold worker_finish. rewrite Hunf.
    assert (progress_truthy p = true) as ->.
    { unfold progress_truthy. apply bool_decide_eq_true_2.
      rewrite (inv_total _ _ _ Hinv), (inv_lengths _ _ _ Hinv), running_eq, Hperm.
      cbn. lia. }
    done.
Qed.

Lemma worker_counts_each_task_once_witness :
  let p := run_schedule example_session 2
             [ASpawn; AGet 0%nat; AGet 1%nat; ARun 1%nat] example_pool in
  let p' := run_schedule example_session 2 [ARun 1%nat] p in
  let task := {| task_tile := mkTile 0 1 1;
                 task_source := "https://example/1/0/1.png";
                 task_target := "out/1/0/1.png" |} in
  let r := Raise (PyExc Exception
                    ("https://example/1/0/1.png" +:+ " returned status " +:+ py_str 404)) in
  (p_n p ≤ p_n p')%nat ∧
  p_n p' = S (p_n p) ∧
  p_done p' = p_done p ++ [(task, r)] ∧
  p_workers p' = <[1%nat := WIdle]> (p_workers p) ∧
  p_main p' = p_main p ∧ p_queue p' = p_queue p.
Proof.
  intros p p' task r.
  destruct (worker_counts_each_task_once example_session 2 empty_world
              example_tasks p (run_schedule_reachable _ _ _ _ _))
    as (_ & _ & _ & Hstep).
  destruct (Hstep (ARun 1%nat) p') as [Hmono Hfinish];
    [vm_compute; reflexivity|].
  split; [exact Hmono|].
  apply (Hfinish 1%nat task PhResponse (p_world p) r);
    [reflexivity|vm_compute; reflexivity|vm_compute; reflexivity].
Defined.

Lemma inv_nothing_started num_workers tasks p :
  pool_inv num_workers tasks p →
  p_done p = [] → running p = [] → p_queue p = tasks.
Proof.
  intros Hinv Hd Hr. destruct (inv_fifo _ _ _ Hinv) as [started Hfifo].
  pose proof (inv_lengths _ _ _ Hinv) as Hlen.
  rewrite Hd, Hr in Hlen. cbn in Hlen.
  apply (f_equal length) in Hfifo as Hlen'. rewrite length_app in Hlen'.
  assert (started = []) as -> by (apply length_zero_iff_nil; lia). done.
Qed.

Section enqueue.
Context `{PythonLib}.

(** C10: when the loops of [crawl_box] have run, the queue holds one
    task for every tile of the rectangle, in the order of the visit, and
    no worker exists; the progress total is that number. The workers are
    created from that state only, and until a worker has taken its first
    task the queue still holds the entire task set: the first worker that
    starts finds a queue as long as the number of tiles. *)
Theorem crawl_box_queue_complete_before_workers session num_workers w
    (bb : Tile * Tile) (url folder : string) (tasks : list Task) (p : pool) :
  crawl_box_tasks bb url folder = Ok tasks →
  reachable session num_workers w tasks p →
  task_tile <$> tasks = box_tiles bb ∧
  p_queue (crawl_box_pool w tasks) = tasks ∧
  p_workers (crawl_box_pool w tasks) = [] ∧
  p_total p = length (box_tiles bb) ∧
  (p_main p = MEnqueued → p_workers p = [] ∧ p_queue p = tasks) ∧
  (∀ p', pool_step session num_workers ASpawn p = Some p' →
     p_queue p' = tasks ∧ length (p_queue p') = length (box_tiles bb) ∧
     running p' = [] ∧ p_done p' = []) ∧
  (∀ i p', p_done p = [] → running p = [] →
     pool_step session num_workers (AGet i) p = Some p' →
     p_queue p = tasks ∧ length (p_queue p) = length (box_tiles bb)).
Proof.
  intros Htasks Hreach. pose proof (reachable_inv _ _ _ _ _ Hreach) as Hinv.
  pose proof (crawl_box_tasks_tiles _ _ _ _ Htasks) as Htiles.
  assert (length tasks = length (box_tiles bb)) as Hlen.
  { by rewrite <- Htiles, length_fmap. }
  split; [done|]. split; [done|]. split; [done|].
  split; [by rewrite (inv_total _ _ _ Hinv)|]. split; [|split].
  - intros Hmain. split; [|by apply (inv_enqueued _ _ _ Hinv)].
    apply length_zero_iff_nil. by rewrite (inv_workers _ _ _ Hinv), Hmain.
  - intros p' Hstep. cbn in Hstep.
    destruct (p_main p) eqn:Hmain; [|done..]. injection Hstep as <-.
    destruct (inv_enqueued _ _ _ Hinv Hmain) as [Hq Hd].
    rewrite running_eq. cbn. rewrite running_replicate_idle, Hq. done.
  - intros i p' Hd Hr _. by rewrite (inv_nothing_started _ _ _ Hinv Hd Hr).
Qed.

End enqueue.

Lemma crawl_box_queue_complete_before_workers_witness :
  let bb := (mkTile 0 0 1, mkTile 0 1 1) in
  let p := run_schedule example_session 2 [ASpawn] example_pool in
  task_tile <$> example_tasks = box_tiles bb ∧
  p_queue example_pool = example_tasks ∧
  p_workers example_pool = [] ∧
  p_total p = length (box_tiles bb) ∧
  (p_main p = MEnqueued → p_workers p = [] ∧ p_queue p = example_tasks) ∧
  (∀ p', pool_step example_session 2 ASpawn p = Some p' →
     p_queue p' = example_tasks ∧ length (p_queue p') = length (box_tiles bb) ∧
     running p' = [] ∧ p_done p' = []) ∧
  (∀ i p', p_done p = [] → running p = [] →
     pool_step example_session 2 (AGet i) p = Some p' →
     p_queue p = example_tasks ∧ length (p_queue p) = length (box_tiles bb)).
Proof.
  apply (@crawl_box_queue_complete_before_workers example_lib example_session 2
           empty_world (mkTile 0 0 1, mkTile 0 1 1)
           "https://example/{z}/{x}/{y}.png" "out" example_tasks).
  - vm_compute. reflexivity.
  - apply run_schedule_reachable.
Defined.

(** * Termination *)

Lemma download_step_rank session source target phase w w' next :
  download_step session source target phase w = (w', Suspended next) →
  (phase_rank next < phase_rank phase)%nat.
Proof.
  destruct phase as [| |read]; cbn.
  - destruct (makedirs _ _); intros [= <- <-]. cbn. lia.
  - destruct (session source) as [e|status read]; [done|].
    case_bool_decide; [|done]. destruct (open_wb _ _); intros [= <- <-]. cbn. lia.
  - by destruct read.
Qed.

Lemma sum_list_append (l1 l2 : list nat) :
  sum_list (l1 ++ l2) = (sum_list l1 + sum_list l2)%nat.
Proof. induction l1 as [|n l1 IH]; [done|]. cbn. rewrite IH. lia. Qed.

Lemma sum_rank_insert (ws : list worker_state) (i : nat) (old new : worker_state) :
  ws !! i = Some old →
  (sum_list (worker_rank <$> <[i := new]> ws) + worker_rank old =
   sum_list (worker_rank <$> ws) + worker_rank new)%nat.
Proof.
  intros Hi. rewrite <- (take_drop_middle ws i old Hi) at 2.
  rewrite insert_take_drop by (by eapply lookup_lt_Some).
  rewrite !fmap_app, !sum_list_append. cbn. lia.
Qed.

Lemma sum_rank_cancel (ws : list worker_state) :
  sum_list (worker_rank <$> (cancel <$> ws)) = 0%nat.
Proof. induction ws as [|ws l IH]; [done|]. cbn. rewrite IH. by destruct ws. Qed.

Lemma sum_rank_idle (n : nat) :
  sum_list (worker_rank <$> replicate n WIdle) = 0%nat.
Proof. induction n as [|n IH]; [done|]. cbn. by rewrite IH. Qed.

(** Every turn of the event loop brings the end nearer: no run is infinite. *)
Lemma step_decreases session num_workers a p p' :
  pool_step session num_workers a p = Some p' →
  (pool_measure p' < pool_measure p)%nat.
Proof.
  unfold pool_measure. destruct a as [|i|i|]; cbn; intros Hstep.
  - destruct (p_main p) eqn:Hmain; [|done..]. injection Hstep as <-. cbn.
    rewrite sum_rank_idle. lia.
  - destruct (p_main p) eqn:Hmain; [done| |done].
    destruct (p_workers p !! i) as [[| | |]|] eqn:Hi; try done.
    destruct (p_queue p) as [|task queue] eqn:Hq; [done|]. injection Hstep as <-.
    cbn [p_main p_queue p_workers]; rewrite ?Hmain.
    pose proof (sum_rank_insert _ _ _ (WRunning task PhStart) Hi). cbn in *. lia.
  - destruct (p_main p) eqn:Hmain; [done| |done].
    destruct (p_workers p !! i) as [[|task phase| |]|] eqn:Hi; try done.
    destruct (download_step _ _ _ _ _) as [w [next|r]] eqn:Hdl; injection Hstep as <-.
    + apply download_step_rank in Hdl.
      cbn [p_main p_queue p_workers]; rewrite ?Hmain.
      pose proof (sum_rank_insert _ _ _ (WRunning task next) Hi). cbn in *. lia.
    + assert (0 < phase_rank phase)%nat by (destruct phase; cbn; lia).
      unfold worker_finish. destruct (p_unfinished p);
        cbn [p_main p_queue p_workers]; rewrite ?Hmain.
      * pose proof (sum_rank_insert _ _ _
          (WCrashed (PyExc ValueError "task_done() called too many times")) Hi).
        cbn in *. lia.
      * pose proof (sum_rank_insert _ _ _ WIdle Hi). cbn in *. lia.
  - destruct (p_main p) eqn:Hmain; [done| |done].
    destruct (p_unfinished p); [|done]. injection Hstep as <-.
    cbn [p_main p_queue p_workers]. rewrite sum_rank_cancel. cbn. lia.
Qed.

(** With a worker in the pool, the event loop always has a next turn
    until [crawl_box] has returned. *)
Lemma pool_progress session num_workers tasks p :
  0 < num_workers →
  pool_inv num_workers tasks p →
  p_main p ≠ MReturned →
  ∃ a p', pool_step session num_workers a p = Some p'.
Proof.
  intros Hn Hinv Hmain. destruct (p_main p) eqn:Hm; [| |done].
  - exists ASpawn. cbn. rewrite Hm. eauto.
  - destruct (p_unfinished p) as [|u] eqn:Hu.
    { exists AJoin. cbn. rewrite Hm, Hu. eauto. }
    destruct (decide (Exists (λ ws, is_Some (worker_task ws)) (p_workers p)))
      as [Hex|Hnone].
    + apply Exists_exists in Hex as (ws & Hin & [task Htask]).
      apply list_elem_of_lookup in Hin as [i Hi].
      destruct ws as [|task' phase| |]; try done.
      exists (ARun i). cbn. rewrite Hm, Hi.
      destruct (download_step _ _ _ _ _) as [w' [next|r]]; eauto.
    + apply not_Exists_Forall in Hnone; [|intros ws; apply _].
      assert (running p = []) as Hrun.
      { rewrite running_eq. clear -Hnone.
        induction Hnone as [|ws l Hws _ IH]; [done|]. cbn.
        destruct (worker_task ws) eqn:E; [|done].
        exfalso. apply Hws. by eexists. }
      pose proof (inv_unfinished _ _ _ Hinv) as Hunf.
      rewrite Hu, Hrun in Hunf. cbn in Hunf.
      destruct (p_queue p) as [|task queue] eqn:Hq; [cbn in Hunf; lia|].
      pose proof (inv_workers _ _ _ Hinv) as Hlen. rewrite Hm in Hlen.
      pose proof (inv_alive _ _ _ Hinv Hm) as Halive.
      destruct (p_workers p) as [|ws l] eqn:Hws; [cbn in Hlen; lia|].
      apply Forall_cons_1 in Halive as [[Hcr Hca] _].
      apply Forall_cons_1 in Hnone as [Hnot _].
      destruct ws as [|task' phase|e|].
      * exists (AGet 0%nat). cbn. rewrite Hm, Hws, Hq. cbn. eauto.
      * exfalso. apply Hnot. by eexists.
      * by destruct Hcr.
      * done.
Qed.

(** [crawl_box] can always be run to its return. *)
Lemma crawl_box_can_return session num_workers w tasks p :
  0 < num_workers →
  reachable session num_workers w tasks p →
  ∃ p', rtc (step session num_workers) p p' ∧ p_main p' = MReturned.
Proof.
  intros Hn Hreach. apply reachable_inv in Hreach as Hinv. clear Hreach.
  remember (pool_measure p) as m eqn:Hm. revert p Hm Hinv.
  induction (lt_wf m) as [m _ IH]. intros p -> Hinv.
  destruct (decide (p_main p = MReturned)) as [Hret|Hrun]; [by exists p|].
  destruct (pool_progress session num_workers tasks p Hn Hinv Hrun) as (a & p1 & Hstep).
  destruct (IH (pool_measure p1)) with (p := p1) as (p' & Hrtc & Hret).
  - by eapply step_decreases.
  - done.
  - by eapply pool_inv_step.
  - exists p'. split; [|done]. eapply rtc_l; [by exists a|done].
Qed.

(** Without a worker the queue is never emptied: [queue.join()] does not
    return when there is a task. *)
Lemma crawl_box_hangs_without_workers session num_workers w tasks p :
  num_workers ≤ 0 → tasks ≠ [] →
  reachable session num_workers w tasks p →
  p_main p ≠ MReturned ∧ p_done p = [] ∧ p_queue p = tasks.
Proof.
  intros Hn Hne Hreach. unfold reachable in Hreach.
  cut (p_workers p = [] ∧ p_unfinished p = length tasks ∧
       p_main p ≠ MReturned ∧ p_done p = [] ∧ p_queue p = tasks); [by intros (_ & _ & ? & ? & ?)|].
  eapply (rtc_ind_r (λ p, p_workers p = [] ∧ p_unfinished p = length tasks ∧
       p_main p ≠ MReturned ∧ p_done p = [] ∧ p_queue p = tasks));
    [|clear p Hreach|exact Hreach].
  - done.
  - intros p p' _ [a Hstep] (Hws & Hunf & Hmain & Hd & Hq).
    destruct a as [|i|i|]; cbn in Hstep.
    + destruct (p_main p); [|done..]. injection Hstep as <-. cbn.
      rewrite Z2Nat.nonpos by done. done.
    + rewrite Hws in Hstep. by destruct (p_main p).
    + rewrite Hws in Hstep. by destruct (p_main p).
    + rewrite Hunf in Hstep. destruct (p_main p), tasks; done.
Qed.

(** * More on the projection *)

Lemma find_tile_Ok_inv (latitude longitude : R) (level : Z) (t : Tile) :
  find_tile latitude longitude level = Ok t →
  level < 1024 ∧
  (-1 < sin (latitude * PI / 180) < 1)%R ∧
  t = {| x := py_int ((longitude + 180) / 360 * powerRZ 2 level);
         y := py_int (mercator (sin (latitude * PI / 180)) * powerRZ 2 level);
         z := level |}.
Proof.
  intros Hok.
  destruct (decide (level < 1024)) as [Hl|Hl].
  2:{ destruct (find_tile_level_overflow latitude longitude level) as [msg Hr]; [lia|].
      rewrite Hr in Hok. discriminate. }
  destruct (decide (- float_overflow_bound < level)) as [Hl'|Hl'].
  2:{ destruct (find_tile_level_underflow latitude longitude level) as [msg Hr]; [lia|].
      rewrite Hr in Hok. discriminate. }
  assert (-1 < sin (latitude * PI / 180) < 1)%R as Hs.
  { pose proof (SIN_bound (latitude * PI / 180)) as [Hlo Hhi].
    unfold find_tile in Hok. rewrite to_float_pow2_any in Hok by done.
    cbn in Hok. unfold float_div in Hok.
    destruct (Req_dec_T _ 0) as [E|E]; [discriminate|]. cbn in Hok.
    unfold math_log in Hok. destruct (Rle_dec _ 0) as [E'|E']; [discriminate|].
    split; [|lra].
    destruct Hlo as [Hlo|Hlo]; [done|]. exfalso. apply E'.
    rewrite <- Hlo. replace (1 + -1)%R with 0%R by lra. unfold Rdiv. lra. }
  split; [done|]. split; [done|].
  rewrite find_tile_regular in Hok by done. by injection Hok as <-.
Qed.

Lemma column_monotone (lon1 lon2 : R) (level : Z) :
  (lon1 <= lon2)%R →
  py_int ((lon1 + 180) / 360 * powerRZ 2 level)
  ≤ py_int ((lon2 + 180) / 360 * powerRZ 2 level).
Proof.
  intros Hle. apply py_int_mono.
  pose proof (powerRZ_lt 2 level ltac:(lra)). nra.
Qed.

(** X1: moving east never lowers the column: for two longitudes
    [lon1 <= lon2] at which [find_tile] returns, at one latitude and
    level, the column of the first is at most the column of the second,
    and the row is the same. *)
Theorem find_tile_column_monotone (latitude lon1 lon2 : R) (level : Z) (t1 t2 : Tile) :
  find_tile latitude lon1 level = Ok t1 →
  find_tile latitude lon2 level = Ok t2 →
  (lon1 <= lon2)%R →
  x t1 ≤ x t2 ∧ y t1 = y t2.
Proof.
  intros (_ & _ & ->)%find_tile_Ok_inv (_ & _ & ->)%find_tile_Ok_inv Hle. cbn.
  split; [by apply column_monotone|done].
Qed.

Lemma mercator_antitone (s1 s2 : R) :
  (-1 < s1)%R → (s1 <= s2)%R → (s2 < 1)%R → (mercator s2 <= mercator s1)%R.
Proof.
  intros H1 Hle H2. unfold mercator. pose proof PI_RGT_0 as Hpi.
  assert (ln ((1 + s1) / (1 - s1)) <= ln ((1 + s2) / (1 - s2)))%R as Hln.
  { destruct Hle as [Hlt| ->]; [|lra]. left. apply ln_increasing.
    - apply Rdiv_lt_0_compat; lra.
    - assert (0 < / (1 - s1))%R by (apply Rinv_0_lt_compat; lra).
      assert (0 < / (1 - s2))%R by (apply Rinv_0_lt_compat; lra).
      assert (/ (1 - s1) < / (1 - s2))%R by (apply Rinv_lt_contravar; nra).
      unfold Rdiv. nra. }
  assert (0 < / (4 * PI))%R by (apply Rinv_0_lt_compat; lra).
  unfold Rdiv. nra.
Qed.

Lemma row_antitone (lat1 lat2 : R) (level : Z) :
  (-1 < sin (lat1 * PI / 180))%R → (sin (lat2 * PI / 180) < 1)%R →
  (-90 <= lat1)%R → (lat1 <= lat2)%R → (lat2 <= 90)%R →
  py_int (mercator (sin (lat2 * PI / 180)) * powerRZ 2 level)
  ≤ py_int (mercator (sin (lat1 * PI / 180)) * powerRZ 2 level).
Proof.
  intros Hs1 Hs2 H1 Hle H2. apply py_int_mono.
  pose proof (powerRZ_lt 2 level ltac:(lra)) as Hpos. pose proof PI_RGT_0 as Hpi.
  apply Rmult_le_compat_r; [lra|]. apply mercator_antitone; [lra| |lra].
  apply sin_incr_1.
  - replace (- (PI / 2))%R with ((-90) * PI / 180)%R by field. nra.
  - replace (PI / 2)%R with (90 * PI / 180)%R by field. nra.
  - replace (- (PI / 2))%R with ((-90) * PI / 180)%R by field. nra.
  - replace (PI / 2)%R with (90 * PI / 180)%R by field. nra.
  - nra.
Qed.

(** X2: moving north never raises the row: for two latitudes
    [-90 <= lat1 <= lat2 <= 90] at which [find_tile] returns, at one
    longitude and level, the row of the northern one is at most the row
    of the southern one, and the column is the same. *)
Theorem find_tile_row_antitone (lat1 lat2 longitude : R) (level : Z) (t1 t2 : Tile) :
  find_tile lat1 longitude level = Ok t1 →
  find_tile lat2 longitude level = Ok t2 →
  (-90 <= lat1)%R → (lat1 <= lat2)%R → (lat2 <= 90)%R →
  y t2 ≤ y t1 ∧ x t1 = x t2.
Proof.
  intros (_ & Hs1 & ->)%find_tile_Ok_inv (_ & Hs2 & ->)%find_tile_Ok_inv H1 Hle H2.
  cbn. split; [|done]. apply row_antitone; lra.
Qed.

Lemma py_int_unit (r : R) : (0 <= r < 1)%R → py_int r = 0.
Proof.
  intros [H0 H1]. rewrite py_int_of_nonneg by done.
  symmetry. apply Int_part_spec. lra.
Qed.

Lemma powerRZ_2_negative (level : Z) : level < 0 → (0 < powerRZ 2 level <= / 2)%R.
Proof.
  intros Hl. split; [apply powerRZ_lt; lra|].
  assert (powerRZ 2 level * powerRZ 2 (- level) = 1)%R as Hmul.
  { rewrite <- powerRZ_add by lra. replace (level + - level) with 0 by lia. done. }
  rewrite (powerRZ_2_nonneg (- level)) in Hmul by lia.
  assert (2 ≤ 2 ^ (- level)) as Hge.
  { pose proof (Z.pow_le_mono_r 2 1 (- level) ltac:(lia) ltac:(lia)) as Hp.
    by rewrite Z.pow_1_r in Hp. }
  apply IZR_le in Hge. pose proof (powerRZ_lt 2 level ltac:(lra)) as Hpos.
  set (p := powerRZ 2 level) in *. set (q := IZR (2 ^ (- level))) in *.
  assert (0 <= p * (q - 2))%R by (apply Rmult_le_pos; lra). lra.
Qed.

(** X3: a negative level is accepted, down to the exponents too large
    for a double, where [2 ** level] raises: for a latitude in
    [[-85, 85]] and a longitude in [[-180, 180]], [find_tile] returns
    tile (0, 0) of that level. *)
Theorem find_tile_negative_level (latitude longitude : R) (level : Z) :
  - float_overflow_bound < level < 0 →
  (-85 <= latitude <= 85)%R →
  (-180 <= longitude <= 180)%R →
  find_tile latitude longitude level = Ok {| x := 0; y := 0; z := level |}.
Proof.
  intros Hl Hlat Hlon. pose proof (mercator_band_85 latitude Hlat) as Hm.
  assert (-1 < sin (latitude * PI / 180) < 1)%R as Hs
    by (apply sin_latitude_interior; lra).
  rewrite find_tile_regular by (done || lia).
  destruct (powerRZ_2_negative level) as [Hp0 Hp1]; [lia|].
  destruct (mercator_unit_interval _ Hs Hm) as [Hm0 Hm1].
  rewrite !py_int_unit; [done| |]; nra.
Qed.

Lemma find_tile_negative_level_witness :
  find_tile 0 0 (-3) = Ok {| x := 0; y := 0; z := -3 |}.
Proof.
  apply (find_tile_negative_level 0 0 (-3)); [level_ok|lra|lra].
Defined.

Lemma half_pow2 (level : Z) :
  1 ≤ level → (/ 2 * powerRZ 2 level)%R = IZR (2 ^ (level - 1)).
Proof.
  intros Hl. rewrite powerRZ_2_nonneg by lia.
  replace level with (1 + (level - 1)) at 1 by lia.
  rewrite Z.pow_add_r by lia. rewrite mult_IZR. change (2 ^ 1) with 2. lra.
Qed.

(** X4: at a level from 1 to 1013, the equator lies in row
    [2 ^ (level - 1)], at every longitude in [[-180, 180]], and the prime
    meridian in column [2 ^ (level - 1)], at every latitude in
    [[-89, 89]]. *)
Theorem find_tile_center (latitude longitude : R) (level : Z) :
  1 ≤ level < 1014 →
  ((-180 <= longitude <= 180)%R →
   ∃ t, find_tile 0 longitude level = Ok t ∧ y t = 2 ^ (level - 1)) ∧
  ((-89 <= latitude <= 89)%R →
   ∃ t, find_tile latitude 0 level = Ok t ∧ x t = 2 ^ (level - 1)).
Proof.
  intros Hl. split.
  - intros _. eexists. split; [apply find_tile_equator; level_ok|]. cbn.
    rewrite half_pow2 by lia. apply py_int_IZR.
  - intros Hlat. eexists. split.
    + apply find_tile_regular; [level_ok|apply sin_latitude_interior; lra].
    + cbn. replace ((0 + 180) / 360)%R with (/ 2)%R by field.
      rewrite half_pow2 by lia. apply py_int_IZR.
Qed.

Lemma find_tile_center_witness :
  (∃ t, find_tile 0 45 3 = Ok t ∧ y t = 2 ^ (3 - 1)) ∧
  ∃ t, find_tile 30 0 3 = Ok t ∧ x t = 2 ^ (3 - 1).
Proof.
  destruct (find_tile_center 30 45 3) as [Hrow Hcol]; [lia|].
  split; [apply Hrow|apply Hcol]; lra.
Defined.

Lemma find_tile_west_edge : find_tile 0 (-180) 0 = Ok {| x := 0; y := 0; z := 0 |}.
Proof.
  rewrite find_tile_equator by level_ok. rewrite py_int_half. do 2 f_equal.
  rewrite <- (py_int_IZR 0). f_equal. simpl. lra.
Qed.

Lemma find_tile_column_monotone_witness :
  x {| x := 0; y := 0; z := 0 |} ≤ x {| x := 1; y := 0; z := 0 |} ∧
  y {| x := 0; y := 0; z := 0 |} = y {| x := 1; y := 0; z := 0 |}.
Proof.
  apply (find_tile_column_monotone 0 0 180 0);
    [apply find_tile_origin|apply find_tile_antimeridian|lra].
Defined.

Lemma find_tile_row_antitone_witness :
  let t1 := {| x := py_int ((0 + 180) / 360 * powerRZ 2 3);
               y := py_int (mercator (sin (0 * PI / 180)) * powerRZ 2 3);
               z := 3 |} in
  let t2 := {| x := py_int ((0 + 180) / 360 * powerRZ 2 3);
               y := py_int (mercator (sin (30 * PI / 180)) * powerRZ 2 3);
               z := 3 |} in
  y t2 ≤ y t1 ∧ x t1 = x t2.
Proof.
  apply (find_tile_row_antitone 0 30 0 3).
  - apply find_tile_regular; [level_ok|apply sin_latitude_interior; lra].
  - apply find_tile_regular; [level_ok|apply sin_latitude_interior; lra].
  - lra.
  - lra.
  - lra.
Defined.

(** * [crawl] *)

Section crawl_props.
Context `{PythonLib}.

Lemma crawl_tasks_inv (args : CrawlerArgs) (tasks : list Task) :
  crawl_tasks args = Ok tasks →
  ∃ t1 t2,
    find_tile (top_latitude args) (top_longitude args) (level args) = Ok t1 ∧
    find_tile (bottom_latitude args) (bottom_longitude args) (level args) = Ok t2 ∧
    crawl_box_tasks (t1, t2) (url args) (target_folder args) = Ok tasks.
Proof.
  unfold crawl_tasks.
  destruct (find_tile (top_latitude args) _ _) as [t1|e]; [|done]. cbn.
  destruct (find_tile (bottom_latitude args) _ _) as [t2|e]; [|done]. cbn.
  intros Hq. by exists t1, t2.
Qed.

Lemma sin_at_pole (latitude : R) :
  latitude = 90%R ∨ latitude = (-90)%R →
  ¬ (-1 < sin (latitude * PI / 180) < 1)%R.
Proof.
  intros [-> | ->].
  - rewrite sin_latitude_north_pole. lra.
  - rewrite sin_latitude_south_pole. lra.
Qed.

(** X5: [crawl] gets as far as making tasks only for a level below 1024
    and corners off the poles: with a corner latitude of 90 or -90, or a
    level of 1024 or more, it raises before any task exists. *)
Theorem crawl_tasks_needs_regular_corners (args : CrawlerArgs) (tasks : list Task) :
  crawl_tasks args = Ok tasks →
  level args < 1024 ∧
  top_latitude args ≠ 90%R ∧ top_latitude args ≠ (-90)%R ∧
  bottom_latitude args ≠ 90%R ∧ bottom_latitude args ≠ (-90)%R.
Proof.
  intros (t1 & t2 & (Hl & Hs1 & _)%find_tile_Ok_inv
                  & (_ & Hs2 & _)%find_tile_Ok_inv & _)%crawl_tasks_inv.
  split; [done|].
  split_and!; intros Heq.
  - by apply (sin_at_pole (top_latitude args)); [left|].
  - by apply (sin_at_pole (top_latitude args)); [right|].
  - by apply (sin_at_pole (bottom_latitude args)); [left|].
  - by apply (sin_at_pole (bottom_latitude args)); [right|].
Qed.

(** X6: corners given in order, the top one north-west of the bottom
    one, make a rectangle that is not empty: the two corner tiles are in
    order, there is one task for every tile between them, all of the
    level asked for, the corner tiles included. *)
Theorem crawl_tasks_ordered_corners (args : CrawlerArgs) (tasks : list Task) :
  crawl_tasks args = Ok tasks →
  (-90 <= bottom_latitude args)%R →
  (bottom_latitude args <= top_latitude args)%R →
  (top_latitude args <= 90)%R →
  (top_longitude args <= bottom_longitude args)%R →
  ∃ t1 t2,
    find_tile (top_latitude args) (top_longitude args) (level args) = Ok t1 ∧
    find_tile (bottom_latitude args) (bottom_longitude args) (level args) = Ok t2 ∧
    x t1 ≤ x t2 ∧ y t1 ≤ y t2 ∧
    Z.of_nat (length tasks) = (x t2 - x t1 + 1) * (y t2 - y t1 + 1) ∧
    t1 ∈ task_tile <$> tasks ∧ t2 ∈ task_tile <$> tasks ∧
    Forall (λ task, z (task_tile task) = level args) tasks.
Proof.
  intros (t1 & t2 & Ht1 & Ht2 & Hq)%crawl_tasks_inv Hb Hbt Ht Hlon.
  exists t1, t2. split; [done|]. split; [done|].
  apply find_tile_Ok_inv in Ht1 as (Hl & Hs1 & Ht1).
  apply find_tile_Ok_inv in Ht2 as (_ & Hs2 & Ht2).
  assert (x t1 ≤ x t2) as Hx by (subst; cbn; by apply column_monotone).
  assert (y t1 ≤ y t2) as Hy by (subst; cbn; apply row_antitone; lra).
  assert (z t1 = level args ∧ z t2 = level args) as [Hz1 Hz2] by (by subst).
  pose proof (crawl_box_tasks_tiles _ _ _ _ Hq) as Htiles.
  split; [done|]. split; [done|]. split.
  { rewrite <- (length_fmap task_tile), Htiles, length_box_tiles. cbn. lia. }
  rewrite Htiles. split; [|split].
  - apply elem_of_box_tiles. cbn. lia.
  - apply elem_of_box_tiles. cbn. lia.
  - apply Forall_forall. intros task Hin.
    assert (task_tile task ∈ box_tiles (t1, t2)) as Hbox.
    { rewrite <- Htiles. by apply list_elem_of_fmap_2. }
    apply elem_of_box_tiles in Hbox as (_ & _ & ->). done.
Qed.

(** X7: a crawl from longitude -180 to longitude 180 asks for
    [2 ^ level + 1] columns: its tasks include the bottom-right corner
    tile, whose column [2 ^ level] is one past the last column of the
    level. *)
Theorem crawl_tasks_antimeridian (args : CrawlerArgs) (tasks : list Task) :
  crawl_tasks args = Ok tasks →
  0 ≤ level args →
  top_longitude args = (-180)%R → bottom_longitude args = 180%R →
  (-90 <= bottom_latitude args)%R →
  (bottom_latitude args <= top_latitude args)%R →
  (top_latitude args <= 90)%R →
  ∃ t1 t2,
    find_tile (top_latitude args) (top_longitude args) (level args) = Ok t1 ∧
    find_tile (bottom_latitude args) (bottom_longitude args) (level args) = Ok t2 ∧
    x t1 = 0 ∧ x t2 = 2 ^ level args ∧ y t1 ≤ y t2 ∧
    t2 ∈ task_tile <$> tasks ∧
    Z.of_nat (length tasks) = (2 ^ level args + 1) * (y t2 - y t1 + 1).
Proof.
  intros (t1 & t2 & Ht1 & Ht2 & Hq)%crawl_tasks_inv Hl0 Hw He Hb Hbt Ht.
  exists t1, t2. split; [done|]. split; [done|].
  apply find_tile_Ok_inv in Ht1 as (Hl & Hs1 & Ht1).
  apply find_tile_Ok_inv in Ht2 as (_ & Hs2 & Ht2).
  rewrite Hw in Ht1. rewrite He in Ht2.
  destruct (find_tile_x_range (-180) (level args)) as [[Hx0 _] [Hlt _]]; [done|lra|].
  destruct (find_tile_x_range 180 (level args)) as (_ & _ & Heq); [done|lra|].
  assert (x t1 = 0) as Hx1.
  { subst t1. cbn. replace ((-180 + 180) / 360 * powerRZ 2 (level args))%R
      with (IZR 0) by (unfold Rdiv; lra). apply py_int_IZR. }
  assert (x t2 = 2 ^ level args) as Hx2 by (subst t2; cbn; by apply Heq).
  assert (y t1 ≤ y t2) as Hy by (subst; cbn; apply row_antitone; lra).
  pose proof (crawl_box_tasks_tiles _ _ _ _ Hq) as Htiles.
  assert (0 < 2 ^ level args) by (apply Z.pow_pos_nonneg; lia).
  split; [done|]. split; [done|]. split; [done|]. split.
  - rewrite Htiles. apply elem_of_box_tiles. cbn. subst t1 t2. cbn in *. lia.
  - rewrite <- (length_fmap task_tile), Htiles, length_box_tiles. cbn. lia.
Qed.

End crawl_props.

Lemma example_crawl_tasks : @crawl_tasks example_lib example_args = Ok example_crawl.
Proof.
  unfold crawl_tasks, example_args.
  cbn [top_latitude top_longitude bottom_latitude bottom_longitude level url
       target_folder].
  rewrite find_tile_west_edge, find_tile_antimeridian.
  vm_compute. reflexivity.
Qed.

Lemma crawl_tasks_needs_regular_corners_witness :
  level example_args < 1024 ∧
  top_latitude example_args ≠ 90%R ∧ top_latitude example_args ≠ (-90)%R ∧
  bottom_latitude example_args ≠ 90%R ∧ bottom_latitude example_args ≠ (-90)%R.
Proof.
  apply (@crawl_tasks_needs_regular_corners example_lib example_args example_crawl).
  apply example_crawl_tasks.
Defined.

Lemma crawl_tasks_ordered_corners_witness :
  ∃ t1 t2,
    find_tile (top_latitude example_args) (top_longitude example_args)
      (level example_args) = Ok t1 ∧
    find_tile (bottom_latitude example_args) (bottom_longitude example_args)
      (level example_args) = Ok t2 ∧
    x t1 ≤ x t2 ∧ y t1 ≤ y t2 ∧
    Z.of_nat (length example_crawl) = (x t2 - x t1 + 1) * (y t2 - y t1 + 1) ∧
    t1 ∈ task_tile <$> example_crawl ∧ t2 ∈ task_tile <$> example_crawl ∧
    Forall (λ task, z (task_tile task) = level example_args) example_crawl.
Proof.
  apply (@crawl_tasks_ordered_corners example_lib example_args example_crawl).
  - apply example_crawl_tasks.
  - simpl. lra.
  - simpl. lra.
  - simpl. lra.
  - simpl. lra.
Defined.

Lemma crawl_tasks_antimeridian_witness :
  ∃ t1 t2,
    find_tile (top_latitude example_args) (top_longitude example_args)
      (level example_args) = Ok t1 ∧
    find_tile (bottom_latitude example_args) (bottom_longitude example_args)
      (level example_args) = Ok t2 ∧
    x t1 = 0 ∧ x t2 = 2 ^ level example_args ∧ y t1 ≤ y t2 ∧
    t2 ∈ task_tile <$> example_crawl ∧
    Z.of_nat (length example_crawl) =
      (2 ^ level example_args + 1) * (y t2 - y t1 + 1).
Proof.
  apply (@crawl_tasks_antimeridian example_lib example_args example_crawl).
  - apply example_crawl_tasks.
  - simpl. lia.
  - reflexivity.
  - reflexivity.
  - simpl. lra.
  - simpl. lra.
  - simpl. lra.
Defined.

(** * More on [download_tile] *)

Lemma dirname_empty : dirname "" = "".
Proof. reflexivity. Qed.

Lemma makedirs_nonempty (name : string) (fs fs' : filesystem) :
  makedirs name fs = Ok fs' → name ≠ "".
Proof. unfold makedirs. case_bool_decide; [done|]. done. Qed.

Lemma open_wb_Ok_inv (target : string) (fs fs' : filesystem) :
  open_wb target fs = Ok fs' →
  fs' = {| fs_dirs := fs_dirs fs; fs_files := <[target := []]> (fs_files fs) |}.
Proof.
  unfold open_wb. repeat case_bool_decide; try done. by intros [= <-].
Qed.

(** A path that ends with a slash has an empty last component. *)
Lemma split_slash_trailing (p : string) :
  ends_with_slash p = true →
  ∃ components, components ≠ [] ∧ split_slash p = components ++ [""].
Proof.
  induction p as [|c p IH]; [done|]. intros Hend.
  destruct (decide (p = "")) as [->|Hp].
  - cbn in Hend. apply bool_decide_eq_true in Hend as ->. by exists [""].
  - assert (ends_with_slash p = true) as Hend' by (by destruct p).
    destruct (IH Hend') as (components & Hne & Heq).
    change (split_slash (String c p)) with
      (if bool_decide (c = "/"%char) then "" :: split_slash p
       else match split_slash p with
            | component :: components => String c component :: components
            | [] => [String c ""]
            end).
    rewrite Heq. case_bool_decide.
    + exists ("" :: components). by split.
    + destruct components as [|component components]; [done|].
      exists (String c component :: components). by split.
Qed.

Lemma normal_path_no_trailing_slash (p : string) :
  normal_path p = true → ends_with_slash p = false.
Proof.
  intros Hn. destruct (ends_with_slash p) eqn:Hend; [|done].
  destruct (split_slash_trailing p Hend) as (components & _ & Heq).
  unfold normal_path in Hn. rewrite Heq, forallb_app in Hn.
  apply andb_true_iff in Hn as [_ Hn]. cbn in Hn.
  rewrite bool_decide_eq_true_2 in Hn by (by left). done.
Qed.

(** After [os.makedirs] the file can be opened unless a directory sits at
    the target path or the path ends with a slash. *)
Lemma open_wb_after_makedirs (target : string) (fs0 fs : filesystem) :
  makedirs (dirname target) fs0 = Ok fs →
  ¬ is_dir fs0 target →
  ends_with_slash target = false →
  open_wb target fs =
    Ok {| fs_dirs := fs_dirs fs; fs_files := <[target := []]> (fs_files fs) |}.
Proof.
  intros Hmk Hnd Hend. unfold open_wb.
  rewrite bool_decide_eq_false_2.
  2:{ intros ->. by apply makedirs_nonempty in Hmk. }
  rewrite bool_decide_eq_false_2.
  2:{ intros [[Hroot|Hin]|Hslash]; [| |congruence]; apply Hnd; [by left|right].
      by eapply makedirs_not_target. }
  rewrite bool_decide_eq_true_2; [done|].
  right. by eapply makedirs_is_dir.
Qed.

(** X8: a normalised target path, a response with status 200 whose
    body can be read, the directories creatable and no directory at the
    target path: then [download_tile] returns, the target file holds
    exactly the body and no other file has changed, the directories are
    the old ones and the ancestors of the target, and one request has
    been made. *)
Theorem download_tile_writes_body (session : ClientSession)
    (source target : string) (w : world) (body : list Byte.byte)
    (fs : filesystem) :
  normal_path target = true →
  makedirs (dirname target) (w_fs w) = Ok fs →
  ¬ is_dir (w_fs w) target →
  session source = Response 200 (ReadOk body) →
  ∃ w', download_tile session source target w = (w', Ok ()) ∧
        fs_files (w_fs w') = <[target := body]> (fs_files (w_fs w)) ∧
        fs_dirs (w_fs w') =
          fs_dirs (w_fs w) ∪ list_to_set (ancestors (dirname target)) ∧
        w_requests w' = w_requests w ++ [source].
Proof.
  intros Hnormal%normal_path_no_trailing_slash Hmk Hnd Hresp.
  unfold download_tile. cbn. rewrite Hmk, Hresp. cbn.
  rewrite (open_wb_after_makedirs _ _ _ Hmk Hnd Hnormal). cbn.
  eexists. split; [done|]. cbn. split; [|split; [|done]].
  - by rewrite insert_insert_eq, (makedirs_files _ _ _ Hmk).
  - by apply makedirs_dirs.
Qed.

(** X9: the target file is opened, and so emptied, before the body is
    read: for a normalised target path, when reading the body fails, the
    exception leaves [download_tile] and the target is an empty file,
    whatever it held before. *)
Theorem download_tile_read_failure_truncates (session : ClientSession)
    (source target : string) (w : world) (e : py_exc) (fs : filesystem) :
  normal_path target = true →
  makedirs (dirname target) (w_fs w) = Ok fs →
  ¬ is_dir (w_fs w) target →
  session source = Response 200 (ReadFails e) →
  ∃ w', download_tile session source target w = (w', Raise e) ∧
        fs_files (w_fs w') = <[target := []]> (fs_files (w_fs w)).
Proof.
  intros Hnormal%normal_path_no_trailing_slash Hmk Hnd Hresp.
  unfold download_tile. cbn. rewrite Hmk, Hresp. cbn.
  rewrite (open_wb_after_makedirs _ _ _ Hmk Hnd Hnormal). cbn.
  eexists. split; [done|]. cbn. by rewrite (makedirs_files _ _ _ Hmk).
Qed.

(** X10: when the request itself fails, its exception leaves
    [download_tile]: no file is created or changed, and the target path
    has not become a directory. *)
Theorem download_tile_network_error (session : ClientSession)
    (source target : string) (w w' : world) (r : result unit) (e : py_exc) :
  session source = ConnectFails e →
  download_tile session source target w = (w', r) →
  w_requests w' = w_requests w ++ [source] →
  r = Raise e ∧
  fs_files (w_fs w') = fs_files (w_fs w) ∧
  (target ∈ fs_dirs (w_fs w') → target ∈ fs_dirs (w_fs w)).
Proof.
  intros Hresp. unfold download_tile. cbn.
  destruct (makedirs _ _) as [fs|e'] eqn:Hmk.
  - rewrite Hresp. intros [= <- <-] _. cbn. split; [done|]. split.
    + by eapply makedirs_files.
    + by eapply makedirs_not_target.
  - intros [= <- <-] Hreq. exfalso. apply (f_equal length) in Hreq.
    rewrite length_app in Hreq. simpl in Hreq. lia.
Qed.

(** What [download_tile] changes in the model, by path string. *)
Lemma download_tile_changes (session : ClientSession)
    (source target : string) (w w' : world) (r : result unit) :
  download_tile session source target w = (w', r) →
  (∀ path, path ≠ target →
     fs_files (w_fs w') !! path = fs_files (w_fs w) !! path) ∧
  dom (fs_files (w_fs w)) ⊆ dom (fs_files (w_fs w')) ∧
  fs_dirs (w_fs w) ⊆ fs_dirs (w_fs w') ∧
  (∀ d, d ∈ fs_dirs (w_fs w') → d ∈ fs_dirs (w_fs w) ∨ d ∈ ancestors (dirname target)) ∧
  (w_requests w' = w_requests w ∨ w_requests w' = w_requests w ++ [source]).
Proof.
  unfold download_tile. cbn.
  destruct (makedirs _ _) as [fs|e] eqn:Hmk.
  2:{ intros [= <- <-]. cbn. split_and!; auto. }
  pose proof (makedirs_files _ _ _ Hmk) as Hf.
  pose proof (makedirs_dirs _ _ _ Hmk) as Hd.
  assert (fs_dirs (w_fs w) ⊆ fs_dirs fs) as Hsub by (rewrite Hd; set_solver).
  assert (∀ d, d ∈ fs_dirs fs → d ∈ fs_dirs (w_fs w) ∨ d ∈ ancestors (dirname target))
    as Hnew.
  { intros d. rewrite Hd. set_solver. }
  destruct (session source) as [e|status read].
  { intros [= <- <-]. cbn. rewrite Hf. split_and!; auto. }
  case_bool_decide.
  2:{ intros [= <- <-]. cbn. rewrite Hf. split_and!; auto. }
  cbn. destruct (open_wb target fs) as [fs'|e] eqn:Hopen.
  2:{ intros [= <- <-]. cbn. rewrite Hf. split_and!; auto. }
  apply open_wb_Ok_inv in Hopen as ->. cbn.
  destruct read as [body|e]; intros [= <- <-]; cbn; rewrite Hf.
  - split_and!; auto.
    + intros path Hne. by rewrite !lookup_insert_ne.
    + rewrite !dom_insert_L. set_solver.
  - split_and!; auto.
    + intros path Hne. by rewrite lookup_insert_ne.
    + rewrite dom_insert_L. set_solver.
Qed.

(** X11: whatever its outcome, [download_tile] with a normalised target
    path changes no file but its target, among the files at normalised
    paths, removes no file and no directory, makes no directory but the
    ancestors of the target, and sends one request at most, to the source
    URL. *)
Theorem download_tile_frame (session : ClientSession)
    (source target : string) (w w' : world) (r : result unit) :
  normal_path target = true →
  download_tile session source target w = (w', r) →
  (∀ path, normal_path path = true → path ≠ target →
     fs_files (w_fs w') !! path = fs_files (w_fs w) !! path) ∧
  dom (fs_files (w_fs w)) ⊆ dom (fs_files (w_fs w')) ∧
  fs_dirs (w_fs w) ⊆ fs_dirs (w_fs w') ∧
  (∀ d, d ∈ fs_dirs (w_fs w') → d ∈ fs_dirs (w_fs w) ∨ d ∈ ancestors (dirname target)) ∧
  (w_requests w' = w_requests w ∨ w_requests w' = w_requests w ++ [source]).
Proof.
  intros _ (Hfiles & Hrest)%download_tile_changes. split; [|done].
  intros path _. apply Hfiles.
Qed.

(** X12: a tile that has been downloaded can be downloaded again: when
    the session answers as before, the second [download_tile] returns too
    and leaves the disk as the first one left it. *)
Theorem download_tile_idempotent (session : ClientSession)
    (source target : string) (w w1 : world) :
  download_tile session source target w = (w1, Ok ()) →
  ∃ w2, download_tile session source target w1 = (w2, Ok ()) ∧
        w_fs w2 = w_fs w1.
Proof.
  unfold download_tile at 1. cbn.
  destruct (makedirs _ (w_fs w)) as [fs|e] eqn:Hmk; [|done].
  destruct (session source) as [e|status read] eqn:Hresp; [done|].
  case_bool_decide as Hst; [|done]. subst status. cbn.
  destruct (open_wb target fs) as [fs'|e] eqn:Hopen; [|done].
  destruct read as [body|e]; [|done]. intros [= <-].
  pose proof (open_wb_Ok_inv _ _ _ Hopen) as ->. cbn in *.
  pose proof (makedirs_files _ _ _ Hmk) as Hf.
  pose proof (makedirs_dirs _ _ _ Hmk) as Hd.
  set (fs1 := write_file target body
                {| fs_dirs := fs_dirs fs; fs_files := <[target:=[]]> (fs_files fs) |}).
  assert (makedirs (dirname target) fs1 = Ok fs1) as Hmk1.
  { unfold makedirs in *. case_bool_decide; [done|].
    case_bool_decide as Hex; [done|]. injection Hmk as <-.
    rewrite bool_decide_eq_false_2.
    - unfold fs1, write_file. cbn. f_equal. f_equal. set_solver.
    - intros Hex'. apply Hex. apply Exists_exists in Hex' as (a & Ha & Hin).
      apply Exists_exists. exists a. split; [done|].
      unfold fs1, write_file in Hin. cbn in Hin.
      rewrite !dom_insert_L in Hin.
      apply elem_of_union in Hin as [->%elem_of_singleton|Hin].
      { by apply target_not_ancestor in Ha. }
      apply elem_of_union in Hin as [->%elem_of_singleton|Hin]; [|done].
      by apply target_not_ancestor in Ha. }
  assert (¬ is_dir fs1 target ∧ ends_with_slash target = false) as [Hnd Hend].
  { unfold open_wb in Hopen. repeat case_bool_decide; try done.
    split; [tauto|]. destruct (ends_with_slash target); tauto. }
  unfold download_tile. cbn. rewrite Hmk1, Hresp. cbn.
  rewrite (open_wb_after_makedirs _ _ _ Hmk1 Hnd Hend). cbn.
  eexists. split; [done|]. cbn. unfold fs1, write_file. cbn.
  by rewrite !insert_insert_eq.
Qed.

Lemma example_target_free : ¬ is_dir (w_fs empty_world) "out/1/0/0.png".
Proof. intros [Hroot|Hin]; [done|]. cbn in Hin. set_solver. Qed.

Lemma download_tile_writes_body_witness :
  ∃ w', download_tile example_session "https://example/1/0/0.png" "out/1/0/0.png"
          empty_world = (w', Ok ()) ∧
        fs_files (w_fs w') =
          <["out/1/0/0.png" := String.list_byte_of_string "PNGDATA"]>
            (fs_files (w_fs empty_world)) ∧
        fs_dirs (w_fs w') =
          fs_dirs (w_fs empty_world) ∪
          list_to_set (ancestors (dirname "out/1/0/0.png")) ∧
        w_requests w' = w_requests empty_world ++ ["https://example/1/0/0.png"].
Proof.
  apply (download_tile_writes_body example_session "https://example/1/0/0.png"
           "out/1/0/0.png" empty_world (String.list_byte_of_string "PNGDATA")
           {| fs_dirs := ∅ ∪ list_to_set (ancestors (dirname "out/1/0/0.png"));
              fs_files := ∅ |}).
  - reflexivity.
  - reflexivity.
  - apply example_target_free.
  - reflexivity.
Defined.

Lemma download_tile_read_failure_truncates_witness :
  ∃ w', download_tile broken_body "https://example/1/0/0.png" "out/1/0/0.png"
          empty_world =
          (w', Raise (PyExc ClientError "Response payload is not completed")) ∧
        fs_files (w_fs w') = <["out/1/0/0.png" := []]> (fs_files (w_fs empty_world)).
Proof.
  apply (download_tile_read_failure_truncates broken_body
           "https://example/1/0/0.png" "out/1/0/0.png" empty_world
           (PyExc ClientError "Response payload is not completed")
           {| fs_dirs := ∅ ∪ list_to_set (ancestors (dirname "out/1/0/0.png"));
              fs_files := ∅ |}).
  - reflexivity.
  - reflexivity.
  - apply example_target_free.
  - reflexivity.
Defined.

Lemma download_tile_network_error_witness :
  let run := download_tile no_network "https://example/1/0/0.png" "out/1/0/0.png"
               empty_world in
  run.2 = Raise (PyExc ClientError "Cannot connect to host") ∧
  fs_files (w_fs run.1) = fs_files (w_fs empty_world) ∧
  ("out/1/0/0.png" ∈ fs_dirs (w_fs run.1) →
   "out/1/0/0.png" ∈ fs_dirs (w_fs empty_world)).
Proof.
  apply (download_tile_network_error no_network "https://example/1/0/0.png"
           "out/1/0/0.png" empty_world).
  - reflexivity.
  - reflexivity.
  - reflexivity.
Defined.

Lemma download_tile_frame_witness :
  let run := download_tile example_session "https://example/1/0/0.png"
               "out/1/0/0.png" empty_world in
  (∀ path, normal_path path = true → path ≠ "out/1/0/0.png" →
     fs_files (w_fs run.1) !! path = fs_files (w_fs empty_world) !! path) ∧
  dom (fs_files (w_fs empty_world)) ⊆ dom (fs_files (w_fs run.1)) ∧
  fs_dirs (w_fs empty_world) ⊆ fs_dirs (w_fs run.1) ∧
  (∀ d, d ∈ fs_dirs (w_fs run.1) →
        d ∈ fs_dirs (w_fs empty_world) ∨ d ∈ ancestors (dirname "out/1/0/0.png")) ∧
  (w_requests run.1 = w_requests empty_world ∨
   w_requests run.1 = w_requests empty_world ++ ["https://example/1/0/0.png"]).
Proof.
  apply (download_tile_frame example_session "https://example/1/0/0.png"
           "out/1/0/0.png" empty_world _ (Ok ())); reflexivity.
Defined.

Lemma download_tile_idempotent_witness :
  let w1 := (download_tile example_session "https://example/1/0/0.png"
               "out/1/0/0.png" empty_world).1 in
  ∃ w2, download_tile example_session "https://example/1/0/0.png" "out/1/0/0.png"
          w1 = (w2, Ok ()) ∧
        w_fs w2 = w_fs w1.
Proof.
  apply (download_tile_idempotent example_session "https://example/1/0/0.png"
           "out/1/0/0.png" empty_world).
  reflexivity.
Defined.

(** * Target paths are apart *)

Lemma has_char_app (c : ascii) (s1 s2 : string) :
  has_char c (s1 +:+ s2) = has_char c s1 || has_char c s2.
Proof.
  induction s1 as [|d s1 IH]; [done|].
  change (has_char c (String d (s1 +:+ s2)) = has_char c (String d s1) || has_char c s2).
  cbn. rewrite IH. by rewrite orb_assoc.
Qed.

Lemma pretty_N_char_not_slash (n : N) : pretty_N_char n ≠ "/"%char.
Proof. unfold pretty_N_char. by repeat case_match. Qed.

Lemma pretty_N_go_no_slash (n : N) (s : string) :
  has_char "/" s = false → has_char "/" (pretty_N_go n s) = false.
Proof.
  revert s. induction (N.lt_wf_0 n) as [n _ IH]; intros s Hs.
  assert (n = 0 ∨ 0 < n)%N as [->|Hpos] by lia.
  - by rewrite pretty_N_go_0.
  - rewrite pretty_N_go_step by done. apply IH; [by apply N.div_lt|].
    cbn. rewrite Hs, orb_false_r. apply bool_decide_eq_false_2.
    intros Heq. by apply (pretty_N_char_not_slash (n `mod` 10)%N).
Qed.

Lemma pretty_N_no_slash (n : N) : has_char "/" (pretty n) = false.
Proof.
  unfold pretty, pretty_N. case_decide; [done|]. by apply pretty_N_go_no_slash.
Qed.

Lemma py_str_no_slash (n : Z) : has_char "/" (py_str n) = false.
Proof.
  unfold py_str, pretty, pretty_Z. destruct n as [|p|p]; [done|..].
  - apply pretty_N_no_slash.
  - rewrite has_char_app. cbn. apply pretty_N_no_slash.
Qed.

Lemma pretty_N_go_nonempty (n : N) (s : string) :
  s ≠ "" → pretty_N_go n s ≠ "".
Proof.
  revert s. induction (N.lt_wf_0 n) as [n _ IH]; intros s Hs.
  assert (n = 0 ∨ 0 < n)%N as [->|Hpos] by lia.
  - by rewrite pretty_N_go_0.
  - rewrite pretty_N_go_step by done. apply IH; [by apply N.div_lt|done].
Qed.

Lemma py_str_nonempty (n : Z) : py_str n ≠ "".
Proof.
  unfold py_str, pretty, pretty_Z. destruct n as [|p|p]; [done|..].
  - unfold pretty, pretty_positive, pretty, pretty_N. case_decide; [done|].
    rewrite pretty_N_go_step by lia. by apply pretty_N_go_nonempty.
  - done.
Qed.

Lemma string_app_cons (c : ascii) (s1 s2 : string) :
  String c s1 +:+ s2 = String c (s1 +:+ s2).
Proof. reflexivity. Qed.

Lemma string_app_nil_l (s : string) : "" +:+ s = s.
Proof. reflexivity. Qed.

(** Two texts cut at their first slash. *)
Lemma app_slash_inj (a a' b b' : string) :
  has_char "/" a = false → has_char "/" a' = false →
  a +:+ "/" +:+ b = a' +:+ "/" +:+ b' → a = a' ∧ b = b'.
Proof.
  revert a'. induction a as [|c a IH]; intros [|c' a'] Ha Ha' Heq;
    rewrite ?string_app_cons, ?string_app_nil_l in Heq.
  - by injection Heq as ->.
  - injection Heq as <- _. cbn in Ha'. by rewrite bool_decide_eq_true_2 in Ha'.
  - injection Heq as -> _. cbn in Ha. by rewrite bool_decide_eq_true_2 in Ha.
  - injection Heq as -> Heq. cbn in Ha, Ha'.
    apply orb_false_iff in Ha as [_ Ha]. apply orb_false_iff in Ha' as [_ Ha'].
    destruct (IH a' Ha Ha' Heq) as [-> ->]. done.
Qed.

Lemma string_length_app (s1 s2 : string) :
  String.length (s1 +:+ s2) = (String.length s1 + String.length s2)%nat.
Proof.
  induction s1 as [|c s1 IH]; [done|].
  change (S (String.length (s1 +:+ s2)) = S (String.length s1 + String.length s2)).
  by rewrite IH.
Qed.

Lemma string_app_inv_tail (s1 s2 e : string) : s1 +:+ e = s2 +:+ e → s1 = s2.
Proof.
  revert s2. induction s1 as [|c s1 IH]; intros [|c' s2] Heq;
    rewrite ?string_app_cons, ?string_app_nil_l in Heq.
  - done.
  - apply (f_equal String.length) in Heq.
    cbn in Heq. rewrite string_length_app in Heq. lia.
  - apply (f_equal String.length) in Heq.
    cbn in Heq. rewrite string_length_app in Heq. lia.
  - injection Heq as -> Heq. f_equal. by apply IH.
Qed.

Lemma layout_inj (folder ext : string) (t t' : Tile) :
  layout folder t ext = layout folder t' ext → t = t'.
Proof.
  unfold layout. intros Heq. apply String.app_inj in Heq.
  rewrite !(string_app_cons "/" "") , !string_app_nil_l in Heq.
  injection Heq as Heq.
  apply app_slash_inj in Heq as [Hz Heq]; [|apply py_str_no_slash..].
  apply app_slash_inj in Heq as [Hx Heq]; [|apply py_str_no_slash..].
  apply string_app_inv_tail in Heq as Hy.
  apply (inj pretty) in Hz, Hx, Hy. destruct t, t'; cbn in *. by subst.
Qed.

Section targets.
Context `{PythonLib}.

(** X13: the tiles of a run get files of their own: no two tasks of the
    queue of [crawl_box] have the same target path. *)
Theorem crawl_box_targets_distinct (bb : Tile * Tile) (url folder : string)
    (queue : list Task) :
  crawl_box_tasks bb url folder = Ok queue →
  NoDup (task_target <$> queue) ∧
  ∀ task1 task2, task1 ∈ queue → task2 ∈ queue →
    task_target task1 = task_target task2 → task1 = task2.
Proof.
  intros Hq. pose proof (crawl_box_tasks_inv _ _ _ _ Hq) as Hall.
  pose proof (crawl_box_tasks_tiles _ _ _ _ Hq) as Htiles.
  assert (∀ task, task ∈ queue →
            task_target task = layout folder (task_tile task) (template_extension url))
    as Htarget.
  { intros task (i & Hi)%list_elem_of_lookup.
    destruct (Forall2_lookup_r _ _ _ _ _ Hall Hi) as (tile & _ & Htask).
    apply tile_task_inv in Htask as (-> & _ & Ht). done. }
  assert (NoDup (task_target <$> queue)) as Hnd.
  { assert (task_target <$> queue =
            (λ t, layout folder t (template_extension url)) <$> box_tiles bb) as ->.
    { rewrite <- Htiles, <- list_fmap_compose. apply list_fmap_ext.
      intros i task Hin. cbn. apply Htarget. by eapply list_elem_of_lookup_2. }
    apply NoDup_fmap_2; [|apply NoDup_box_tiles].
    intros t t'. apply layout_inj. }
  split; [done|].
  intros task1 task2 (i & Hi)%list_elem_of_lookup (j & Hj)%list_elem_of_lookup Heq.
  assert (i = j) as ->.
  { eapply NoDup_lookup; [exact Hnd|..]; rewrite list_lookup_fmap.
    - by rewrite Hi.
    - rewrite Hj. cbn. by rewrite Heq. }
  congruence.
Qed.

End targets.

Lemma crawl_box_targets_distinct_witness :
  NoDup (task_target <$> example_tasks) ∧
  ∀ task1 task2, task1 ∈ example_tasks → task2 ∈ example_tasks →
    task_target task1 = task_target task2 → task1 = task2.
Proof.
  apply (@crawl_box_targets_distinct example_lib (mkTile 0 0 1, mkTile 0 1 1)
           "https://example/{z}/{x}/{y}.png" "out").
  vm_compute. reflexivity.
Defined.

(** * The directory of a target *)

Lemma head_to_last_slash_no_slash (s : string) :
  has_char "/" s = false → head_to_last_slash s = "".
Proof.
  induction s as [|c s IH]; [done|]. cbn. intros [Hc Hs]%orb_false_iff.
  rewrite (IH Hs). apply bool_decide_eq_false in Hc.
  rewrite bool_decide_eq_false_2; [done|]. congruence.
Qed.

Lemma head_to_last_slash_app (p s : string) :
  has_char "/" s = false →
  head_to_last_slash (p +:+ String "/" s) = p +:+ "/".
Proof.
  intros Hs. induction p as [|c p IH].
  - rewrite !string_app_nil_l. cbn.
    by rewrite (head_to_last_slash_no_slash _ Hs).
  - rewrite !(string_app_cons c p). cbn [head_to_last_slash]. rewrite IH.
    destruct (p +:+ "/") eqn:Hp; [|done].
    by destruct p.
Qed.

Lemma rstrip_slashes_no_slash (s : string) :
  has_char "/" s = false → rstrip_slashes s = s.
Proof.
  induction s as [|c s IH]; [done|]. cbn. intros [Hc Hs]%orb_false_iff.
  rewrite (IH Hs). apply bool_decide_eq_false in Hc.
  rewrite (bool_decide_eq_false_2 (c = "/"%char)); [done|]. congruence.
Qed.

Lemma rstrip_slashes_app (p s : string) :
  has_char "/" s = false → s ≠ "" → rstrip_slashes (p +:+ s) = p +:+ s.
Proof.
  intros Hs Hne. induction p as [|c p IH].
  - rewrite string_app_nil_l. by apply rstrip_slashes_no_slash.
  - rewrite string_app_cons. cbn. rewrite IH.
    rewrite (bool_decide_eq_false_2 (p +:+ s = "")); [by rewrite andb_false_r|].
    destruct p; [by rewrite string_app_nil_l|done].
Qed.

Lemma rstrip_slashes_snoc (p : string) :
  rstrip_slashes (p +:+ "/") = rstrip_slashes p.
Proof.
  induction p as [|c p IH]; [done|].
  rewrite string_app_cons. cbn. by rewrite IH.
Qed.

Lemma all_slashes_app (s1 s2 : string) :
  all_slashes (s1 +:+ s2) = all_slashes s1 && all_slashes s2.
Proof.
  induction s1 as [|c s1 IH]; [done|].
  rewrite string_app_cons. cbn. rewrite IH. by rewrite andb_assoc.
Qed.

Lemma all_slashes_no_slash (s : string) :
  has_char "/" s = false → s ≠ "" → all_slashes s = false.
Proof.
  destruct s as [|c s]; [done|]. cbn. intros [Hc _]%orb_false_iff _.
  apply bool_decide_eq_false in Hc.
  rewrite (bool_decide_eq_false_2 (c = "/"%char)); [done|]. congruence.
Qed.

(** The directory of [{folder}/{z}/{x}/{y}{ext}] is [{folder}/{z}/{x}]. *)
Lemma dirname_layout (folder ext : string) (t : Tile) :
  has_char "/" ext = false →
  dirname (layout folder t ext) =
    folder +:+ "/" +:+ py_str (z t) +:+ "/" +:+ py_str (x t).
Proof.
  intros Hext. unfold dirname, layout.
  assert (folder +:+ "/" +:+ py_str (z t) +:+ "/" +:+ py_str (x t) +:+ "/" +:+
            py_str (y t) +:+ ext =
          (folder +:+ "/" +:+ py_str (z t) +:+ "/" +:+ py_str (x t)) +:+ "/" +:+
            (py_str (y t) +:+ ext)) as ->.
  { by rewrite !string_app_assoc. }
  rewrite (string_app_cons "/" "" (py_str (y t) +:+ ext)), string_app_nil_l.
  rewrite head_to_last_slash_app
    by (by rewrite has_char_app, py_str_no_slash, Hext).
  assert (folder +:+ "/" +:+ py_str (z t) +:+ "/" +:+ py_str (x t) =
          (folder +:+ "/" +:+ py_str (z t) +:+ "/") +:+ py_str (x t)) as ->.
  { by rewrite !string_app_assoc. }
  set (p := folder +:+ "/" +:+ py_str (z t) +:+ "/").
  assert (all_slashes ((p +:+ py_str (x t)) +:+ "/") = false) as ->.
  { rewrite !all_slashes_app.
    rewrite (all_slashes_no_slash (py_str (x t)));
      [by rewrite andb_false_r|apply py_str_no_slash|apply py_str_nonempty]. }
  rewrite bool_decide_eq_true_2.
  - cbn. rewrite rstrip_slashes_snoc.
    apply rstrip_slashes_app; [apply py_str_no_slash|apply py_str_nonempty].
  - intros Heq. apply (f_equal String.length) in Heq.
    rewrite string_length_app in Heq. cbn in Heq. lia.
Qed.

Section target_dir.
Context `{PythonLib}.

(** X14: the directory that [download_tile] makes for a task of
    [crawl_box] is [{folder}/{z}/{x}], whenever the suffix taken from the
    URL template holds no slash. *)
Theorem crawl_box_target_directory (bb : Tile * Tile) (url folder : string)
    (queue : list Task) (task : Task) :
  crawl_box_tasks bb url folder = Ok queue →
  task ∈ queue →
  has_char "/" (template_extension url) = false →
  dirname (task_target task) =
    folder +:+ "/" +:+ py_str (z (task_tile task)) +:+ "/" +:+
    py_str (x (task_tile task)).
Proof.
  intros Hq (i & Hi)%list_elem_of_lookup Hext.
  pose proof (crawl_box_tasks_inv _ _ _ _ Hq) as Hall.
  destruct (Forall2_lookup_r _ _ _ _ _ Hall Hi) as (tile & _ & Htask).
  apply tile_task_inv in Htask as (-> & _ & ->). by apply dirname_layout.
Qed.

End target_dir.

Lemma crawl_box_target_directory_witness :
  dirname "out/1/0/1.png" = "out" +:+ "/" +:+ py_str 1 +:+ "/" +:+ py_str 0.
Proof.
  apply (@crawl_box_target_directory example_lib (mkTile 0 0 1, mkTile 0 1 1)
           "https://example/{z}/{x}/{y}.png" "out" example_tasks
           (mkTask (mkTile 0 1 1) "https://example/1/0/1.png" "out/1/0/1.png")).
  - vm_compute. reflexivity.
  - apply list_elem_of_further, list_elem_of_here.
  - vm_compute. reflexivity.
Defined.

(** * [str.format] on the templates *)

Section format_props.
Context `{PythonLib}.

Lemma format_scan_text_char (t : Tile) (c : ascii) (rest : string) :
  c ≠ "{"%char → c ≠ "}"%char →
  format_scan t InText (String c rest) =
    (r ← format_scan t InText rest; Ok (String c r)).
Proof.
  intros Ho Hc.
  destruct c as [[] [] [] [] [] [] [] []]; try reflexivity; by destruct rest.
Qed.

Lemma format_scan_name_char (t : Tile) (acc : string) (c : ascii) (rest : string) :
  scanner_char c = false →
  format_scan t (InName acc) (String c rest) =
    format_scan t (InName (String c acc)) rest.
Proof.
  intros Hc.
  destruct c as [[] [] [] [] [] [] [] []]; try reflexivity; done.
Qed.

Lemma format_scan_open (t : Tile) (c : ascii) (rest : string) :
  c ≠ "{"%char →
  format_scan t InText (String "{" (String c rest)) =
    format_scan t (InName "") (String c rest).
Proof.
  intros Hc.
  destruct c as [[] [] [] [] [] [] [] []]; try reflexivity; done.
Qed.

Lemma format_scan_literal (t : Tile) (s : string) :
  has_char "{" s = false → has_char "}" s = false →
  format_scan t InText s = Ok s.
Proof.
  induction s as [|c s IH]; [done|]. cbn [has_char].
  intros [Ho Hos]%orb_false_iff [Hc Hcs]%orb_false_iff.
  apply bool_decide_eq_false in Ho, Hc.
  rewrite format_scan_text_char by congruence.
  by rewrite (IH Hos Hcs).
Qed.

Lemma format_scan_prefix (t : Tile) (pre s : string) :
  has_char "{" pre = false → has_char "}" pre = false →
  format_scan t InText (pre +:+ s) =
    (r ← format_scan t InText s; Ok (pre +:+ r)).
Proof.
  induction pre as [|c pre IH].
  - intros _ _. rewrite string_app_nil_l. by destruct (format_scan t InText s).
  - cbn [has_char]. intros [Ho Hos]%orb_false_iff [Hc Hcs]%orb_false_iff.
    apply bool_decide_eq_false in Ho, Hc.
    rewrite string_app_cons, format_scan_text_char by congruence.
    rewrite (IH Hos Hcs). by destruct (format_scan t InText s).
Qed.

Lemma rev_app_rev_app (s1 s2 s3 : string) :
  String.rev_app (String.rev_app s1 s2) s3 = String.rev_app s2 (s1 +:+ s3).
Proof.
  revert s2 s3. induction s1 as [|c s1 IH]; intros s2 s3; [done|].
  cbn [String.rev_app]. rewrite IH. cbn [String.rev_app]. by rewrite string_app_cons.
Qed.

Lemma format_scan_name (t : Tile) (acc name rest : string) :
  plain_name name = true →
  format_scan t (InName acc) (name +:+ String "}" rest) =
    (v ← format_field (String.rev (String.rev_app name acc)) t;
     r ← format_scan t InText rest;
     Ok (v +:+ r)).
Proof.
  revert acc. induction name as [|c name IH]; intros acc; [done|].
  cbn [plain_name]. intros [Hc Hname]%andb_true_iff. apply negb_true_iff in Hc.
  rewrite string_app_cons, format_scan_name_char by done.
  by rewrite (IH _ Hname).
Qed.

(** A replacement field with a plain name, after literal text. *)
Lemma format_scan_field (t : Tile) (pre name rest : string) :
  has_char "{" pre = false → has_char "}" pre = false →
  plain_name name = true →
  format_scan t InText (pre +:+ String "{" (name +:+ String "}" rest)) =
    (v ← format_field name t;
     r ← format_scan t InText rest;
     Ok (pre +:+ v +:+ r)).
Proof.
  intros Ho Hc Hname. rewrite format_scan_prefix by done.
  assert (format_scan t InText (String "{" (name +:+ String "}" rest)) =
          format_scan t (InName "") (name +:+ String "}" rest)) as ->.
  { destruct name as [|c name]; [done|]. rewrite string_app_cons.
    apply format_scan_open. cbn in Hname. apply andb_true_iff in Hname as [Hn _].
    apply negb_true_iff in Hn. unfold scanner_char in Hn.
    rewrite !orb_false_iff in Hn. destruct Hn as [[[[Hn _] _] _] _].
    by apply bool_decide_eq_false in Hn. }
  rewrite format_scan_name by done.
  unfold String.rev. rewrite rev_app_rev_app. cbn [String.rev_app].
  rewrite string_app_nil_r.
  destruct (format_field name t) as [v|e]; [|done]. cbn.
  by destruct (format_scan t InText rest).
Qed.

(** X15: a template without braces is returned as it is, whatever the tile. *)
Theorem replace_path_tile_literal (path : string) (tile : Tile) :
  has_char "{" path = false → has_char "}" path = false →
  replace_path_tile path tile = Ok path.
Proof. apply format_scan_literal. Qed.

(** X16: the fields are replaced from left to right: after literal text
    without braces, [{x}], [{y}] and [{z}] give the decimal text of the
    index of the tile, followed by what the remainder of the template
    gives, and an error in the remainder is the error of the whole. *)
Theorem replace_path_tile_field (pre rest : string) (tile : Tile) :
  has_char "{" pre = false → has_char "}" pre = false →
  replace_path_tile (pre +:+ "{x}" +:+ rest) tile =
    (r ← replace_path_tile rest tile; Ok (pre +:+ py_str (x tile) +:+ r)) ∧
  replace_path_tile (pre +:+ "{y}" +:+ rest) tile =
    (r ← replace_path_tile rest tile; Ok (pre +:+ py_str (y tile) +:+ r)) ∧
  replace_path_tile (pre +:+ "{z}" +:+ rest) tile =
    (r ← replace_path_tile rest tile; Ok (pre +:+ py_str (z tile) +:+ r)).
Proof.
  intros Ho Hc. unfold replace_path_tile.
  split_and!.
  - change (pre +:+ "{x}" +:+ rest)
      with (pre +:+ String "{" ("x" +:+ String "}" rest)).
    by rewrite (format_scan_field tile pre "x" rest Ho Hc).
  - change (pre +:+ "{y}" +:+ rest)
      with (pre +:+ String "{" ("y" +:+ String "}" rest)).
    by rewrite (format_scan_field tile pre "y" rest Ho Hc).
  - change (pre +:+ "{z}" +:+ rest)
      with (pre +:+ String "{" ("z" +:+ String "}" rest)).
    by rewrite (format_scan_field tile pre "z" rest Ho Hc).
Qed.

(** X17: a field of ASCII characters that is empty, or that names none
    of [x], [y] and [z] and is not a number, stops the replacement,
    whatever follows it in the template: the empty field with
    [IndexError], as there is no positional argument, the other with
    [KeyError]. *)
Theorem replace_path_tile_unknown_field (pre name rest : string) (tile : Tile) :
  has_char "{" pre = false → has_char "}" pre = false →
  plain_name name = true →
  all_ascii name = true →
  has_char "." name = false →
  name = "" ∨ all_digits name = false →
  name ≠ "x" → name ≠ "y" → name ≠ "z" →
  raises (replace_path_tile (pre +:+ String "{" (name +:+ String "}" rest)) tile)
         (if bool_decide (name = "") then IndexError else KeyError).
Proof.
  intros Ho Hc Hname Hascii Hdot Hkind Hx Hy Hz. unfold replace_path_tile.
  rewrite format_scan_field by done. unfold format_field.
  assert (has_char "[" name = false) as ->.
  { clear -Hname. induction name as [|c name IH]; [done|]. cbn in *.
    apply andb_true_iff in Hname as [Hc Hname]. rewrite (IH Hname), orb_false_r.
    apply negb_true_iff in Hc. unfold scanner_char in Hc.
    rewrite !orb_false_iff in Hc. destruct Hc as [[[[_ _] Hc] _] _].
    apply bool_decide_eq_false in Hc. apply bool_decide_eq_false. congruence. }
  rewrite Hdot, Hascii. cbn [orb negb].
  destruct Hkind as [->|Hdigits]; [by eexists|].
  rewrite Hdigits. rewrite !bool_decide_eq_false_2 by done.
  rewrite bool_decide_eq_false_2; [by eexists|]. by intros ->.
Qed.

End format_props.

Lemma replace_path_tile_literal_witness :
  @replace_path_tile example_lib "https://example/tile.png" (mkTile 3 5 4) =
    Ok "https://example/tile.png".
Proof.
  apply (@replace_path_tile_literal example_lib "https://example/tile.png"
           (mkTile 3 5 4)); reflexivity.
Defined.

Lemma replace_path_tile_field_witness :
  let tile := mkTile 3 5 4 in
  @replace_path_tile example_lib ("https://example/" +:+ "{x}" +:+ ".png") tile =
    (r ← @replace_path_tile example_lib ".png" tile;
     Ok ("https://example/" +:+ py_str (x tile) +:+ r)) ∧
  @replace_path_tile example_lib ("https://example/" +:+ "{y}" +:+ ".png") tile =
    (r ← @replace_path_tile example_lib ".png" tile;
     Ok ("https://example/" +:+ py_str (y tile) +:+ r)) ∧
  @replace_path_tile example_lib ("https://example/" +:+ "{z}" +:+ ".png") tile =
    (r ← @replace_path_tile example_lib ".png" tile;
     Ok ("https://example/" +:+ py_str (z tile) +:+ r)).
Proof.
  apply (@replace_path_tile_field example_lib "https://example/" ".png"
           (mkTile 3 5 4)); reflexivity.
Defined.

Lemma replace_path_tile_unknown_field_witness :
  raises (@replace_path_tile example_lib
            ("https://example/" +:+ String "{" ("q" +:+ String "}" "/{x}{"))
            (mkTile 3 5 4))
         KeyError.
Proof.
  apply (@replace_path_tile_unknown_field example_lib "https://example/" "q"
           "/{x}{" (mkTile 3 5 4));
    try reflexivity; try discriminate. by right.
Defined.

(** * Runs of the pool *)

Lemma nsteps_measure session num_workers k p p' :
  nsteps (step session num_workers) k p p' →
  (k + pool_measure p' ≤ pool_measure p)%nat.
Proof.
  induction 1 as [p|k p p1 p' [a Hstep] _ IH]; [lia|].
  apply step_decreases in Hstep. lia.
Qed.

Lemma pool_measure_init w tasks :
  pool_measure (crawl_box_pool w tasks) = (2 + 4 * length tasks)%nat.
Proof. unfold pool_measure. cbn. lia. Qed.

(** X18: the event loop of [crawl_box] has no infinite run: in every
    infinite sequence of states of the pool, some state is not followed
    by a turn of the loop. Every coroutine is resumed a bounded number of
    times, and every task is taken from the queue once. *)
Theorem crawl_box_terminates session num_workers (run : nat → pool) :
  ¬ ∀ n, step session num_workers (run n) (run (S n)).
Proof.
  intros Hrun.
  assert (∀ n, nsteps (step session num_workers) n (run 0%nat) (run n)) as Hsteps.
  { induction n as [|n IH]; [constructor|].
    replace (S n) with (n + 1)%nat by lia.
    eapply nsteps_trans; [exact IH|]. apply nsteps_once.
    replace (n + 1)%nat with (S n) by lia. apply Hrun. }
  pose proof (nsteps_measure _ _ _ _ _ (Hsteps (S (pool_measure (run 0%nat))))).
  lia.
Qed.

(** X19: with at least one worker, [crawl_box] cannot get stuck: a state
    of a run from which the event loop has no turn left is one in which
    [crawl_box] has returned and every task has finished, and such a state
    can be reached from every state of a run. *)
Theorem crawl_box_never_stuck session num_workers w tasks p :
  0 < num_workers →
  reachable session num_workers w tasks p →
  ((∀ p', ¬ step session num_workers p p') →
     p_main p = MReturned ∧ (p_done p).*1 ≡ₚ tasks) ∧
  ∃ p', rtc (step session num_workers) p p' ∧ p_main p' = MReturned ∧
        ∀ p'', ¬ step session num_workers p' p''.
Proof.
  intros Hn Hreach. split.
  - intros Hstuck. pose proof (reachable_inv _ _ _ _ _ Hreach) as Hinv.
    destruct (decide (p_main p = MReturned)) as [Hret|Hrun].
    + split; [done|]. by apply (returned_pool_all_done num_workers).
    + destruct (pool_progress session num_workers tasks p Hn Hinv Hrun)
        as (a & p' & Hstep).
      destruct (Hstuck p'). by exists a.
  - destruct (crawl_box_can_return session num_workers w tasks p Hn Hreach)
      as (p' & Hrtc & Hret).
    exists p'. split_and!; [done..|].
    intros p'' [a Hstep]. destruct a; cbn in Hstep; rewrite Hret in Hstep; done.
Qed.

Lemma crawl_box_never_stuck_witness :
  let p := run_schedule example_session 2 example_schedule example_pool in
  ((∀ p', ¬ step example_session 2 p p') →
     p_main p = MReturned ∧ (p_done p).*1 ≡ₚ example_tasks) ∧
  ∃ p', rtc (step example_session 2) p p' ∧ p_main p' = MReturned ∧
        ∀ p'', ¬ step example_session 2 p' p''.
Proof.
  apply (crawl_box_never_stuck example_session 2 empty_world example_tasks).
  - lia.
  - apply run_schedule_reachable.
Defined.

(** X20: with [num_workers] zero or negative and a task in the queue,
    [crawl_box] never returns: it creates no worker, and once it waits in
    [queue.join()] the event loop has nothing left to run. No request is
    made, no file written and nothing logged. *)
Theorem crawl_box_without_workers session num_workers w tasks p :
  num_workers ≤ 0 → tasks ≠ [] →
  reachable session num_workers w tasks p →
  p_main p ≠ MReturned ∧ p_workers p = [] ∧ p_world p = w ∧
  p_done p = [] ∧ p_queue p = tasks ∧
  (p_main p = MJoin → ∀ a, pool_step session num_workers a p = None).
Proof.
  intros Hn Hne Hreach. unfold reachable in Hreach.
  cut (p_workers p = [] ∧ p_unfinished p = length tasks ∧
       p_main p ≠ MReturned ∧ p_done p = [] ∧ p_queue p = tasks ∧ p_world p = w).
  { intros (Hws & Hunf & Hmain & Hd & Hq & Hw). split_and!; [done..|].
    intros Hjoin a. destruct a as [|i|i|]; cbn; rewrite Hjoin, ?Hws, ?Hunf; [done..|].
    destruct tasks; done. }
  eapply (rtc_ind_r (λ p, p_workers p = [] ∧ p_unfinished p = length tasks ∧
       p_main p ≠ MReturned ∧ p_done p = [] ∧ p_queue p = tasks ∧ p_world p = w));
    [|clear p Hreach|exact Hreach].
  - done.
  - intros p p' _ [a Hstep] (Hws & Hunf & Hmain & Hd & Hq & Hw).
    destruct a as [|i|i|]; cbn in Hstep.
    + destruct (p_main p); [|done..]. injection Hstep as <-. cbn.
      rewrite Z2Nat.nonpos by done. done.
    + rewrite Hws in Hstep. by destruct (p_main p).
    + rewrite Hws in Hstep. by destruct (p_main p).
    + rewrite Hunf in Hstep. destruct (p_main p), tasks; done.
Qed.

Lemma crawl_box_without_workers_witness :
  let p := run_schedule example_session 0 example_schedule example_pool in
  p_main p ≠ MReturned ∧ p_workers p = [] ∧ p_world p = empty_world ∧
  p_done p = [] ∧ p_queue p = example_tasks ∧
  (p_main p = MJoin → ∀ a, pool_step example_session 0 a p = None).
Proof.
  apply (crawl_box_without_workers example_session 0 empty_world example_tasks).
  - lia.
  - discriminate.
  - apply run_schedule_reachable.
Defined.

Lemma empty_queue_inv session num_workers w p :
  reachable session num_workers w [] p →
  p_world p = w ∧ p_done p = [] ∧ p_queue p = [] ∧ p_unfinished p = 0%nat ∧
  running p = [].
Proof.
  intros Hreach. pose proof (reachable_inv _ _ _ _ _ Hreach) as Hinv.
  pose proof (inv_lengths _ _ _ Hinv) as Hlen. cbn in Hlen.
  assert (p_done p = [] ∧ running p = [] ∧ p_queue p = []) as (Hd & Hr & Hq).
  { split_and!; apply length_zero_iff_nil; lia. }
  pose proof (inv_unfinished _ _ _ Hinv) as Hunf. rewrite Hr, Hq in Hunf.
  split_and!; [|done..].
  clear Hinv Hlen Hd Hr Hq Hunf. unfold reachable in Hreach.
  eapply (rtc_ind_r (λ p, p_world p = w)); [|clear p Hreach|exact Hreach]; [done|].
  intros p p' Hreach [a Hstep] Hw.
  pose proof (reachable_inv _ _ _ _ _ Hreach) as Hinv.
  pose proof (inv_lengths _ _ _ Hinv) as Hlen. cbn in Hlen.
  assert (running p = []) as Hr by (apply length_zero_iff_nil; lia).
  assert (p_queue p = []) as Hq by (apply length_zero_iff_nil; lia).
  destruct a as [|i|i|]; cbn in Hstep.
  - destruct (p_main p); [|done..]. by injection Hstep as <-.
  - rewrite Hq in Hstep. by destruct (p_main p), (p_workers p !! i) as [[]|].
  - destruct (p_main p); [done| |done].
    destruct (p_workers p !! i) as [[|task phase| |]|] eqn:Hi; try done.
    exfalso. rewrite running_eq in Hr.
    destruct (omap_insert_split (p_workers p) i (WRunning task phase) WIdle Hi)
      as [Heq _].
    rewrite Hr in Heq. cbn in Heq. by destruct (omap worker_task (take i (p_workers p))).
  - destruct (p_main p); [done| |done]. destruct (p_unfinished p); [|done].
    by injection Hstep as <-.
Qed.

Section empty_box.
Context `{PythonLib}.

(** X21: when the second corner lies left of or above the first, the
    queue of [crawl_box] is empty and [crawl_box] returns, even without a
    worker, having made no request, written no file and logged nothing. *)
Theorem crawl_box_reversed_corners session num_workers w
    (bb : Tile * Tile) (url folder : string) (tasks : list Task) (p : pool) :
  x bb.2 < x bb.1 ∨ y bb.2 < y bb.1 →
  crawl_box_tasks bb url folder = Ok tasks →
  reachable session num_workers w tasks p →
  tasks = [] ∧ p_world p = w ∧ p_done p = [] ∧
  p_main (run_schedule session num_workers [ASpawn; AJoin] p) = MReturned ∧
  p_world (run_schedule session num_workers [ASpawn; AJoin] p) = w.
Proof.
  intros Hrev Htasks Hreach.
  assert (tasks = []) as ->.
  { apply crawl_box_tasks_tiles in Htasks. destruct bb as [c1 c2].
    rewrite box_tiles_empty in Htasks by done. by destruct tasks. }
  destruct (empty_queue_inv _ _ _ _ Hreach) as (Hw & Hd & Hq & Hunf & Hr).
  split_and!; [done..| |].
  - cbn. destruct (p_main p) eqn:Hmain; cbn; rewrite ?Hmain; cbn; rewrite ?Hunf; done.
  - cbn. destruct (p_main p) eqn:Hmain; cbn; rewrite ?Hmain; cbn; rewrite ?Hunf; done.
Qed.

End empty_box.

Lemma crawl_box_reversed_corners_witness :
  let p := crawl_box_pool empty_world [] in
  @nil Task = [] ∧ p_world p = empty_world ∧ p_done p = [] ∧
  p_main (run_schedule example_session 0 [ASpawn; AJoin] p) = MReturned ∧
  p_world (run_schedule example_session 0 [ASpawn; AJoin] p) = empty_world.
Proof.
  apply (@crawl_box_reversed_corners example_lib example_session 0 empty_world
           (mkTile 1 0 1, mkTile 0 0 1) "https://example/{z}/{x}/{y}.png" "out").
  - left. cbn. lia.
  - vm_compute. reflexivity.
  - apply rtc_refl.
Defined.

(** X22: the queue is served first in, first out: in every state of a
    run the tasks still queued are a suffix of the tasks in the order in
    which [crawl_box] made them, and the ones before that suffix are
    exactly the finished and the running ones. *)
Theorem queue_first_in_first_out session num_workers w tasks p :
  reachable session num_workers w tasks p →
  ∃ started, tasks = started ++ p_queue p ∧
             started ≡ₚ (p_done p).*1 ++ running p.
Proof.
  intros Hinv%reachable_inv. destruct (inv_fifo _ _ _ Hinv) as [started Hfifo].
  exists started. split; [done|].
  pose proof (inv_tasks _ _ _ Hinv) as Htasks.
  rewrite Hfifo, app_assoc in Htasks at 1.
  by apply Permutation_app_inv_r in Htasks.
Qed.

Lemma queue_first_in_first_out_witness :
  let p := run_schedule example_session 1 [ASpawn; AGet 0%nat; ARun 0%nat]
             example_pool in
  ∃ started, example_tasks = started ++ p_queue p ∧
             started ≡ₚ (p_done p).*1 ++ running p.
Proof.
  apply (queue_first_in_first_out example_session 1 empty_world example_tasks).
  apply run_schedule_reachable.
Defined.

(** * The log, the requests and the files of a run *)



Lemma worker_finish_done i task r w p :
  p_done (worker_finish i task r w p) = p_done p ++ [(task, r)].
Proof. unfold worker_finish. by destruct (p_unfinished p). Qed.






(** ** Requests *)

Section omap_insert.
Context {A B : Type} (f : A → option B).

Lemma omap_insert_perm (l : list A) (i : nat) (old new : A) :
  l !! i = Some old →
  ∃ others, omap f l ≡ₚ option_list (f old) ++ others ∧
            omap f (<[i := new]> l) ≡ₚ option_list (f new) ++ others.
Proof.
  intros Hi. exists (omap f (take i l) ++ omap f (drop (S i) l)). split.
  - rewrite <- (take_drop_middle l i old Hi) at 1. rewrite omap_app.
    cbn [omap list_omap]. destruct (f old); cbn; by rewrite ?Permutation_middle.
  - rewrite insert_take_drop by (by eapply lookup_lt_Some). rewrite omap_app.
    cbn [omap list_omap]. destruct (f new); cbn; by rewrite ?Permutation_middle.
Qed.

End omap_insert.

Lemma requested_running (ws : list worker_state) :
  omap requested ws ⊆+ omap worker_task ws.
Proof.
  induction ws as [|[|task [| |read]| |] ws IH]; cbn; try done.
  - by constructor.
  - by apply submseteq_skip.
  - by apply submseteq_skip.
Qed.

Lemma requested_none (ws : list worker_state) :
  omap worker_task ws = [] → omap requested ws = [].
Proof.
  intros Hr. pose proof (requested_running ws) as Hsub. rewrite Hr in Hsub.
  by apply submseteq_nil_r in Hsub.
Qed.

Lemma requested_cancel (ws : list worker_state) : omap requested (cancel <$> ws) = [].
Proof. apply requested_none, running_cancel. Qed.

Lemma requested_idle (n : nat) : omap requested (replicate n WIdle) = [].
Proof. apply requested_none, running_replicate_idle. Qed.

Lemma worker_finish_workers i task r w p :
  ∃ new, p_workers (worker_finish i task r w p) = <[i := new]> (p_workers p) ∧
         worker_task new = None ∧ requested new = None.
Proof.
  unfold worker_finish. destruct (p_unfinished p); cbn; eauto.
Qed.

Lemma worker_finish_world i task r w p :
  w_requests (p_world (worker_finish i task r w p)) = w_requests w ∧
  w_fs (p_world (worker_finish i task r w p)) = w_fs w.
Proof.
  unfold worker_finish. by destruct r as [[]|e], (p_unfinished p).
Qed.

Lemma requests_inv_step session num_workers tasks w a p p' :
  pool_inv num_workers tasks p →
  requests_inv w p →
  pool_step session num_workers a p = Some p' →
  requests_inv w p'.
Proof.
  intros Hinv (issued & answered & Hreq & Hperm & Hsub) Hstep.
  destruct a as [|i|i|]; cbn in Hstep.
  - destruct (p_main p) eqn:Hmain; [|done..]. injection Hstep as <-.
    exists issued, answered. cbn. split_and!; [done| |done].
    pose proof (inv_workers _ _ _ Hinv) as Hlen. rewrite Hmain in Hlen.
    apply length_zero_iff_nil in Hlen. rewrite Hlen in Hperm.
    by rewrite requested_idle.
  - destruct (p_main p); [done| |done].
    destruct (p_workers p !! i) as [[]|] eqn:Hi; [|done..].
    destruct (p_queue p) as [|task queue]; [done|]. injection Hstep as <-.
    exists issued, answered. cbn. split_and!; [done| |done].
    destruct (omap_insert_perm requested (p_workers p) i WIdle
                (WRunning task PhStart) Hi) as (others & Hold & Hnew).
    by rewrite Hnew, <- Hold.
  - destruct (p_main p); [done| |done].
    destruct (p_workers p !! i) as [[|task phase| |]|] eqn:Hi; try done.
    destruct (download_step _ _ _ _ _) as [w' [next|r]] eqn:Hdl;
      injection Hstep as <-.
    + destruct (omap_insert_perm requested (p_workers p) i (WRunning task phase)
                  (WRunning task next) Hi) as (others & Hold & Hnew).
      destruct phase as [| |read]; cbn in Hdl.
      * destruct (makedirs _ _) as [fs|e]; [|done]. injection Hdl as <- <-.
        exists (issued ++ [task]), answered. cbn. split_and!; [| |done].
        -- by rewrite Hreq, fmap_app, <- app_assoc.
        -- rewrite Hnew, Hperm, Hold. cbn. rewrite <- app_assoc.
           f_equiv. symmetry. apply Permutation_cons_append.
      * destruct (session _) as [e|status rd]; [done|].
        case_bool_decide; [|done]. destruct (open_wb _ _); [|done].
        injection Hdl as <- <-. exists issued, answered. cbn.
        split_and!; [done| |done]. by rewrite Hnew, Hperm, Hold.
      * by destruct read.
    + destruct (worker_finish_workers i task r w' p) as (new & Hws & Hnt & Hnr).
      destruct (omap_insert_perm requested (p_workers p) i (WRunning task phase)
                  new Hi) as (others & Hold & Hnew).
      destruct (worker_finish_world i task r w' p) as [Hwr _].
      rewrite Hnr in Hnew. cbn in Hnew.
      destruct phase as [| |read].
      * exists issued, answered. rewrite Hwr, Hws, worker_finish_done.
        cbn in Hdl. destruct (makedirs _ _) as [fs|e]; [done|].
        injection Hdl as <- <-. split_and!; [done|..].
        -- by rewrite Hnew, Hperm, Hold.
        -- rewrite fmap_app. by apply submseteq_inserts_r.
      * exists issued, (answered ++ [task]). rewrite Hwr, Hws, worker_finish_done.
        assert (w' = p_world p) as ->.
        { cbn in Hdl. destruct (session _) as [e|status rd]; [by injection Hdl|].
          case_bool_decide; [|by injection Hdl].
          destruct (open_wb _ _); [done|by injection Hdl]. }
        split_and!; [done|..].
        -- rewrite Hnew, Hperm, Hold. cbn. by rewrite <- app_assoc.
        -- rewrite fmap_app. cbn. by apply submseteq_app.
      * exists issued, (answered ++ [task]). rewrite Hwr, Hws, worker_finish_done.
        assert (w_requests w' = w_requests (p_world p)) as ->.
        { cbn in Hdl. destruct read; by injection Hdl as <- <-. }
        split_and!; [done|..].
        -- rewrite Hnew, Hperm, Hold. cbn. by rewrite <- app_assoc.
        -- rewrite fmap_app. cbn. by apply submseteq_app.
  - destruct (p_main p); [done| |done].
    destruct (p_unfinished p) eqn:Hunf; [|done]. injection Hstep as <-.
    exists issued, answered. cbn. split_and!; [done| |done].
    rewrite requested_cancel.
    pose proof (inv_unfinished _ _ _ Hinv) as Hu. rewrite Hunf in Hu.
    assert (running p = []) as Hr by (apply length_zero_iff_nil; lia).
    rewrite running_eq in Hr. by rewrite (requested_none _ Hr) in Hperm.
Qed.

Lemma reachable_requests_inv session num_workers w tasks p :
  reachable session num_workers w tasks p → requests_inv w p.
Proof.
  intros Hreach. unfold reachable in Hreach.
  eapply (rtc_ind_r (requests_inv w)); [|clear p Hreach|exact Hreach].
  - exists [], []. cbn. by rewrite app_nil_r.
  - intros p p' Hreach [a Hstep] IH.
    eapply requests_inv_step; [|done..]. by eapply reachable_inv.
Qed.

(** X24: a run sends one request at most for every task, and none for
    what is not a task: the requests added to those made before are the
    source URLs of a choice of the tasks that have been started, each of
    them taken as often as it is in the queue of [crawl_box]. *)
Theorem one_request_per_task session num_workers w tasks p :
  reachable session num_workers w tasks p →
  ∃ issued,
    w_requests (p_world p) = w_requests w ++ (task_source <$> issued) ∧
    issued ⊆+ (p_done p).*1 ++ running p ∧
    issued ⊆+ tasks ∧
    (length (w_requests (p_world p)) ≤ length (w_requests w) + length tasks)%nat.
Proof.
  intros Hreach.
  destruct (reachable_requests_inv _ _ _ _ _ Hreach)
    as (issued & answered & Hreq & Hperm & Hsub).
  pose proof (reachable_inv _ _ _ _ _ Hreach) as Hinv.
  assert (issued ⊆+ (p_done p).*1 ++ running p) as Hstarted.
  { rewrite Hperm. apply submseteq_app; [done|]. apply requested_running. }
  assert (issued ⊆+ tasks) as Htasks.
  { rewrite (inv_tasks _ _ _ Hinv), app_assoc. by apply submseteq_inserts_r. }
  exists issued. split_and!; [done..|].
  rewrite Hreq, length_app, length_fmap.
  apply submseteq_length in Htasks. lia.
Qed.

Lemma one_request_per_task_witness :
  let p := run_schedule example_session 2 example_schedule example_pool in
  ∃ issued,
    w_requests (p_world p) = w_requests empty_world ++ (task_source <$> issued) ∧
    issued ⊆+ (p_done p).*1 ++ running p ∧
    issued ⊆+ example_tasks ∧
    (length (w_requests (p_world p)) ≤
       length (w_requests empty_world) + length example_tasks)%nat.
Proof.
  apply (one_request_per_task example_session 2 empty_world example_tasks).
  apply run_schedule_reachable.
Defined.

(** ** Files *)

Lemma download_step_frame session source target phase w w' act :
  download_step session source target phase w = (w', act) →
  (∀ path, path ≠ target →
     fs_files (w_fs w') !! path = fs_files (w_fs w) !! path) ∧
  dom (fs_files (w_fs w)) ⊆ dom (fs_files (w_fs w')) ∧
  fs_dirs (w_fs w) ⊆ fs_dirs (w_fs w') ∧
  (∀ d, d ∈ fs_dirs (w_fs w') →
        d ∈ fs_dirs (w_fs w) ∨ d ∈ ancestors (dirname target)).
Proof.
  destruct phase as [| |read]; cbn.
  - destruct (makedirs _ _) as [fs|e] eqn:Hmk; intros [= <- <-]; cbn.
    + rewrite (makedirs_files _ _ _ Hmk), (makedirs_dirs _ _ _ Hmk).
      split_and!; [done|done|set_solver|set_solver].
    + split_and!; auto.
  - destruct (session source) as [e|status rd].
    { intros [= <- <-]. split_and!; auto. }
    case_bool_decide; [|intros [= <- <-]; split_and!; auto].
    destruct (open_wb _ _) as [fs|e] eqn:Hopen; intros [= <- <-]; cbn.
    + apply open_wb_Ok_inv in Hopen as ->. cbn. split_and!; auto.
      * intros path Hne. by rewrite lookup_insert_ne.
      * rewrite dom_insert_L. set_solver.
    + split_and!; auto.
  - destruct read as [body|e]; intros [= <- <-]; cbn.
    + split_and!; auto.
      * intros path Hne. by rewrite lookup_insert_ne.
      * rewrite dom_insert_L. set_solver.
    + split_and!; auto.
Qed.

Lemma running_worker_task num_workers tasks p i task phase :
  pool_inv num_workers tasks p →
  p_workers p !! i = Some (WRunning task phase) →
  task ∈ tasks.
Proof.
  intros Hinv Hi. rewrite (inv_tasks _ _ _ Hinv).
  apply elem_of_app. right. apply elem_of_app. left.
  rewrite running_eq. apply list_elem_of_omap.
  exists (WRunning task phase). split; [|done]. by eapply list_elem_of_lookup_2.
Qed.

(** What a run changes in the model, by path string. *)
Lemma crawl_box_changes session num_workers w tasks p :
  reachable session num_workers w tasks p →
  (∀ path, path ∉ task_target <$> tasks →
     fs_files (w_fs (p_world p)) !! path = fs_files (w_fs w) !! path) ∧
  dom (fs_files (w_fs w)) ⊆ dom (fs_files (w_fs (p_world p))) ∧
  fs_dirs (w_fs w) ⊆ fs_dirs (w_fs (p_world p)) ∧
  (∀ d, d ∈ fs_dirs (w_fs (p_world p)) →
        d ∈ fs_dirs (w_fs w) ∨
        ∃ task, task ∈ tasks ∧ d ∈ ancestors (dirname (task_target task))).
Proof.
  intros Hreach. unfold reachable in Hreach.
  eapply (rtc_ind_r (λ p,
    (∀ path, path ∉ task_target <$> tasks →
       fs_files (w_fs (p_world p)) !! path = fs_files (w_fs w) !! path) ∧
    dom (fs_files (w_fs w)) ⊆ dom (fs_files (w_fs (p_world p))) ∧
    fs_dirs (w_fs w) ⊆ fs_dirs (w_fs (p_world p)) ∧
    (∀ d, d ∈ fs_dirs (w_fs (p_world p)) →
          d ∈ fs_dirs (w_fs w) ∨
          ∃ task, task ∈ tasks ∧ d ∈ ancestors (dirname (task_target task)))));
    [|clear p Hreach|exact Hreach].
  - split_and!; auto.
  - intros p p' Hreach [a Hstep] IH.
    pose proof (reachable_inv _ _ _ _ _ Hreach) as Hinv.
    destruct a as [|i|i|]; cbn in Hstep.
    + destruct (p_main p); [|done..]. by injection Hstep as <-.
    + destruct (p_main p); [done| |done].
      destruct (p_workers p !! i) as [[]|]; [|done..].
      destruct (p_queue p); [done|]. by injection Hstep as <-.
    + destruct (p_main p); [done| |done].
      destruct (p_workers p !! i) as [[|task phase| |]|] eqn:Hi; try done.
      pose proof (running_worker_task _ _ _ _ _ _ Hinv Hi) as Hin.
      destruct IH as (Hfiles & Hdom & Hdirs & Hnew).
      assert (∀ w', (∃ act, download_step session (task_source task)
                       (task_target task) phase (p_world p) = (w', act)) →
        (∀ path, path ∉ task_target <$> tasks →
           fs_files (w_fs w') !! path = fs_files (w_fs w) !! path) ∧
        dom (fs_files (w_fs w)) ⊆ dom (fs_files (w_fs w')) ∧
        fs_dirs (w_fs w) ⊆ fs_dirs (w_fs w') ∧
        (∀ d, d ∈ fs_dirs (w_fs w') →
              d ∈ fs_dirs (w_fs w) ∨
              ∃ task, task ∈ tasks ∧ d ∈ ancestors (dirname (task_target task))))
        as Hframe.
      { intros w' [act Hdl].
        apply download_step_frame in Hdl as (Hf & Hd1 & Hd2 & Hd3).
        split_and!.
        - intros path Hpath. rewrite Hf; [by apply Hfiles|].
          intros ->. apply Hpath. by apply list_elem_of_fmap_2.
        - set_solver.
        - set_solver.
        - intros d [Hd|Hd]%Hd3; [by apply Hnew|]. right. by exists task. }
      destruct (download_step _ _ _ _ _) as [w' [next|r]] eqn:Hdl;
        injection Hstep as <-.
      * cbn. apply Hframe. by eexists.
      * destruct (worker_finish_world i task r w' p) as [_ ->].
        apply Hframe. by eexists.
    + destruct (p_main p); [done| |done]. destruct (p_unfinished p); [|done].
      by injection Hstep as <-.
Qed.

(** The components of the paths that [crawl_box] builds. *)
Lemma split_slash_no_slash (s : string) :
  has_char "/" s = false → split_slash s = [s].
Proof.
  induction s as [|c s IH]; [done|]. cbn [has_char].
  intros [Hc Hs]%orb_false_iff. apply bool_decide_eq_false in Hc.
  cbn [split_slash]. rewrite (IH Hs).
  rewrite bool_decide_eq_false_2; [done|]. congruence.
Qed.

Lemma split_slash_app (p s : string) :
  split_slash (p +:+ String "/" s) = split_slash p ++ split_slash s.
Proof.
  induction p as [|c p IH]; [done|].
  rewrite string_app_cons. cbn [split_slash]. rewrite IH.
  case_bool_decide; [done|].
  destruct (split_slash p) as [|component components] eqn:Hp; [|done].
  exfalso. clear -Hp. destruct p as [|c' p']; [done|].
  cbn in Hp. case_bool_decide; [done|]. by destruct (split_slash p').
Qed.

Lemma normal_path_app (p s : string) :
  normal_path (p +:+ String "/" s) = normal_path p && normal_path s.
Proof. unfold normal_path. by rewrite split_slash_app, forallb_app. Qed.

Lemma pretty_N_char_not_dot (n : N) : pretty_N_char n ≠ "."%char.
Proof. unfold pretty_N_char. by repeat case_match. Qed.

Lemma pretty_N_go_no_dot (n : N) (s : string) :
  has_char "." s = false → has_char "." (pretty_N_go n s) = false.
Proof.
  revert s. induction (N.lt_wf_0 n) as [n _ IH]; intros s Hs.
  assert (n = 0 ∨ 0 < n)%N as [->|Hpos] by lia.
  - by rewrite pretty_N_go_0.
  - rewrite pretty_N_go_step by done. apply IH; [by apply N.div_lt|].
    cbn. rewrite Hs, orb_false_r. apply bool_decide_eq_false_2.
    intros Heq. by apply (pretty_N_char_not_dot (n `mod` 10)%N).
Qed.

Lemma py_str_no_dot (n : Z) : has_char "." (py_str n) = false.
Proof.
  assert (∀ m : N, has_char "." (pretty m) = false) as HN.
  { intros m. unfold pretty, pretty_N. case_decide; [done|].
    by apply pretty_N_go_no_dot. }
  unfold py_str, pretty, pretty_Z. destruct n as [|p|p]; [done|..].
  - apply HN.
  - rewrite has_char_app. cbn. apply HN.
Qed.

(** A decimal number followed by a suffix without a slash is a proper
    component. *)
Lemma normal_path_number (n : Z) (ext : string) :
  has_char "/" ext = false → normal_path (py_str n +:+ ext) = true.
Proof.
  intros Hext. unfold normal_path.
  rewrite split_slash_no_slash by (by rewrite has_char_app, py_str_no_slash).
  cbn. rewrite andb_true_r. apply negb_true_iff, bool_decide_eq_false_2.
  pose proof (py_str_nonempty n) as Hne. pose proof (py_str_no_dot n) as Hdot.
  destruct (py_str n) as [|c s]; [done|]. rewrite string_app_cons.
  cbn in Hdot. apply orb_false_iff in Hdot as [Hc _].
  apply bool_decide_eq_false in Hc.
  intros [Heq|[Heq|Heq]]; [done|injection Heq as -> _..]; done.
Qed.

(** The targets of [crawl_box] are normalised when the folder is. *)
Lemma layout_normal (folder ext : string) (t : Tile) :
  normal_path folder = true → has_char "/" ext = false →
  normal_path (layout folder t ext) = true.
Proof.
  intros Hfolder Hext. unfold layout.
  rewrite !(string_app_cons "/" ""), !string_app_nil_l.
  rewrite !normal_path_app, Hfolder. cbn [andb].
  rewrite <- (string_app_nil_r (py_str (z t))), <- (string_app_nil_r (py_str (x t))).
  by rewrite !normal_path_number.
Qed.

Lemma crawl_box_targets_normal `{PythonLib} (bb : Tile * Tile)
    (url folder : string) (queue : list Task) :
  crawl_box_tasks bb url folder = Ok queue →
  normal_path folder = true →
  has_char "/" (template_extension url) = false →
  Forall (λ task, normal_path (task_target task) = true) queue.
Proof.
  intros Hq Hfolder Hext. apply Forall_forall.
  intros task (i & Hi)%list_elem_of_lookup.
  pose proof (crawl_box_tasks_inv _ _ _ _ Hq) as Hall.
  destruct (Forall2_lookup_r _ _ _ _ _ Hall Hi) as (tile & _ & Htask).
  apply tile_task_inv in Htask as (_ & _ & ->). by apply layout_normal.
Qed.

(** X25: a run of [crawl_box] whose targets are normalised paths, as
    they are when the target folder is ([crawl_box_targets_normal]),
    leaves every file alone that is
    not the target of one of its tasks, among the files at normalised
    paths, removes no file and no directory, and makes no directory
    other than the directories of its targets and their ancestors. *)
Theorem crawl_box_frame session num_workers w tasks p :
  Forall (λ task, normal_path (task_target task) = true) tasks →
  reachable session num_workers w tasks p →
  (∀ path, normal_path path = true → path ∉ task_target <$> tasks →
     fs_files (w_fs (p_world p)) !! path = fs_files (w_fs w) !! path) ∧
  dom (fs_files (w_fs w)) ⊆ dom (fs_files (w_fs (p_world p))) ∧
  fs_dirs (w_fs w) ⊆ fs_dirs (w_fs (p_world p)) ∧
  (∀ d, d ∈ fs_dirs (w_fs (p_world p)) →
        d ∈ fs_dirs (w_fs w) ∨
        ∃ task, task ∈ tasks ∧ d ∈ ancestors (dirname (task_target task))).
Proof.
  intros _ (Hfiles & Hrest)%crawl_box_changes. split; [|done].
  intros path _. apply Hfiles.
Qed.

Lemma crawl_box_frame_witness :
  let p := run_schedule example_session 2 example_schedule example_pool in
  (∀ path, normal_path path = true → path ∉ task_target <$> example_tasks →
     fs_files (w_fs (p_world p)) !! path = fs_files (w_fs empty_world) !! path) ∧
  dom (fs_files (w_fs empty_world)) ⊆ dom (fs_files (w_fs (p_world p))) ∧
  fs_dirs (w_fs empty_world) ⊆ fs_dirs (w_fs (p_world p)) ∧
  (∀ d, d ∈ fs_dirs (w_fs (p_world p)) →
        d ∈ fs_dirs (w_fs empty_world) ∨
        ∃ task, task ∈ example_tasks ∧ d ∈ ancestors (dirname (task_target task))).
Proof.
  apply (crawl_box_frame example_session 2 empty_world example_tasks).
  - by repeat constructor.
  - apply run_schedule_reachable.
Defined.

(** * One worker *)

Lemma run_in_order_snoc session tasks task w :
  run_in_order session (tasks ++ [task]) w =
    let '(w1, results) := run_in_order session tasks w in
    let '(w2, r) := await_task session task w1 in
    (w2, results ++ [(task, r)]).
Proof.
  revert w. induction tasks as [|t tasks IH]; intros w; cbn.
  - by destruct (await_task session task w).
  - destruct (await_task session t w) as [w1 r]. rewrite IH.
    destruct (run_in_order session tasks w1) as [w2 results].
    by destruct (await_task session task w2).
Qed.

Lemma in_order_inv_step session w tasks a p p' :
  pool_inv 1 tasks p →
  in_order_inv session w tasks p →
  pool_step session 1 a p = Some p' →
  in_order_inv session w tasks p'.
Proof.
  intros Hinv (w0 & Hseq & Hws) Hstep.
  pose proof (inv_workers _ _ _ Hinv) as Hlen.
  assert (length (p_workers p) ≤ 1)%nat as Hle.
  { rewrite Hlen. destruct (p_main p); cbn; lia. }
  clear Hlen.
  destruct a as [|i|i|]; cbn in Hstep.
  - destruct (p_main p) eqn:Hmain; [|done..]. injection Hstep as <-.
    pose proof (inv_workers _ _ _ Hinv) as Hlen. rewrite Hmain in Hlen.
    apply length_zero_iff_nil in Hlen. rewrite Hlen in Hws.
    exists w0. by cbn.
  - destruct (p_main p); [done| |done].
    destruct (p_workers p) as [|ws0 [|ws1 rest]] eqn:Hworkers;
      [done| |cbn in Hle; lia].
    destruct i as [|i]; [|done]. cbn in Hstep. destruct ws0; [|done..].
    destruct (p_queue p) as [|task queue] eqn:Hq; [done|]. injection Hstep as <-.
    destruct Hws as [Htasks Hw]. exists w0. cbn. split; [done|].
    split; [done|]. rewrite Hw. apply run_coroutine_download_tile.
  - destruct (p_main p); [done| |done].
    destruct (p_workers p) as [|ws0 [|ws1 rest]] eqn:Hworkers;
      [done| |cbn in Hle; lia].
    destruct i as [|i]; [|done]. cbn in Hstep.
    destruct ws0 as [|task phase| |]; try done.
    destruct Hws as [Htasks Hco].
    destruct (download_step _ _ _ _ _) as [w' [next|r]] eqn:Hdl;
      injection Hstep as <-.
    + exists w0. cbn. split; [done|]. split; [done|]. rewrite <- Hco.
      destruct phase as [| |read]; cbn in Hdl |- *.
      * destruct (makedirs _ _); [|done]. by injection Hdl as <- <-.
      * destruct (session _) as [e|status rd]; [done|].
        case_bool_decide; [|done]. destruct (open_wb _ _); [|done].
        by injection Hdl as <- <-.
      * by destruct read.
    + assert (download_tile session (task_source task) (task_target task) w0 =
              (w', r)) as Hdone.
      { destruct phase; cbn [phase_rank run_coroutine] in Hco; rewrite Hdl in Hco;
          by injection Hco. }
      pose proof (inv_unfinished _ _ _ Hinv) as Hunf.
      rewrite running_eq, Hworkers in Hunf. cbn in Hunf.
      unfold worker_finish. destruct (p_unfinished p) as [|u]; [lia|].
      rewrite Hworkers. cbn.
      exists (match r with
              | Ok _ => w'
              | Raise e => logging ERROR ("Error in task: " +:+ exc_msg e) w'
              end).
      split; [|split; [|done]].
      * cbn [p_done]. rewrite fmap_app. cbn [fmap list_fmap fst].
        rewrite run_in_order_snoc, Hseq.
        unfold await_task. by rewrite Hdone.
      * cbn [p_workers p_done p_queue]. rewrite fmap_app. cbn [fmap list_fmap fst].
        by rewrite <- app_assoc.
  - destruct (p_main p); [done| |done].
    destruct (p_unfinished p) eqn:Hunf; [|done]. injection Hstep as <-.
    pose proof (inv_unfinished _ _ _ Hinv) as Hu. rewrite Hunf in Hu.
    assert (running p = []) as Hr by (apply length_zero_iff_nil; lia).
    rewrite running_eq in Hr.
    exists w0. cbn. split; [done|].
    destruct (p_workers p) as [|ws0 [|ws1 rest]]; [done| |cbn in Hle; lia].
    destruct ws0; done.
Qed.

Lemma reachable_in_order_inv session w tasks p :
  reachable session 1 w tasks p → in_order_inv session w tasks p.
Proof.
  intros Hreach. unfold reachable in Hreach.
  eapply (rtc_ind_r (in_order_inv session w tasks)); [|clear p Hreach|exact Hreach].
  - by exists w.
  - intros p p' Hreach [a Hstep] IH.
    eapply in_order_inv_step; [|done..]. by eapply reachable_inv.
Qed.

(** X26: with one worker the tiles are downloaded one after the other in
    the order of the queue: the coroutines that have ended are the first
    tasks of the queue, with the results that [download_tile] gives when
    each is run to its end before the next starts, and when [crawl_box]
    returns, the disk, the requests and the log are those of that
    sequence for the entire queue. *)
Theorem one_worker_runs_in_order session w tasks p :
  reachable session 1 w tasks p →
  ∃ w0, run_in_order session (p_done p).*1 w = (w0, p_done p) ∧
        (p_done p).*1 `prefix_of` tasks ∧
        (p_main p = MReturned →
           run_in_order session tasks w = (p_world p, p_done p)).
Proof.
  intros Hreach.
  destruct (reachable_in_order_inv _ _ _ _ Hreach) as (w0 & Hseq & Hws).
  pose proof (reachable_inv _ _ _ _ _ Hreach) as Hinv.
  exists w0. split; [done|]. split.
  - destruct (p_workers p) as [|[|task phase| |] [|ws1 rest]];
      destruct Hws as [-> _]; by eexists.
  - intros Hret. destruct (inv_returned _ _ _ Hinv Hret) as [Hr Hq].
    rewrite running_eq in Hr.
    assert (tasks = (p_done p).*1 ∧ p_world p = w0) as [-> ->].
    { destruct (p_workers p) as [|[|task phase| |] [|ws1 rest]];
        try done; destruct Hws as [-> ->]; by rewrite Hq, app_nil_r. }
    done.
Qed.

Lemma one_worker_runs_in_order_witness :
  let p := run_schedule example_session 1
             [ASpawn; AGet 0%nat; ARun 0%nat; ARun 0%nat; ARun 0%nat;
              AGet 0%nat; ARun 0%nat; ARun 0%nat; AJoin] example_pool in
  ∃ w0, run_in_order example_session (p_done p).*1 empty_world = (w0, p_done p) ∧
        (p_done p).*1 `prefix_of` example_tasks ∧
        (p_main p = MReturned →
           run_in_order example_session example_tasks empty_world =
             (p_world p, p_done p)).
Proof.
  apply (one_worker_runs_in_order example_session empty_world example_tasks).
  apply run_schedule_reachable.
Defined.

(** * [crawl] as a whole *)

Section crawl_runs.
Context `{PythonLib}.

(** X27: a crawl that has returned has run [download_tile] once for
    every tile of the rectangle between its two corner tiles and for
    nothing else; and with [parallel_tasks] at least 1, a crawl that got
    past [find_tile] and the loops can always be run to its return. *)
Theorem crawl_attempts_every_tile (session : ClientSession)
    (args : CrawlerArgs) (w : world) (p : pool) :
  crawl_reachable session args w p →
  ∃ t1 t2,
    find_tile (top_latitude args) (top_longitude args) (level args) = Ok t1 ∧
    find_tile (bottom_latitude args) (bottom_longitude args) (level args) = Ok t2 ∧
    (p_main p = MReturned →
       task_tile <$> (p_done p).*1 ≡ₚ box_tiles (t1, t2) ∧
       length (p_done p) = length (box_tiles (t1, t2))) ∧
    (0 < parallel_tasks args →
       ∃ p', rtc (step session (parallel_tasks args)) p p' ∧
             p_main p' = MReturned).
Proof.
  intros (tasks & (t1 & t2 & Ht1 & Ht2 & Hq)%crawl_tasks_inv & Hreach).
  exists t1, t2. split; [done|]. split; [done|].
  pose proof (crawl_box_tasks_tiles _ _ _ _ Hq) as Htiles. split.
  - intros Hret. pose proof (reachable_inv _ _ _ _ _ Hreach) as Hinv.
    destruct (returned_pool_all_done _ _ _ Hinv Hret) as (Hdone & _ & _).
    rewrite <- Htiles. split; [by rewrite Hdone|].
    by rewrite length_fmap, <- Hdone, length_fmap.
  - intros Hn. by eapply crawl_box_can_return.
Qed.

End crawl_runs.

Lemma crawl_attempts_every_tile_witness :
  let p := run_schedule example_session 2
             [ASpawn; AGet 0%nat; AGet 1%nat; ARun 0%nat; ARun 0%nat; ARun 1%nat;
              ARun 1%nat; AJoin]
             (crawl_box_pool empty_world example_crawl) in
  ∃ t1 t2,
    find_tile (top_latitude example_args) (top_longitude example_args)
      (level example_args) = Ok t1 ∧
    find_tile (bottom_latitude example_args) (bottom_longitude example_args)
      (level example_args) = Ok t2 ∧
    (p_main p = MReturned →
       task_tile <$> (p_done p).*1 ≡ₚ box_tiles (t1, t2) ∧
       length (p_done p) = length (box_tiles (t1, t2))) ∧
    (0 < parallel_tasks example_args →
       ∃ p', rtc (step example_session (parallel_tasks example_args)) p p' ∧
             p_main p' = MReturned).
Proof.
  apply (@crawl_attempts_every_tile example_lib example_session example_args
           empty_world).
  exists example_crawl. split.
  - apply example_crawl_tasks.
  - apply run_schedule_reachable.
Defined.
